(** * csmscrape: the download-and-render pipeline of [csm_all.py] and
      [csm_epub.py], embedded in Rocq.

    Conventions of the embedding.
    - A Python [str] is a [string]: the text in its UTF-8 bytes.  The
      case folding of [lower()] and of [re.IGNORECASE] and the classes
      [\d] and [\s] of the chapter and page patterns are the ones of the
      ASCII range; the [\d] of the volume pattern, whose match decides
      which hrefs are kept, is the one of Python: every decimal digit of
      Unicode, the digits beyond ASCII being a table the definitions take.
    - Python integers are [N]; sleep durations are rationals ([Q]).
    - The file system and the network are explicit: a finite map from path
      strings to nodes, and an oracle answering each GET request.
    - An exception that no [try] of the program catches is the [Raise]
      result of the error monad below. *)

From Stdlib Require Import Ascii String NArith ZArith QArith Sorted Permutation.
From stdpp Require Import base option list gmap strings pretty.

Local Open Scope N_scope.
Local Open Scope Z_scope.
Local Open Scope nat_scope.

(** ** Strings as Python uses them *)

Module Str.

Definition len (s : string) : nat := String.length s.

(** [s.startswith(p)], returning what follows the prefix. *)
Fixpoint strip_prefix (p s : string) : option string :=
  match p with
  | EmptyString => Some s
  | String a p' =>
      match s with
      | EmptyString => None
      | String b s' => if decide (a = b) then strip_prefix p' s' else None
      end
  end.

Definition startswith (s p : string) : bool :=
  match strip_prefix p s with Some _ => true | None => false end.

(** ASCII lower-casing of one character and of a string. *)
Definition lower_char (c : ascii) : ascii :=
  let n := N_of_ascii c in
  if ((65 <=? n) && (n <=? 90))%N then ascii_of_N (n + 32) else c.

Fixpoint lower (s : string) : string :=
  match s with
  | EmptyString => EmptyString
  | String c s' => String (lower_char c) (lower s')
  end.

(** Prefix test modulo ASCII case, for patterns written in lower case. *)
Fixpoint strip_prefix_ci (p s : string) : option string :=
  match p with
  | EmptyString => Some s
  | String a p' =>
      match s with
      | EmptyString => None
      | String b s' =>
          if decide (lower_char a = lower_char b) then strip_prefix_ci p' s'
          else None
      end
  end.

Fixpoint rev_onto (s acc : string) : string :=
  match s with
  | EmptyString => acc
  | String c s' => rev_onto s' (String c acc)
  end.

Definition rev (s : string) : string := rev_onto s EmptyString.

(** [s.endswith(p)]. *)
Definition endswith (s p : string) : bool := startswith (rev s) (rev p).

(** [s[n:]] for a non-negative [n]. *)
Fixpoint drop (n : nat) (s : string) : string :=
  match n with
  | O => s
  | S n' => match s with EmptyString => EmptyString | String _ s' => drop n' s' end
  end.

(** [s[:n]]. *)
Fixpoint take (n : nat) (s : string) : string :=
  match n, s with
  | S n', String c s' => String c (take n' s')
  | _, _ => EmptyString
  end.

(** [s.find(sub)]: the index of the first occurrence, or [-1]. *)
Fixpoint find_from (sub s : string) (i : Z) : Z :=
  if startswith s sub then i
  else match s with
       | EmptyString => (-1)%Z
       | String _ s' => find_from sub s' (i + 1)%Z
       end.

Definition find (s sub : string) : Z := find_from sub s 0%Z.

(** [s.split(sep)] for a one-character separator: never the empty list. *)
Fixpoint split (sep : ascii) (s : string) : list string :=
  match s with
  | EmptyString => [EmptyString]
  | String c s' =>
      if decide (c = sep) then EmptyString :: split sep s'
      else match split sep s' with
           | [] => [String c EmptyString]
           | seg :: segs => String c seg :: segs
           end
  end.

(** The [x in s] test on strings. *)
Fixpoint contains (s sub : string) : bool :=
  if startswith s sub then true
  else match s with
       | EmptyString => false
       | String _ s' => contains s' sub
       end.

(** [\d] and [\s] on the ASCII range. *)
Definition digit_val (c : ascii) : option N :=
  let n := N_of_ascii c in
  if ((48 <=? n) && (n <=? 57))%N then Some (n - 48)%N else None.

Definition is_digit (c : ascii) : bool :=
  match digit_val c with Some _ => true | None => false end.

Definition is_space (c : ascii) : bool :=
  let n := N_of_ascii c in
  ((9 <=? n) && (n <=? 13) || (28 <=? n) && (n <=? 32))%N.

(** The longest prefix of characters satisfying [f], and the rest. *)
Fixpoint span (f : ascii → bool) (s : string) : string * string :=
  match s with
  | EmptyString => (EmptyString, EmptyString)
  | String c s' =>
      if f c then let '(a, b) := span f s' in (String c a, b)
      else (EmptyString, s)
  end.

(** [int(s)] on a string of decimal digits; [None] where Python raises. *)
Fixpoint int_acc (s : string) (acc : N) : option N :=
  match s with
  | EmptyString => Some acc
  | String c s' =>
      match digit_val c with
      | Some d => int_acc s' (10 * acc + d)%N
      | None => None
      end
  end.

Definition int (s : string) : option N :=
  match s with
  | EmptyString => None
  | _ => int_acc s 0%N
  end.

(** The order of [str]: lexicographic on the character codes, a proper
    prefix first. *)
Fixpoint le (s t : string) : bool :=
  match s, t with
  | EmptyString, _ => true
  | String _ _, EmptyString => false
  | String a s', String b t' =>
      if (N_of_ascii a <? N_of_ascii b)%N then true
      else if (N_of_ascii a =? N_of_ascii b)%N then le s' t'
      else false
  end.

Fixpoint drop_while (f : ascii → bool) (s : string) : string :=
  match s with
  | EmptyString => EmptyString
  | String c s' => if f c then drop_while f s' else s
  end.

Fixpoint all (f : ascii → bool) (s : string) : bool :=
  match s with
  | EmptyString => true
  | String c s' => f c && all f s'
  end.

End Str.

(** ** Leftmost regular-expression search

    [re.search] tries the pattern at position 0, 1, 2, ... and returns the
    first success.  None of the program's patterns looks behind, so a
    pattern is a function of the suffix that starts at the tried position. *)

Fixpoint re_search {A : Type} (pat : string → option A) (s : string) : option A :=
  match pat s with
  | Some x => Some x
  | None =>
      match s with
      | EmptyString => None
      | String _ s' => re_search pat s'
      end
  end.

(** [re.findall] for a pattern with one group: the non-overlapping matches
    from left to right.  [pat] returns the group and the length of the whole
    match (never 0 for the program's pattern); [skip] counts the characters
    of the current match still to pass. *)

Fixpoint re_findall_from (pat : string → option (string * nat))
    (skip : nat) (s : string) : list string :=
  match skip with
  | S k =>
      match s with
      | EmptyString => []
      | String _ s' => re_findall_from pat k s'
      end
  | O =>
      match pat s with
      | Some (g, n) =>
          g :: match s with
               | EmptyString => []
               | String _ s' => re_findall_from pat (Nat.pred n) s'
               end
      | None =>
          match s with
          | EmptyString => []
          | String _ s' => re_findall_from pat O s'
          end
      end
  end.

Definition re_findall (pat : string → option (string * nat)) (s : string)
    : list string :=
  re_findall_from pat O s.

(** ** urllib.parse.unquote

    Each [%XY] with two hexadecimal digits becomes the byte [0xXY]; a [%]
    not followed by two hexadecimal digits stays.  (Python then reads the
    bytes as UTF-8; on the byte representation used here that is the
    identity whenever the bytes are valid UTF-8.) *)

Definition hex_val (c : ascii) : option N :=
  let n := N_of_ascii c in
  if ((48 <=? n) && (n <=? 57))%N then Some (n - 48)%N
  else if ((65 <=? n) && (n <=? 70))%N then Some (n - 55)%N
  else if ((97 <=? n) && (n <=? 102))%N then Some (n - 87)%N
  else None.

Fixpoint unquote (s : string) : string :=
  match s with
  | EmptyString => EmptyString
  | String c s1 =>
      if decide (c = "%"%char) then
        match s1 with
        | String h1 (String h2 s3) =>
            match hex_val h1, hex_val h2 with
            | Some a, Some b => String (ascii_of_N (16 * a + b)) (unquote s3)
            | _, _ => String c (unquote s1)
            end
        | _ => String c (unquote s1)
        end
      else String c (unquote s1)
  end.

(** ** Configuration constants of [csm_all.py] *)

Definition FIRST_VOL : nat := 1.
Definition LAST_VOL : nat := 11.

Definition digit_char (d : nat) : ascii := ascii_of_nat (48 + d).

(** The format [f"{i:02d}"] for the numbers below 100. *)
Definition fmt02 (i : nat) : string :=
  String (digit_char (i / 10)) (String (digit_char (i mod 10)) EmptyString).

(** [range(a, b)]. *)
Definition range (a b : nat) : list nat := seq a (b - a).

Definition TARGET_VOLUMES : gset string :=
  list_to_set (fmt02 <$> range FIRST_VOL (LAST_VOL + 1)).

Definition OUTPUT_ROOT : string := "chainsaw_man_colored".

(** ** Link extractor: [parse_image_links] *)

Record LinkRecord := mkLink {
  vol : string;
  inner_path : string;
  url : string
}.

Global Instance LinkRecord_eq_dec : EqDecision LinkRecord.
Proof. solve_decision. Defined.

Definition VOL_MARKER : string := "Digital Colored Comics v".
Definition ROOT_MARKER : string := "Chainsaw Man (Digitally Colored)/".

(** The double quote, character 34. *)
Definition dquote : ascii := ascii_of_nat 34.

Definition not_quote (c : ascii) : bool :=
  if decide (c = dquote) then false else true.

(** Does [v] read [w.ext] with [w] not empty and [ext] one of jpg, jpeg,
    png in any case: the group of the href pattern, one or more characters
    other than the double quote, a dot and the extension. *)
Definition image_suffix (v : string) : bool :=
  let l := Str.lower v in
  (Str.endswith l ".jpg" && (4 <? Str.len v))
  || (Str.endswith l ".jpeg" && (5 <? Str.len v))
  || (Str.endswith l ".png" && (4 <? Str.len v)).

(** The href pattern of [parse_image_links] with [re.IGNORECASE], tried at
    the head of [s]: the literal href= and an opening double quote, the
    group, a closing double quote.  Returns the group and the length of the
    match. *)
Definition href_pattern (s : string) : option (string * nat) :=
  match Str.strip_prefix_ci ("href=" +:+ String dquote EmptyString) s with
  | None => None
  | Some rest =>
      let '(v, after) := Str.span not_quote rest in
      match after with
      | String _ _ =>
          if image_suffix v then Some (v, 6 + Str.len v + 1) else None
      | EmptyString => None
      end
  end.

(** The decimal digits of [\d].  A pattern on [str] matches with [\d]
    every character of the Unicode category Nd, not only 0 to 9.  In the
    UTF-8 bytes a digit beyond ASCII is a lead byte of 128 or more with its
    continuation bytes.  Which characters these are is the Unicode database
    of the interpreter: a table that, for a lead byte and the bytes after
    it, gives the number of continuation bytes of the decimal digit that
    starts there, or nothing when no decimal digit starts there. *)
Definition DigitTable : Type := ascii → string → option nat.

(** One [\d] at the head of [s]: the character matched, in its bytes, and
    what follows it. *)
Definition re_digit (nd : DigitTable) (s : string) : option (string * string) :=
  match s with
  | EmptyString => None
  | String b rest =>
      if (N_of_ascii b <? 128)%N then
        if Str.is_digit b then Some (String b EmptyString, rest) else None
      else
        match nd b rest with
        | Some k => Some (String b (Str.take k rest), Str.drop k rest)
        | None => None
        end
  end.

(** The pattern [Digital Colored Comics v(\d{2})] tried at the head of [s]:
    the group, two decimal digits of any script. *)
Definition vol_pattern (nd : DigitTable) (s : string) : option string :=
  match Str.strip_prefix VOL_MARKER s with
  | None => None
  | Some rest =>
      match re_digit nd rest with
      | None => None
      | Some (c1, rest1) =>
          match re_digit nd rest1 with
          | None => None
          | Some (c2, _) => Some (c1 +:+ c2)
          end
      end
  end.

(** The [if]/[elif]/[else] on the scheme: the full URL, or [None] where
    the loop goes on to the next href. *)
Definition full_url_of (href : string) : option string :=
  if Str.startswith href "//" then Some ("https:" +:+ href)
  else if Str.startswith href "http://" || Str.startswith href "https://"
       then Some href
       else None.

(** The inner path inside the archive. *)
Definition inner_path_of (decoded : string) : string :=
  let inner_idx := Str.find decoded ROOT_MARKER in
  if decide (inner_idx = (-1)%Z)
  then List.last (Str.split "/"%char decoded) EmptyString
  else Str.drop (Z.to_nat inner_idx) decoded.

(** The body of the loop over [raw_hrefs]; [None] is [continue]. *)
Definition link_of_href (nd : DigitTable) (href : string) : option LinkRecord :=
  match full_url_of href with
  | None => None
  | Some full_url =>
      let decoded := unquote href in
      match re_search (vol_pattern nd) decoded with
      | None => None
      | Some v =>
          if decide (v ∈ TARGET_VOLUMES)
          then Some (mkLink v (inner_path_of decoded) full_url)
          else None
      end
  end.

Definition raw_hrefs (html : string) : list string :=
  re_findall href_pattern html.

Definition parse_image_links (nd : DigitTable) (html : string) : list LinkRecord :=
  omap (link_of_href nd) (raw_hrefs html).

(** ** Paths: [os.path] on a POSIX system *)

Definition is_slash (c : ascii) : bool :=
  if decide (c = "/"%char) then true else false.

Definition not_slash (c : ascii) : bool := negb (is_slash c).

(** [os.path.join(a, b)]. *)
Definition path_join (a b : string) : string :=
  if Str.startswith b "/" then b
  else if decide (a = EmptyString) then b
  else if Str.endswith a "/" then a +:+ b
  else a +:+ "/" +:+ b.

(** [os.path.basename(p)]: what follows the last slash. *)
Definition basename (p : string) : string :=
  Str.rev (fst (Str.span not_slash (Str.rev p))).

(** [os.path.dirname(p)]: what precedes the last slash, with the slash,
    and with the trailing slashes stripped unless nothing else is left. *)
Definition dirname (p : string) : string :=
  let head_r := Str.drop_while not_slash (Str.rev p) in
  if Str.all is_slash head_r then Str.rev head_r
  else Str.rev (Str.drop_while is_slash head_r).

(** [os.path.relpath(p, start)] for a path under [start], the only case
    the directory walk produces. *)
Definition relpath (p start : string) : string :=
  match Str.strip_prefix (start +:+ "/") p with
  | Some r => r
  | None => p
  end.

(** [os.path.splitext(p)[1]]: the extension from the last dot of the base
    name, empty when the dot only follows leading dots. *)
Definition splitext_ext (p : string) : string :=
  let '(ext_r, rest_r) :=
    Str.span (λ c, if decide (c = "."%char) then false else true)
             (Str.rev (basename p)) in
  match rest_r with
  | String _ stem_r =>
      if Str.all (λ c, if decide (c = "."%char) then true else false) stem_r
      then EmptyString
      else String "."%char (Str.rev ext_r)
  | EmptyString => EmptyString
  end.

(** ** Ordering of the images: [_sort_key_for_relpath] *)

(** The pattern [Chapter\s+(\d+)] tried at the head of [s]. *)
Definition chapter_pattern (s : string) : option string :=
  match Str.strip_prefix "Chapter" s with
  | None => None
  | Some rest =>
      let '(ws, rest1) := Str.span Str.is_space rest in
      let '(ds, _) := Str.span Str.is_digit rest1 in
      match ws, ds with
      | String _ _, String _ _ => Some ds
      | _, _ => None
      end
  end.

Definition not_dot (c : ascii) : bool :=
  if decide (c = "."%char) then false else true.

(** The pattern [(\d+)(?=\.[^.]+$)] tried at the head of [s]: digits, then
    a dot and one or more characters other than a dot up to the end. *)
Definition page_pattern (s : string) : option string :=
  let '(ds, rest) := Str.span Str.is_digit s in
  match ds, rest with
  | String _ _, String c (String e ext) =>
      if decide (c = "."%char) then
        if Str.all not_dot (String e ext) then Some ds else None
      else None
  | _, _ => None
  end.

Definition SENTINEL : N := 9999%N.

(** [int(m.group(1)) if m else 9999]. *)
Definition int_or_sentinel (m : option string) : N :=
  match m with
  | Some ds => default SENTINEL (Str.int ds)
  | None => SENTINEL
  end.

Definition chapter_match (rel_path : string) : option string :=
  re_search chapter_pattern rel_path.

Definition page_match (rel_path : string) : option string :=
  re_search page_pattern (basename rel_path).

Definition SortKey : Type := N * N * string.

Definition _sort_key_for_relpath (rel_path : string) : SortKey :=
  let chap_num := int_or_sentinel (chapter_match rel_path) in
  let page_num := int_or_sentinel (page_match rel_path) in
  (chap_num, page_num, rel_path).

(** Comparison of the key tuples, as Python compares tuples. *)
Definition key_le (k1 k2 : SortKey) : bool :=
  let '(c1, p1, r1) := k1 in
  let '(c2, p2, r2) := k2 in
  if (c1 <? c2)%N then true
  else if (c1 =? c2)%N then
    if (p1 <? p2)%N then true
    else if (p1 =? p2)%N then Str.le r1 r2
    else false
  else false.

(** [list.sort(key=...)]: a stable sort, here by insertion.  An element
    goes after the elements whose key is not greater. *)
Section StableSort.
Context {A K : Type} (le : K → K → bool) (key : A → K).

Fixpoint insert_by (x : A) (l : list A) : list A :=
  match l with
  | [] => [x]
  | y :: l' =>
      if le (key y) (key x) then y :: insert_by x l'
      else x :: l
  end.

Definition sort_by (l : list A) : list A :=
  foldl (λ acc x, insert_by x acc) [] l.
End StableSort.

(** ** Volume collector: [collect_images_for_volume] *)

(** One step of [os.walk(OUTPUT_ROOT)]: a directory and its file names. *)
Definition WalkStep : Type := string * list string.

(** An image entry: [(rel_path, full_path)]. *)
Definition ImageEntry : Type := string * string.

Definition has_image_ext (name : string) : bool :=
  let l := Str.lower name in
  Str.endswith l ".jpg" || Str.endswith l ".jpeg" || Str.endswith l ".png".

Definition volume_tag (v : string) : string := "Digital Colored Comics v" +:+ v.

(** The two nested loops, before the sort. *)
Definition gather_images (walk : list WalkStep) (v : string) : list ImageEntry :=
  flat_map
    (λ step : WalkStep,
       let '(root, files) := step in
       if Str.contains root (volume_tag v) then
         omap (λ name,
                 if has_image_ext name then
                   let full_path := path_join root name in
                   Some (relpath full_path OUTPUT_ROOT, full_path)
                 else None)
              files
       else [])
    walk.

Definition collect_images_for_volume (walk : list WalkStep) (v : string)
    : list ImageEntry :=
  sort_by key_le (λ t : ImageEntry, _sort_key_for_relpath (fst t))
          (gather_images walk v).

(** ** Exceptions

    [Raise e] is an exception on its way up; a [try ... except Exception]
    of the program is a [match] that handles it. *)

Inductive result (A : Type) : Type :=
| Ok (a : A)
| Raise (e : string).
Arguments Ok {A} a.
Arguments Raise {A} e.

(** ** Images, documents and the file system *)

(** What [Image.open] returns: a colour mode and the pixel data. *)
Record Image := mkImage {
  img_mode : string;
  img_data : string
}.

Record EpubItem := mkItem {
  item_uid : string;
  item_file_name : string;
  item_media_type : string;
  item_content : string
}.

Record EpubHtml := mkHtml {
  html_uid : string;
  html_file_name : string;
  html_title : string;
  html_lang : string;
  html_content : string
}.

Record EpubLink := mkEpubLink {
  link_href : string;
  link_title : string;
  link_uid : string
}.

Inductive BookItem : Type :=
| ItemImage (i : EpubItem)
| ItemPage (p : EpubHtml)
| ItemNcx
| ItemNav.

Record EpubBook := mkBook {
  book_identifier : string;
  book_title : string;
  book_language : string;
  book_authors : list string;
  book_metadata : list (string * string * string);
  book_items : list BookItem;
  book_toc : list EpubLink;
  book_spine : list EpubHtml
}.

Inductive Content : Type :=
| Bytes (b : string)
| PdfDoc (pages : list Image)
| EpubDoc (book : EpubBook).

Inductive Node : Type :=
| Dir
| File (c : Content).

(** The file system: path strings to nodes.  Paths are compared as
    strings. *)
Abbreviation FS := (gmap string Node).

(** A path of slashes only is the root directory, which is always there
    and is not kept in the map. *)
Definition is_root (p : string) : bool :=
  match p with
  | EmptyString => false
  | String _ _ => Str.all is_slash p
  end.

(** [os.path.exists] and [os.path.isdir]. *)
Definition path_exists (fs : FS) (p : string) : bool :=
  is_root p || match fs !! p with Some _ => true | None => false end.

Definition path_isdir (fs : FS) (p : string) : bool :=
  is_root p || match fs !! p with Some Dir => true | _ => false end.

(** The directories [os.makedirs(d)] walks: [d] and what [dirname] reaches
    from it, outermost first.  A path of slashes only is the root, which
    always exists. *)
Fixpoint dir_chain (fuel : nat) (d : string) : list string :=
  match fuel with
  | O => []
  | S k =>
      if decide (d = EmptyString) then []
      else if is_root d then []
      else dir_chain k (dirname d) ++ [d]
  end.

(** Making one directory of the chain with [exist_ok=True]: a directory
    that is there stays, a file in its place is an error. *)
Definition mkdir_ok (r : result unit * FS) (d : string) : result unit * FS :=
  match r with
  | (Raise e, fs) => (Raise e, fs)
  | (Ok _, fs) =>
      match fs !! d with
      | Some Dir => (Ok (), fs)
      | Some (File _) => (Raise ("FileExistsError: " +:+ d), fs)
      | None => (Ok (), <[d := Dir]> fs)
      end
  end.

(** [os.makedirs(d, exist_ok=True)]. *)
Definition makedirs (d : string) (fs : FS) : result unit * FS :=
  if decide (d = EmptyString) then (Raise "FileNotFoundError", fs)
  else foldl mkdir_ok (Ok (), fs) (dir_chain (S (Str.len d)) d).

(** ** The network *)

(** The answer to one GET: the connection fails, or a status arrives with
    a body that is streamed in chunks and may break after them. *)
Inductive Response : Type :=
| TransportError (e : string)
| Reply (status : nat) (chunks : list string) (broken : option string).

(** The network answers the [n]-th request of the run, for a URL. *)
Definition Net : Type := nat → string → Response.

(** [raise_for_status]: the 4xx and 5xx statuses raise. *)
Definition raise_for_status (status : nat) : result unit :=
  if (400 <=? status) && (status <? 600)
  then Raise ("HTTPError: " +:+ pretty status)
  else Ok ().

(** ** Program state: the file system and what the run did to the world *)

Inductive Msg : Type :=
| MsgRetry (attempt retries : nat) (u : string) (sleep_for : Q) (e : string)
| MsgNoDownloads
| MsgStarting (max_workers : nat)
| MsgSkipped (local_path : string)
| MsgDownloaded (v inner : string)
| MsgFailed (u : string) (last_err : option string)
| MsgFetching (u : string)
| MsgGotHtml (n : nat)
| MsgNoImages (v : string)
| MsgPdfExists (v : string)
| MsgBuildingPdf (v : string) (n : nat)
| MsgFailedReading (full_path e : string)
| MsgSavedPdf (pdf_path : string)
| MsgNoValidImages (v : string)
| MsgFoundVolumes (vs : list string)
| MsgNoImagesEpub (v : string)
| MsgBuildingEpub (v : string) (n : nat)
| MsgSavedEpub (epub_path : string)
| MsgAllDone.

Record World := mkWorld {
  fs : FS;
  requests : list string;
  sleeps : list Q;
  printed : list Msg
}.

Definition set_fs (w : World) (f : FS) : World :=
  mkWorld f (requests w) (sleeps w) (printed w).

Definition print (m : Msg) (w : World) : World :=
  mkWorld (fs w) (requests w) (sleeps w) (printed w ++ [m]).

Definition sleep (d : Q) (w : World) : World :=
  mkWorld (fs w) (requests w) (sleeps w ++ [d]) (printed w).

(** [session.get(url)]: the request is counted, the network answers. *)
Definition http_get (net : Net) (u : string) (w : World) : Response * World :=
  (net (length (requests w)) u,
   mkWorld (fs w) (requests w ++ [u]) (sleeps w) (printed w)).

(** ** Download manager: [_download_one] and [download_images] *)

(** What [_download_one] returns. *)
Inductive Outcome : Type :=
| Skipped (local_path : string)
| Downloaded (v inner : string)
| Failed (u : string) (last_err : option string).

Definition nonempty (s : string) : bool :=
  match s with EmptyString => false | _ => true end.

(** What the chunk loop has written: the chunks that are not empty. *)
Definition written (chunks : list string) : string :=
  foldr String.append EmptyString (filter (λ c, nonempty c = true) chunks).

(** The body of the [try]: GET, status check, then the file is opened for
    writing and the chunks are written as they arrive.  A stream that
    breaks leaves what was written. *)
Definition fetch_to_file (net : Net) (u local_path : string) (w : World)
    : result unit * World :=
  let '(resp, w1) := http_get net u w in
  match resp with
  | TransportError e => (Raise e, w1)
  | Reply status chunks broken =>
      match raise_for_status status with
      | Raise e => (Raise e, w1)
      | Ok _ =>
          match fs w1 !! local_path with
          | Some Dir => (Raise ("IsADirectoryError: " +:+ local_path), w1)
          | _ =>
              let w2 := set_fs w1 (<[local_path := File (Bytes (written chunks))]> (fs w1)) in
              match broken with
              | Some e => (Raise e, w2)
              | None => (Ok (), w2)
              end
          end
      end
  end.

(** The loop [for attempt in range(1, retries + 1)]; [todo] counts the
    iterations left. *)
Fixpoint attempt_loop (net : Net) (item : LinkRecord) (local_path : string)
    (retries : nat) (backoff_base : Q)
    (todo attempt : nat) (last_err : option string) (w : World)
    : Outcome * World :=
  match todo with
  | O => (Failed (url item) last_err, w)
  | S todo' =>
      match fetch_to_file net (url item) local_path w with
      | (Ok _, w1) => (Downloaded (vol item) (inner_path item), w1)
      | (Raise e, w1) =>
          if attempt <? retries then
            let sleep_for := (backoff_base * inject_Z (Z.of_nat attempt))%Q in
            let w2 := print (MsgRetry attempt retries (url item) sleep_for e) w1 in
            attempt_loop net item local_path retries backoff_base
                         todo' (S attempt) (Some e) (sleep sleep_for w2)
          else (Failed (url item) (Some e), w1)
      end
  end.

Definition local_path_of (item : LinkRecord) : string :=
  path_join OUTPUT_ROOT (inner_path item).

Definition _download_one (net : Net) (item : LinkRecord)
    (retries : nat) (backoff_base : Q) (w : World) : result Outcome * World :=
  let local_path := local_path_of item in
  match makedirs (dirname local_path) (fs w) with
  | (Raise e, fs1) => (Raise e, set_fs w fs1)
  | (Ok _, fs1) =>
      let w1 := set_fs w fs1 in
      if path_exists fs1 local_path then (Ok (Skipped local_path), w1)
      else
        let '(o, w2) :=
          attempt_loop net item local_path retries backoff_base
                       retries 1 None w1 in
        (Ok o, w2)
  end.

Definition DEFAULT_RETRIES : nat := 3.
Definition DEFAULT_BACKOFF : Q := 1%Q.

(** The worker pool.  The workers run [_download_one] on every item; the
    model takes the schedule that runs them one after the other in the
    order of the list, and every item is run even after one has raised. *)
Fixpoint run_workers (net : Net) (items : list LinkRecord) (w : World)
    : list (result Outcome) * World :=
  match items with
  | [] => ([], w)
  | item :: rest =>
      let '(r, w1) := _download_one net item DEFAULT_RETRIES DEFAULT_BACKOFF w in
      let '(rs, w2) := run_workers net rest w1 in
      (r :: rs, w2)
  end.

Definition msg_of_outcome (o : Outcome) : Msg :=
  match o with
  | Skipped p => MsgSkipped p
  | Downloaded v i => MsgDownloaded v i
  | Failed u e => MsgFailed u e
  end.

(** The loop over the finished futures: [print(fut.result())] raises what
    the worker raised. *)
Fixpoint report_results (rs : list (result Outcome)) (w : World)
    : result unit * World :=
  match rs with
  | [] => (Ok (), w)
  | Ok o :: rs' => report_results rs' (print (msg_of_outcome o) w)
  | Raise e :: _ => (Raise e, w)
  end.

Definition download_images (net : Net) (links_info : list LinkRecord)
    (max_workers : nat) (w : World) : result unit * World :=
  match links_info with
  | [] => (Ok (), print MsgNoDownloads w)
  | _ =>
      let w1 := print (MsgStarting max_workers) w in
      let '(rs, w2) := run_workers net links_info w1 in
      report_results rs w2
  end.

(** ** PDF renderer: [build_pdf_for_volume] *)

Definition PDF_OUTPUT : string := path_join OUTPUT_ROOT "pdfs".

Definition pdf_path_of (v : string) : string :=
  path_join PDF_OUTPUT ("Chainsaw_Man_Digitally_Colored_v" +:+ v +:+ ".pdf").

Section Render.

(** The collaborators of the renderers: the directory walk of the output
    tree ([os.walk(OUTPUT_ROOT)], whose listing order is the system's),
    and the image decoder and colour conversion of the imaging library,
    which fail on what they cannot read. *)
Variable nonascii_digit : DigitTable.
Variable os_walk : FS → list WalkStep.
Variable image_decode : string → result Image.
Variable image_convert : Image → string → result Image.

(** [Image.open(full_path)]. *)
Definition Image_open (f : FS) (full_path : string) : result Image :=
  match f !! full_path with
  | Some (File (Bytes b)) => image_decode b
  | Some _ => Raise ("UnidentifiedImageError: " +:+ full_path)
  | None => Raise ("FileNotFoundError: " +:+ full_path)
  end.

(** The body of the [try] in the loop over the images. *)
Definition open_rgb (f : FS) (full_path : string) : result Image :=
  match Image_open f full_path with
  | Raise e => Raise e
  | Ok img =>
      if decide (img_mode img = "RGB") then Ok img
      else image_convert img "RGB"
  end.

(** The loop over the images: a failure is printed and the image left
    out. *)
Fixpoint open_images (entries : list ImageEntry) (images : list Image)
    (w : World) : list Image * World :=
  match entries with
  | [] => (images, w)
  | (_, full_path) :: rest =>
      match open_rgb (fs w) full_path with
      | Ok img => open_images rest (images ++ [img]) w
      | Raise e => open_images rest images (print (MsgFailedReading full_path e) w)
      end
  end.

Definition build_pdf_for_volume (v : string) (w : World) : World :=
  let images_entries := collect_images_for_volume (os_walk (fs w)) v in
  match images_entries with
  | [] => print (MsgNoImages v) w
  | _ =>
      let pdf_path := pdf_path_of v in
      if path_exists (fs w) pdf_path then print (MsgPdfExists v) w
      else
        let w1 := print (MsgBuildingPdf v (length images_entries)) w in
        let '(images, w2) := open_images images_entries [] w1 in
        match images with
        | first :: others =>
            (* images[0].save(pdf_path, save_all=True, append_images=images[1:]) *)
            let w3 := set_fs w2 (<[pdf_path := File (PdfDoc (first :: others))]> (fs w2)) in
            print (MsgSavedPdf pdf_path) w3
        | [] => print (MsgNoValidImages v) w2
        end
  end.

(** ** [fetch_html] and [main] of [csm_all.py] *)

Definition ARCHIVE_PAGE_URL : string :=
  "https://ia800203.us.archive.org/view_archive.php?archive=/27/items/chainsaw-man-digitally-colored/Chainsaw%20Man%20%28Digitally%20Colored%29.rar".

Definition fetch_html (net : Net) (u : string) (w : World)
    : result string * World :=
  let w1 := print (MsgFetching u) w in
  let '(resp, w2) := http_get net u w1 in
  match resp with
  | TransportError e => (Raise e, w2)
  | Reply status chunks broken =>
      match raise_for_status status, broken with
      | Raise e, _ => (Raise e, w2)
      | Ok _, Some e => (Raise e, w2)
      | Ok _, None =>
          let text := foldr String.append EmptyString chunks in
          (Ok text, print (MsgGotHtml (Str.len text)) w2)
      end
  end.

(** Comparison of the pairs [(vol, inner_path)]. *)
Definition pair_le (a b : string * string) : bool :=
  if decide (fst a = fst b) then Str.le (snd a) (snd b)
  else Str.le (fst a) (fst b).

(** [sorted({item["vol"] for item in links_info})]. *)
Definition vols_present (links_info : list LinkRecord) : list string :=
  sort_by Str.le id (remove_dups (vol <$> links_info)).

Definition main (net : Net) (w : World) : result unit * World :=
  match fetch_html net ARCHIVE_PAGE_URL w with
  | (Raise e, w1) => (Raise e, w1)
  | (Ok html, w1) =>
      let links_info :=
        sort_by pair_le (λ x, (vol x, inner_path x))
                (parse_image_links nonascii_digit html) in
      match download_images net links_info 3 w1 with
      | (Raise e, w2) => (Raise e, w2)
      | (Ok _, w2) =>
          let vs := vols_present links_info in
          let w3 := print (MsgFoundVolumes vs) w2 in
          (Ok (), print MsgAllDone (foldl (λ acc v, build_pdf_for_volume v acc) w3 vs))
      end
  end.

(** ** EPUB renderer: [csm_epub.py] *)

Definition EPUB_OUTPUT : string := path_join OUTPUT_ROOT "epubs".

Definition guess_mime (path : string) : string :=
  if Str.endswith (Str.lower path) ".png" then "image/png" else "image/jpeg".

(** The label pattern tried at the head of [s]: the word Chapter, white
    space, digits, and what follows up to the next slash. *)
Definition label_pattern (s : string) : option string :=
  match Str.strip_prefix "Chapter" s with
  | None => None
  | Some rest =>
      let '(ws, rest1) := Str.span Str.is_space rest in
      let '(ds, rest2) := Str.span Str.is_digit rest1 in
      let '(tail, _) := Str.span not_slash rest2 in
      match ws, ds with
      | String _ _, String _ _ => Some ("Chapter" +:+ ws +:+ ds +:+ tail)
      | _, _ => None
      end
  end.

Definition extract_chapter_label (rel_path : string) : string :=
  match re_search label_pattern rel_path with
  | Some m => m
  | None => "Pages"
  end.

(** The dict [chapters]: labels in the order of their first insertion,
    each with its pages in the order they were appended. *)
Fixpoint chapters_add (label : string) (e : ImageEntry)
    (chapters : list (string * list ImageEntry)) : list (string * list ImageEntry) :=
  match chapters with
  | [] => [(label, [e])]
  | (l, pages) :: rest =>
      if decide (l = label) then (l, pages ++ [e]) :: rest
      else (l, pages) :: chapters_add label e rest
  end.

Definition group_chapters (image_entries : list ImageEntry)
    : list (string * list ImageEntry) :=
  foldl (λ chapters e, chapters_add (extract_chapter_label (fst e)) e chapters)
        [] image_entries.

(** [open(full_path, "rb").read()]. *)
Definition read_bytes (f : FS) (full_path : string) : result string :=
  match f !! full_path with
  | Some (File (Bytes b)) => Ok b
  | Some (File _) => Ok EmptyString
  | Some Dir => Raise ("IsADirectoryError: " +:+ full_path)
  | None => Raise ("FileNotFoundError: " +:+ full_path)
  end.

Definition nl : string := String (ascii_of_nat 10) EmptyString.
Definition dq : string := String dquote EmptyString.

(** The markup of one page, after [strip()]. *)
Definition page_markup (chap_label : string) (page_index : nat)
    (img_file_name : string) : string :=
  "<html xmlns=" +:+ dq +:+ "http://www.w3.org/1999/xhtml" +:+ dq +:+ ">" +:+ nl +:+
  "              <head>" +:+ nl +:+
  "                <title>" +:+ chap_label +:+ " - " +:+ pretty page_index +:+ "</title>" +:+ nl +:+
  "                <meta charset=" +:+ dq +:+ "utf-8" +:+ dq +:+ " />" +:+ nl +:+
  "                <style>" +:+ nl +:+
  "                  body { margin: 0; padding: 0; text-align: center; background: #000; }" +:+ nl +:+
  "                  img  { max-width: 100%; height: auto; }" +:+ nl +:+
  "                </style>" +:+ nl +:+
  "              </head>" +:+ nl +:+
  "              <body>" +:+ nl +:+
  "                <img src=" +:+ dq +:+ "../" +:+ img_file_name +:+ dq +:+
    " alt=" +:+ dq +:+ chap_label +:+ " page " +:+ pretty page_index +:+ dq +:+ " />" +:+ nl +:+
  "              </body>" +:+ nl +:+
  "            </html>".

Definition index_suffix (v : string) (chapter_index page_index : nat) : string :=
  "_v" +:+ v +:+ "_" +:+ pretty chapter_index +:+ "_" +:+ pretty page_index.

Definition img_id_of (v : string) (chapter_index page_index : nat) : string :=
  "img" +:+ index_suffix v chapter_index page_index.

Definition img_file_name_of (v : string) (chapter_index page_index : nat)
    (full_path : string) : string :=
  "images/v" +:+ v +:+ "/" +:+ img_id_of v chapter_index page_index
  +:+ splitext_ext full_path.

(** The page that shows one image. *)
Definition page_html_of (v : string) (chapter_index : nat) (chap_label : string)
    (page_index : nat) (full_path : string) : EpubHtml :=
  mkHtml ("page" +:+ index_suffix v chapter_index page_index)
         ("text/v" +:+ v +:+ "_" +:+ pretty chapter_index +:+ "_"
          +:+ pretty page_index +:+ ".xhtml")
         (chap_label +:+ " - " +:+ pretty page_index)
         "en"
         (page_markup chap_label page_index
            (img_file_name_of v chapter_index page_index full_path)).

(** One iteration of the inner loop: the image resource and the page
    that shows it.  Reading the image file is not guarded. *)
Definition make_page (f : FS) (v : string) (chapter_index : nat)
    (chap_label : string) (page_index : nat) (e : ImageEntry)
    : result (EpubItem * EpubHtml) :=
  let '(rel_path, full_path) := e in
  match read_bytes f full_path with
  | Raise err => Raise err
  | Ok data =>
      let img_item :=
        mkItem (img_id_of v chapter_index page_index)
               (img_file_name_of v chapter_index page_index full_path)
               (guess_mime full_path) data in
      Ok (img_item, page_html_of v chapter_index chap_label page_index full_path)
  end.

Definition toc_uid_of (v : string) (chapter_index : nat) : string :=
  "toc_v" +:+ v +:+ "_chap_" +:+ pretty chapter_index.

(** What the loops have built so far. *)
Record Building := mkBuilding {
  b_items : list BookItem;
  b_spine : list EpubHtml;
  b_toc : list EpubLink
}.

(** The inner loop [for page_index, ... in enumerate(pages, start=1)]. *)
Fixpoint add_pages (f : FS) (v : string) (chapter_index : nat)
    (chap_label : string) (page_index : nat) (pages : list ImageEntry)
    (first_page_item : option EpubHtml) (b : Building)
    : result (option EpubHtml * Building) :=
  match pages with
  | [] => Ok (first_page_item, b)
  | e :: rest =>
      match make_page f v chapter_index chap_label page_index e with
      | Raise err => Raise err
      | Ok (img_item, page_html) =>
          let b1 := mkBuilding (b_items b ++ [ItemImage img_item; ItemPage page_html])
                               (b_spine b ++ [page_html])
                               (b_toc b) in
          let first1 :=
            match first_page_item with
            | None => Some page_html
            | Some p => Some p
            end in
          add_pages f v chapter_index chap_label (S page_index) rest first1 b1
      end
  end.

(** The outer loop [for chap_label, pages in chapters.items()];
    [chapter_index] is the counter before its increment. *)
Fixpoint add_chapters (f : FS) (v : string) (chapter_index : nat)
    (chapters : list (string * list ImageEntry)) (b : Building)
    : result Building :=
  match chapters with
  | [] => Ok b
  | (chap_label, pages) :: rest =>
      let chapter_index1 := S chapter_index in
      match add_pages f v chapter_index1 chap_label 1 pages None b with
      | Raise err => Raise err
      | Ok (first_page_item, b1) =>
          let b2 :=
            match first_page_item with
            | Some p =>
                mkBuilding (b_items b1) (b_spine b1)
                  (b_toc b1 ++
                   [mkEpubLink (html_file_name p) chap_label
                      (toc_uid_of v chapter_index1)])
            | None => b1
            end in
          add_chapters f v chapter_index1 rest b2
      end
  end.

Definition epub_path_of (v : string) : string :=
  path_join EPUB_OUTPUT ("Chainsaw_Man_Digitally_Colored_v" +:+ v +:+ ".epub").

Definition build_epub_for_volume (v : string) (w : World) : result unit * World :=
  let image_entries := collect_images_for_volume (os_walk (fs w)) v in
  match image_entries with
  | [] => (Ok (), print (MsgNoImagesEpub v) w)
  | _ =>
      let w1 := print (MsgBuildingEpub v (length image_entries)) w in
      let chapters := group_chapters image_entries in
      match add_chapters (fs w1) v 0 chapters (mkBuilding [] [] []) with
      | Raise err => (Raise err, w1)
      | Ok b =>
          let book :=
            mkBook ("chainsaw-man-colored-v" +:+ v)
                   ("Chainsaw Man (Digitally Colored) v" +:+ v)
                   "en"
                   ["Tatsuki Fujimoto"]
                   [("DC", "description", "Chainsaw Man, Digitally Colored, Volume " +:+ v)]
                   (b_items b ++ [ItemNcx; ItemNav])
                   (b_toc b)
                   (b_spine b) in
          let epub_path := epub_path_of v in
          let w2 := set_fs w1 (<[epub_path := File (EpubDoc book)]> (fs w1)) in
          (Ok (), print (MsgSavedEpub epub_path) w2)
      end
  end.

(** The loop of [main] in [csm_epub.py]: an exception leaves it. *)
Fixpoint epub_loop (vols : list string) (w : World) : result unit * World :=
  match vols with
  | [] => (Ok (), w)
  | v :: rest =>
      match build_epub_for_volume v w with
      | (Raise err, w1) => (Raise err, w1)
      | (Ok _, w1) => epub_loop rest w1
      end
  end.

Definition epub_main (w : World) : result unit * World :=
  match epub_loop (fmt02 <$> range FIRST_VOL (LAST_VOL + 1)) w with
  | (Raise err, w1) => (Raise err, w1)
  | (Ok _, w1) => (Ok (), print MsgAllDone w1)
  end.

End Render.

(** * What the specification says, as predicates *)

(** A string between double quotes. *)
Definition quoted (s : string) : string :=
  String dquote s +:+ String dquote EmptyString.

(** ** Link extractor *)

(** A URL with the http or the https scheme. *)
Definition http_scheme (u : string) : Prop :=
  ∃ rest, u = "http://" +:+ rest ∨ u = "https://" +:+ rest.

(** Normalization of a protocol-relative URL. *)
Definition normalize_url (href : string) : string :=
  if Str.startswith href "//" then "https:" +:+ href else href.

(** The number a digit character stands for, and the number two digits
    read. *)
Definition digit_of (c : ascii) : nat := nat_of_ascii c - 48.

Definition two_digit_number (d1 d2 : ascii) : nat :=
  10 * digit_of d1 + digit_of d2.

(** [suf] starts with the volume marker followed by the digits [d1 d2]. *)
Definition marker_at (suf : string) (d1 d2 : ascii) : Prop :=
  ∃ rest, suf = VOL_MARKER +:+ String d1 (String d2 rest)
          ∧ Str.is_digit d1 = true ∧ Str.is_digit d2 = true.

(** The marker followed by [d1 d2] occurs somewhere in [s]. *)
Definition marker_occurs (s : string) (d1 d2 : ascii) : Prop :=
  ∃ pre suf, s = pre +:+ suf ∧ marker_at suf d1 d2.

(** [c] is one decimal digit at the head of [s], of ASCII or beyond, and
    [rest] what follows it. *)
Definition decimal_digit_at (nd : DigitTable) (s c rest : string) : Prop :=
  (∃ d, Str.is_digit d = true ∧ c = String d EmptyString
        ∧ s = String d rest)
  ∨ (∃ b tail k, (128 ≤ N_of_ascii b)%N ∧ nd b tail = Some k
        ∧ c = String b (Str.take k tail) ∧ s = String b tail
        ∧ rest = Str.drop k tail).

(** [suf] starts with the volume marker followed by two decimal digits of
    any script. *)
Definition marker_any_digits (nd : DigitTable) (suf : string) : Prop :=
  ∃ s c1 s1 c2 s2,
    suf = VOL_MARKER +:+ s
    ∧ decimal_digit_at nd s c1 s1 ∧ decimal_digit_at nd s1 c2 s2.

(** The leftmost place of [s] where the marker is followed by two decimal
    digits of any script has the ASCII digits [d1 d2]. *)
Definition marker_first (nd : DigitTable) (s : string) (d1 d2 : ascii) : Prop :=
  ∃ pre suf, s = pre +:+ suf ∧ marker_at suf d1 d2
    ∧ ∀ pre' suf', s = pre' +:+ suf' → marker_any_digits nd suf' →
        String.length pre ≤ String.length pre'.

Definition in_volume_range (n : nat) : Prop := FIRST_VOL ≤ n ≤ LAST_VOL.

(** The extractor keeps [href]: its record is in the output. *)
Definition kept (nd : DigitTable) (html href : string) : Prop :=
  ∃ r, link_of_href nd href = Some r ∧ r ∈ parse_image_links nd html.

(** The first claim, as the specification words it. *)
Definition extractor_keeps_any_marker (nd : DigitTable) (html href : string)
    : Prop :=
  href ∈ raw_hrefs html →
  (kept nd html href ↔
   http_scheme (normalize_url href)
   ∧ ∃ d1 d2, marker_occurs (unquote href) d1 d2
              ∧ in_volume_range (two_digit_number d1 d2)).

(** The href and the page of the scenario of the specification. *)
Definition sample_href : string :=
  "//cdn/x/Digital Colored Comics v05/Chainsaw Man (Digitally Colored)/Chapter 2 - Foo/03.jpg".

Definition sample_html : string :=
  "<a href=" +:+ quoted sample_href +:+ ">x</a>".

(** An href whose decoded form has the marker twice: first with a volume
    outside the range, then with one inside. *)
Definition href_two_markers : string :=
  "http://h/Digital Colored Comics v99/Digital Colored Comics v05/a.jpg".

Definition html_two_markers : string :=
  "<a href=" +:+ quoted href_two_markers +:+ ">a</a>".

(** A table with the Arabic-Indic digits U+0660 to U+0669 and no other
    digit beyond ASCII: the lead byte 0xD9 and one continuation byte, 0xA0
    to 0xA9. *)
Definition digits_arabic_indic : DigitTable :=
  λ b rest,
    if (N_of_ascii b =? 217)%N then
      match rest with
      | String c _ =>
          if ((160 <=? N_of_ascii c) && (N_of_ascii c <=? 169))%N
          then Some 1 else None
      | EmptyString => None
      end
    else None.

(** An href whose first marker is followed by the Arabic-Indic digits zero
    and five, percent-encoded, and whose second marker reads 05. *)
Definition href_arabic_indic : string :=
  "http://h/Digital Colored Comics v%D9%A0%D9%A5/Digital Colored Comics v05/a.jpg".

Definition html_arabic_indic : string :=
  "<a href=" +:+ quoted href_arabic_indic +:+ ">a</a>".

(** [suf] starts with the root marker. *)
Definition root_at (suf : string) : Prop := ∃ rest, suf = ROOT_MARKER +:+ rest.

(** [seg] is the last of the segments of [s] that slashes separate. *)
Definition last_segment (s seg : string) : Prop :=
  Str.all not_slash seg = true
  ∧ (s = seg ∨ ∃ pre, s = pre +:+ "/" +:+ seg).

(** [inner] is [decoded] from the first occurrence of the root marker on,
    or the bare file name when the marker does not occur. *)
Definition inner_path_spec (decoded inner : string) : Prop :=
  (∃ pre, decoded = pre +:+ inner ∧ root_at inner
          ∧ ∀ pre' suf', decoded = pre' +:+ suf' → root_at suf' →
              String.length pre ≤ String.length pre')
  ∨ ((∀ pre suf, decoded = pre +:+ suf → ¬ root_at suf)
     ∧ last_segment decoded inner).

(** The record of the scenario of the specification. *)
Definition sample_record : LinkRecord :=
  mkLink "05"
         "Chainsaw Man (Digitally Colored)/Chapter 2 - Foo/03.jpg"
         "https://cdn/x/Digital Colored Comics v05/Chainsaw Man (Digitally Colored)/Chapter 2 - Foo/03.jpg".

(** The ninth claim, as the specification words it. *)
Definition distinct_targets (nd : DigitTable) (html : string) : Prop :=
  ∀ r1 r2, r1 ∈ parse_image_links nd html → r2 ∈ parse_image_links nd html →
    r1 ≠ r2 → local_path_of r1 ≠ local_path_of r2.

(** A page with the same image on two hosts. *)
Definition html_two_hosts : string :=
  "<a href=" +:+ quoted "http://a/Digital Colored Comics v01/x.jpg" +:+ ">1</a>"
  +:+ "<a href=" +:+ quoted "http://b/Digital Colored Comics v01/x.jpg" +:+ ">2</a>".

(** A page with one image of volume 01 and one of volume 02. *)
Definition html_two_volumes : string :=
  "<a href=" +:+ quoted "http://h/Digital Colored Comics v01/a.jpg" +:+ ">1</a>"
  +:+ "<a href=" +:+ quoted "http://h/Digital Colored Comics v02/b.jpg" +:+ ">2</a>".

(** ** Volume collector *)

(** The chapter and the page number of a relative path, where extractable. *)
Definition chapter_number (rel_path : string) : option N :=
  chapter_match rel_path ≫= Str.int.

Definition page_number (rel_path : string) : option N :=
  page_match rel_path ≫= Str.int.

Definition both_numbers (e : ImageEntry) : Prop :=
  is_Some (chapter_number (fst e)) ∧ is_Some (page_number (fst e)).

(** The order of the pairs (chapter, page). *)
Definition chapter_page_le (a b : N * N) : Prop :=
  (fst a < fst b)%N ∨ (fst a = fst b ∧ (snd a <= snd b)%N).

(** Entries with both numbers are ascending by (chapter, page). *)
Definition numbered_ascending (out : list ImageEntry) : Prop :=
  ∀ i j a b ca pa cb pb,
    i < j → out !! i = Some a → out !! j = Some b →
    chapter_number (fst a) = Some ca → page_number (fst a) = Some pa →
    chapter_number (fst b) = Some cb → page_number (fst b) = Some pb →
    chapter_page_le (ca, pa) (cb, pb).

(** The second claim, as the specification words it. *)
Definition collector_order_as_worded (out : list ImageEntry) : Prop :=
  numbered_ascending out
  ∧ (∀ i j a b, out !! i = Some a → out !! j = Some b →
       both_numbers a → ¬ both_numbers b → i < j)
  ∧ (∀ i j a b, i < j → out !! i = Some a → out !! j = Some b →
       ¬ both_numbers a → ¬ both_numbers b → Str.le (fst a) (fst b) = true).

(** A volume with a cover in chapter 3 and a page in chapter 5. *)
Definition walk_cover : list WalkStep :=
  [ ("chainsaw_man_colored/Digital Colored Comics v01/Chapter 3", ["cover.jpg"]);
    ("chainsaw_man_colored/Digital Colored Comics v01/Chapter 5", ["01.jpg"]) ].

Definition entry_key (e : ImageEntry) : SortKey := _sort_key_for_relpath (fst e).

(** ** Download manager *)

(** Does the answer let the fetch succeed: a status that does not raise
    and a stream that does not break. *)
Definition response_ok (r : Response) : bool :=
  match r with
  | TransportError _ => false
  | Reply status _ broken =>
      match raise_for_status status, broken with
      | Ok _, None => true
      | _, _ => false
      end
  end.

(** A run is complete when every item was downloaded or skipped. *)
Definition item_done (r : result Outcome) : Prop :=
  match r with
  | Ok (Skipped _) | Ok (Downloaded _ _) => True
  | Ok (Failed _ _) | Raise _ => False
  end.

(** The file system grows: what exists stays, a directory stays one. *)
Definition fs_grows (f f' : FS) : Prop :=
  ∀ p, match f !! p with
       | None => True
       | Some Dir => f' !! p = Some Dir
       | Some (File _) => is_Some (f' !! p)
       end.

(** The only difference between [f] and [f'] is new directories. *)
Definition only_new_dirs (f f' : FS) : Prop :=
  ∀ p, f' !! p = f !! p ∨ (f !! p = None ∧ f' !! p = Some Dir).

(** The directories of the chain of [d] are all there. *)
Definition chain_made (f : FS) (d : string) : Prop :=
  d ≠ EmptyString
  ∧ Forall (λ q, f !! q = Some Dir) (dir_chain (S (Str.len d)) d).

(** The pause after a failed attempt. *)
Definition backoff (base : Q) (attempt : nat) : Q :=
  (base * inject_Z (Z.of_nat attempt))%Q.

(** The target of [item] is there, with its parent directories. *)
Definition target_ready (f : FS) (item : LinkRecord) : Prop :=
  path_exists f (local_path_of item) = true
  ∧ chain_made f (dirname (local_path_of item)).

(** The report of a second run: every item skipped. *)
Definition all_skipped (items : list LinkRecord) : list (result Outcome) :=
  (λ item, Ok (Skipped (local_path_of item))) <$> items.

(** A network that serves every request, and one that is down. *)
Definition net_up : Net := λ _ _, Reply 200 ["image"; ""; "bytes"] None.
Definition net_down : Net := λ _ _, TransportError "unreachable".

(** A network whose first two answers fail and whose third succeeds. *)
Definition net_third_time : Net :=
  λ n _, match n with
         | 0 => TransportError "timed out"
         | 1 => Reply 503 [] None
         | _ => Reply 200 ["image"] None
         end.

Definition world0 : World := mkWorld ∅ [] [] [].

Definition item_a : LinkRecord :=
  mkLink "01" "Chainsaw Man (Digitally Colored)/Chapter 1/01.jpg" "https://h/a.jpg".
Definition item_b : LinkRecord :=
  mkLink "01" "Chainsaw Man (Digitally Colored)/Chapter 1/02.jpg" "https://h/b.jpg".

(** A world where the target of [item_a] is there and its directories are
    not recorded yet. *)
Definition world_with_a : World :=
  mkWorld {[ local_path_of item_a := File (Bytes "old") ]} [] [] [].

(** ** Renderers *)

Definition result_ok {A : Type} (r : result A) : option A :=
  match r with Ok a => Some a | Raise _ => None end.

(** The images that open, in the order of the entries. *)
Definition opened_pages (image_decode : string → result Image)
    (image_convert : Image → string → result Image)
    (f : FS) (entries : list ImageEntry) : list Image :=
  omap (λ e, result_ok (open_rgb image_decode image_convert f (snd e))) entries.

Definition label_of (e : ImageEntry) : string := extract_chapter_label (fst e).

(** The distinct elements of a list in the order of their first
    occurrence. *)
Definition first_seen (l : list string) : list string :=
  foldl (λ acc x, if decide (x ∈ acc) then acc else acc ++ [x]) [] l.

(** The entries grouped by label: the labels in the order of their first
    occurrence, each with its entries in the order of the list. *)
Definition group_of (entries : list ImageEntry) (l : string)
    : string * list ImageEntry :=
  (l, filter (λ e, label_of e = l) entries).

Definition chapters_spec (entries : list ImageEntry)
    : list (string * list ImageEntry) :=
  group_of entries <$> first_seen (label_of <$> entries).

(** The order regrouped by chapter. *)
Definition by_chapter (entries : list ImageEntry) : list ImageEntry :=
  concat (snd <$> chapters_spec entries).

(** The pages of the chapter with the index [k], and the link to its
    first page. *)
Definition chapter_pages (v : string) (k : nat) (ch : string * list ImageEntry)
    : list EpubHtml :=
  imap (λ i e, page_html_of v k (fst ch) (S i) (snd e)) (snd ch).

Definition chapter_link (v : string) (k : nat) (ch : string * list ImageEntry)
    : list EpubLink :=
  match snd ch with
  | first :: _ =>
      [mkEpubLink (html_file_name (page_html_of v k (fst ch) 1 (snd first)))
                  (fst ch) (toc_uid_of v k)]
  | [] => []
  end.

(** The pages of the chapters, one chapter after the other, and the links
    to the first page of each chapter; the chapters count from 1. *)
Definition spine_of_chapters (v : string)
    (chapters : list (string * list ImageEntry)) : list EpubHtml :=
  concat (imap (λ k, chapter_pages v (S k)) chapters).

Definition toc_of_chapters (v : string)
    (chapters : list (string * list ImageEntry)) : list EpubLink :=
  concat (imap (λ k, chapter_link v (S k)) chapters).

(** The entries of each label are adjacent: between two entries with one
    label every entry has that label. *)
Definition labels_adjacent (entries : list ImageEntry) : Prop :=
  ∀ i j k a b c, i < j → j < k →
    entries !! i = Some a → entries !! j = Some b → entries !! k = Some c →
    label_of a = label_of c → label_of b = label_of c.

(** [html] is a page made for the entry [e]. *)
Definition shows (v : string) (html : EpubHtml) (e : ImageEntry) : Prop :=
  ∃ chapter_index page_index,
    html = page_html_of v chapter_index (label_of e) page_index (snd e).

(** The sixth claim, as the specification words it. *)
Definition epub_as_worded (v : string) (entries : list ImageEntry)
    (book : EpubBook) : Prop :=
  link_title <$> book_toc book = first_seen (label_of <$> entries)
  ∧ book_toc book = toc_of_chapters v (chapters_spec entries)
  ∧ length (book_spine book) = length entries
  ∧ Forall2 (shows v) (book_spine book) entries.

(** A volume whose chapter 1 is spread over two directories. *)
Definition walk_split : list WalkStep :=
  [ ("chainsaw_man_colored/Digital Colored Comics v01/Chapter 1 - A", ["01.jpg"; "02.jpg"]);
    ("chainsaw_man_colored/Digital Colored Comics v01/Chapter 1 - B", ["01.png"]) ].

Definition fs_split : FS :=
  list_to_map
    [ ("chainsaw_man_colored/Digital Colored Comics v01/Chapter 1 - A/01.jpg", File (Bytes "a1"));
      ("chainsaw_man_colored/Digital Colored Comics v01/Chapter 1 - A/02.jpg", File (Bytes "a2"));
      ("chainsaw_man_colored/Digital Colored Comics v01/Chapter 1 - B/01.png", File (Bytes "b1")) ].

Definition world_split : World := mkWorld fs_split [] [] [].

(** The book the renderer writes, if it wrote one. *)
Definition epub_written (v : string) (w : World) : option EpubBook :=
  match fs w !! epub_path_of v with
  | Some (File (EpubDoc book)) => Some book
  | _ => None
  end.

(** The image file of the entry can be read. *)
Definition readable (f : FS) (e : ImageEntry) : Prop :=
  ∃ data, read_bytes f (snd e) = Ok data.

(** ** Runs that meet an error *)

(** A decoder that reads every file, and a conversion that always works. *)
Definition decode_any : string → result Image := λ b, Ok (mkImage "RGB" b).
Definition convert_any : Image → string → result Image :=
  λ img m, Ok (mkImage m (img_data img)).

(** An output tree where the walk lists an image of volume 01 that cannot
    be opened (a dangling link, a file without read permission) and,
    besides, a good image in each of the volumes 01 and 02. *)
Definition walk_dangling : list WalkStep :=
  [ ("chainsaw_man_colored/Digital Colored Comics v01/Chapter 1", ["01.jpg"; "02.jpg"]);
    ("chainsaw_man_colored/Digital Colored Comics v02/Chapter 8", ["01.jpg"]) ].

Definition fs_dangling : FS :=
  list_to_map
    [ ("chainsaw_man_colored/Digital Colored Comics v01/Chapter 1/02.jpg", File (Bytes "p2"));
      ("chainsaw_man_colored/Digital Colored Comics v02/Chapter 8/01.jpg", File (Bytes "q1")) ].

Definition world_dangling : World := mkWorld fs_dangling [] [] [].

(** A page with an image and a second image whose path runs through the
    first one, and a network that serves the page and then every image. *)
Definition html_nested : string :=
  "<a href=" +:+ quoted "http://h/Digital Colored Comics v01/Chainsaw Man (Digitally Colored)/x.jpg" +:+ ">1</a>"
  +:+ "<a href=" +:+ quoted "http://h/Digital Colored Comics v01/Chainsaw Man (Digitally Colored)/x.jpg/y.jpg" +:+ ">2</a>".

Definition net_nested : Net :=
  λ n _, match n with
         | 0 => Reply 200 [html_nested] None
         | _ => Reply 200 ["image"] None
         end.

(** * Further properties of the program: what they speak of *)

(** The records of the page are well formed. *)
Definition record_well_formed (html : string) (r : LinkRecord) : Prop :=
  ∃ href,
    href ∈ raw_hrefs html
    ∧ url r = normalize_url href
    ∧ http_scheme (url r)
    ∧ inner_path r = inner_path_of (unquote href)
    ∧ (∃ d1 d2, vol r = String d1 (String d2 EmptyString)
         ∧ Str.is_digit d1 = true ∧ Str.is_digit d2 = true
         ∧ in_volume_range (two_digit_number d1 d2))
    ∧ vol r ∈ TARGET_VOLUMES
    ∧ Str.startswith (inner_path r) "/" = false
    ∧ local_path_of r = OUTPUT_ROOT +:+ "/" +:+ inner_path r.

(** No two of the entries share their relative path. *)
Definition rel_path_determines (l : list ImageEntry) : Prop :=
  ∀ a b, a ∈ l → b ∈ l → fst a = fst b → a = b.

(** The same tree as [walk_cover], listed in the other order. *)
Definition walk_cover_reversed : list WalkStep :=
  [ ("chainsaw_man_colored/Digital Colored Comics v01/Chapter 5", ["01.jpg"]);
    ("chainsaw_man_colored/Digital Colored Comics v01/Chapter 3", ["cover.jpg"]) ].

(** The chapter number the sort uses for an entry. *)
Definition chapter_key (e : ImageEntry) : N :=
  int_or_sentinel (chapter_match (fst e)).

(** Entries with one chapter number have one label. *)
Definition one_label_per_chapter (entries : list ImageEntry) : Prop :=
  ∀ a b, a ∈ entries → b ∈ entries →
    chapter_key a = chapter_key b → label_of a = label_of b.

(** A volume with two chapters, one directory each. *)
Definition walk_plain : list WalkStep :=
  [ ("chainsaw_man_colored/Digital Colored Comics v01/Chapter 2 - Bat", ["01.jpg"]);
    ("chainsaw_man_colored/Digital Colored Comics v01/Chapter 1 - Dog", ["02.jpg"; "01.png"]) ].

Definition fs_plain : FS :=
  list_to_map
    [ ("chainsaw_man_colored/Digital Colored Comics v01/Chapter 1 - Dog/01.png", File (Bytes "d1"));
      ("chainsaw_man_colored/Digital Colored Comics v01/Chapter 1 - Dog/02.jpg", File (Bytes "d2"));
      ("chainsaw_man_colored/Digital Colored Comics v01/Chapter 2 - Bat/01.jpg", File (Bytes "b1")) ].

Definition world_plain : World := mkWorld fs_plain [] [] [].



Definition starts_with_digit (s : string) : bool :=
  match s with
  | EmptyString => false
  | String c _ => Str.is_digit c
  end.





(** The two items the EPUB renderer adds for one image: the resource and
    the page that shows it. *)
Definition pair_items (ip : EpubItem * EpubHtml) : list BookItem :=
  [ItemImage (fst ip); ItemPage (snd ip)].

(** The resource and the page made for the entry [e]: the resource holds
    the bytes of the file of the entry, under a name that ends with the
    extension of that file; the page carries the indices of the resource
    and the label of the entry, and its markup names the file of the
    resource. *)
Definition made_for (f : FS) (v : string) (e : ImageEntry)
    (ip : EpubItem * EpubHtml) : Prop :=
  ∃ chapter_index page_index data,
    read_bytes f (snd e) = Ok data
    ∧ fst ip = mkItem (img_id_of v chapter_index page_index)
                      (img_file_name_of v chapter_index page_index (snd e))
                      (guess_mime (snd e)) data
    ∧ snd ip = page_html_of v chapter_index (label_of e) page_index (snd e).

(** The file names of the image resources among the items of a book. *)
Definition image_file_names (items : list BookItem) : list string :=
  omap (λ it, match it with
              | ItemImage i => Some (item_file_name i)
              | _ => None
              end) items.
(** * Properties *)

(** ** Strings *)

Lemma string_app_cons a (s t : string) : String a s +:+ t = String a (s +:+ t).
Proof. reflexivity. Qed.

Lemma string_app_nil_l (t : string) : "" +:+ t = t.
Proof. reflexivity. Qed.

Ltac str_simpl :=
  simpl; rewrite ?string_app_cons, ?string_app_nil_l in *; simpl.

Lemma strip_prefix_Some p s r :
  Str.strip_prefix p s = Some r ↔ s = p +:+ r.
Proof.
  revert s. induction p as [|a p IH]; intros s; simpl.
  - split; [intros [= ->]|intros ->]; done.
  - destruct s as [|b s]; [split; discriminate|].
    case_decide as Hab.
    + subst b. rewrite IH. split; [intros ->|intros [= ->]]; done.
    + split; [discriminate|]. intros [= ? _]. done.
Qed.

Lemma strip_prefix_None p s :
  Str.strip_prefix p s = None ↔ ∀ r, s ≠ p +:+ r.
Proof.
  split.
  - intros H r Hr. apply strip_prefix_Some in Hr. congruence.
  - intros H. destruct (Str.strip_prefix p s) as [r|] eqn:E; [|done].
    apply strip_prefix_Some in E. by destruct (H r).
Qed.

Lemma startswith_true s p :
  Str.startswith s p = true ↔ ∃ r, s = p +:+ r.
Proof.
  unfold Str.startswith.
  destruct (Str.strip_prefix p s) as [r|] eqn:E.
  - apply strip_prefix_Some in E. split; eauto.
  - split; [discriminate|]. intros [r Hr].
    apply strip_prefix_Some in Hr. congruence.
Qed.

Lemma string_app_assoc (a b c : string) : (a +:+ b) +:+ c = a +:+ b +:+ c.
Proof. induction a; str_simpl; congruence. Qed.

Lemma string_app_nil_r (a : string) : a +:+ "" = a.
Proof. induction a; str_simpl; congruence. Qed.

Lemma string_app_length (a b : string) :
  String.length (a +:+ b) = String.length a + String.length b.
Proof. induction a; str_simpl; congruence. Qed.

Lemma string_app_inv_head (a b c : string) : a +:+ b = a +:+ c → b = c.
Proof. induction a; str_simpl; [done|]. intros [= H]. auto. Qed.

(** ** Leftmost search *)

Lemma re_search_unfold {A} (pat : string → option A) s :
  re_search pat s =
  match pat s with
  | Some x => Some x
  | None => match s with
            | EmptyString => None
            | String _ s' => re_search pat s'
            end
  end.
Proof. by destruct s. Qed.

Lemma re_search_Some {A} (pat : string → option A) s x :
  re_search pat s = Some x ↔
  ∃ pre suf, s = pre +:+ suf ∧ pat suf = Some x
    ∧ ∀ pre' suf', s = pre' +:+ suf' →
        String.length pre' < String.length pre → pat suf' = None.
Proof.
  split.
  - induction s as [|c s IH]; rewrite re_search_unfold.
    + destruct (pat "") eqn:E; [|done]. intros [= ->].
      exists "", "". repeat split; [done|]. simpl. lia.
    + destruct (pat (String c s)) eqn:E.
      * intros [= ->]. exists "", (String c s). repeat split; [done|].
        simpl. lia.
      * intros H. destruct (IH H) as (pre & suf & -> & Hp & Hfirst).
        exists (String c pre), suf. repeat split; [done|].
        intros [|c' pre'] suf' Heq Hlen; str_simpl.
        -- by subst suf'.
        -- injection Heq as -> Heq. apply (Hfirst pre'); [done|simpl in Hlen; lia].
  - intros (pre & suf & -> & Hp & Hfirst).
    induction pre as [|c pre IH].
    + rewrite string_app_nil_l in *. rewrite re_search_unfold, Hp. done.
    + rewrite string_app_cons in *. rewrite re_search_unfold.
      rewrite (Hfirst "" (String c (pre +:+ suf))); [|done|simpl; lia].
      apply IH. intros pre' suf' Heq Hlen.
      apply (Hfirst (String c pre')); [by rewrite string_app_cons, Heq|simpl; lia].
Qed.

Lemma re_search_None {A} (pat : string → option A) s :
  re_search pat s = None ↔ ∀ pre suf, s = pre +:+ suf → pat suf = None.
Proof.
  split.
  - induction s as [|c s IH]; rewrite re_search_unfold.
    + destruct (pat "") eqn:E; [done|]. intros _ [|??] suf; str_simpl; [|done].
      by intros <-.
    + destruct (pat (String c s)) eqn:E; [done|].
      intros H [|c' pre] suf; str_simpl.
      * by intros <-.
      * intros [= -> ->]. by apply (IH H pre).
  - intros H. destruct (re_search pat s) eqn:E; [|done].
    apply re_search_Some in E as (pre & suf & -> & Hp & _).
    rewrite (H pre suf) in Hp; done.
Qed.

(** ** The hrefs of the page *)

Lemma rev_onto_app s acc : Str.rev_onto s acc = Str.rev s +:+ acc.
Proof.
  unfold Str.rev. revert acc. induction s as [|c s IH]; intros acc; simpl; [done|].
  rewrite (IH (String c acc)), (IH (String c "")).
  by rewrite string_app_assoc.
Qed.

Lemma rev_cons c s : Str.rev (String c s) = Str.rev s +:+ String c "".
Proof. unfold Str.rev at 1. simpl. apply rev_onto_app. Qed.

Lemma rev_app a b : Str.rev (a +:+ b) = Str.rev b +:+ Str.rev a.
Proof.
  induction a as [|c a IH]; str_simpl.
  - by rewrite string_app_nil_r.
  - by rewrite !rev_cons, IH, string_app_assoc.
Qed.

Lemma rev_involutive s : Str.rev (Str.rev s) = s.
Proof.
  induction s as [|c s IH]; [done|].
  by rewrite rev_cons, rev_app, IH.
Qed.

Lemma endswith_true s p : Str.endswith s p = true ↔ ∃ r, s = r +:+ p.
Proof.
  unfold Str.endswith. rewrite startswith_true. split.
  - intros [r Hr]. exists (Str.rev r).
    rewrite <- (rev_involutive s), Hr, rev_app. by rewrite rev_involutive.
  - intros [r ->]. exists (Str.rev r). apply rev_app.
Qed.

Lemma lower_app a b : Str.lower (a +:+ b) = Str.lower a +:+ Str.lower b.
Proof. induction a as [|c a IH]; str_simpl; [done|]. by rewrite IH. Qed.

Lemma lower_length s : String.length (Str.lower s) = String.length s.
Proof. induction s; simpl; congruence. Qed.

(** A string whose lower-cased form ends with [p] ends with a string that
    lower-cases to [p]. *)
Lemma lower_split s r p :
  Str.lower s = r +:+ p →
  ∃ s1 s2, s = s1 +:+ s2 ∧ Str.lower s1 = r ∧ Str.lower s2 = p.
Proof.
  revert s. induction r as [|c r IH]; intros s H.
  - exists "", s. by rewrite string_app_nil_l in *.
  - destruct s as [|d s]; [done|]. rewrite string_app_cons in H. simpl in H.
    injection H as Hc Hs. destruct (IH s Hs) as (s1 & s2 & -> & H1 & H2).
    exists (String d s1), s2. simpl. by rewrite Hc, H1.
Qed.

(** What the group of the href pattern is: a stem that is not empty, a dot
    and an extension that reads jpg, jpeg or png in any case. *)
Lemma image_suffix_true v :
  image_suffix v = true ↔
  ∃ stem ext, v = stem +:+ "." +:+ ext ∧ stem ≠ ""
    ∧ (Str.lower ext = "jpg" ∨ Str.lower ext = "jpeg" ∨ Str.lower ext = "png").
Proof.
  assert (∀ p, (Str.endswith (Str.lower v) ("." +:+ p) && (S (String.length p) <? Str.len v) = true)
               ↔ ∃ stem ext, v = stem +:+ "." +:+ ext ∧ stem ≠ "" ∧ Str.lower ext = p) as Hone.
  { intros p. rewrite andb_true_iff, endswith_true, Nat.ltb_lt. unfold Str.len. split.
    - intros [[r Hr] Hlen].
      apply lower_split in Hr as (s1 & s2 & -> & H1 & H2).
      destruct s2 as [|d ext]; [done|]. rewrite string_app_cons in H2. simpl in H2.
      injection H2 as Hd Hext. rewrite string_app_nil_l in Hext.
      assert (d = "."%char) as ->.
      { revert Hd. unfold Str.lower_char.
        destruct d as [[] [] [] [] [] [] [] []]; vm_compute; congruence. }
      exists s1, ext. split; [done|]. split; [|done].
      intros ->. rewrite string_app_nil_l in Hlen. simpl in Hlen.
      rewrite <- Hext, lower_length in Hlen. lia.
    - intros (stem & ext & -> & Hne & Hext). split.
      + exists (Str.lower stem). rewrite lower_app, lower_app. by rewrite Hext.
      + rewrite !string_app_length. simpl. rewrite <- Hext, lower_length.
        destruct stem; [done|]. simpl. lia. }
  unfold image_suffix. rewrite !orb_true_iff.
  rewrite (Hone "jpg"), (Hone "jpeg"), (Hone "png"). split.
  - intros [[(stem & ext & ? & ? & ?)|(stem & ext & ? & ? & ?)]
           |(stem & ext & ? & ? & ?)]; exists stem, ext; auto.
  - intros (stem & ext & ? & ? & [?|[?|?]]);
      [left; left|left; right|right]; exists stem, ext; auto.
Qed.

Lemma span_spec f s a b :
  Str.span f s = (a, b) →
  s = a +:+ b ∧ Str.all f a = true
  ∧ match b with EmptyString => True | String c _ => f c = false end.
Proof.
  revert a b. induction s as [|c s IH]; intros a b; simpl.
  - by intros [= <- <-].
  - destruct (f c) eqn:Ec.
    + destruct (Str.span f s) as [a' b'] eqn:Es. intros [= <- <-].
      destruct (IH a' b' eq_refl) as (-> & Ha & Hb).
      split; [done|]. simpl. by rewrite Ec, Ha.
    + intros [= <- <-]. by rewrite Ec.
Qed.

Lemma strip_prefix_ci_Some p s r :
  Str.strip_prefix_ci p s = Some r →
  ∃ h, s = h +:+ r ∧ Str.lower h = Str.lower p.
Proof.
  revert s. induction p as [|a p IH]; intros s; simpl.
  - intros [= ->]. by exists "".
  - destruct s as [|b s]; [done|]. case_decide as Hab; [|done].
    intros (h & -> & Hh)%IH. exists (String b h). simpl. by rewrite Hab, Hh.
Qed.

Lemma href_pattern_Some s v n :
  href_pattern s = Some (v, n) →
  ∃ h post, s = h +:+ v +:+ String dquote post
    ∧ Str.lower h = "href=" +:+ String dquote ""
    ∧ Str.all not_quote v = true
    ∧ image_suffix v = true
    ∧ n = String.length h + String.length v + 1.
Proof.
  unfold href_pattern.
  destruct (Str.strip_prefix_ci _ s) as [rest|] eqn:Ep; [|done].
  apply strip_prefix_ci_Some in Ep as (h & -> & Hh).
  destruct (Str.span not_quote rest) as [v' after] eqn:Es.
  apply span_spec in Es as (-> & Hall & Hq).
  destruct after as [|c post]; [done|].
  destruct (image_suffix v') eqn:Ei; [|done]. intros [= <- <-].
  assert (c = dquote) as ->
    by (unfold not_quote in Hq; by case_decide).
  exists h, post. split_and!; try done.
  assert (String.length h = 6) as ->; [|done].
  by rewrite <- lower_length, Hh.
Qed.

Lemma re_findall_from_elem pat g s : ∀ skip,
  g ∈ re_findall_from pat skip s →
  ∃ pre suf n, s = pre +:+ suf ∧ pat suf = Some (g, n).
Proof.
  induction s as [|c s IH]; intros skip.
  - destruct skip; simpl; [|by intros ?%not_elem_of_nil].
    destruct (pat "") as [[g' n]|] eqn:Ep; [|by intros ?%not_elem_of_nil].
    intros [->|?%not_elem_of_nil]%elem_of_cons; [|done]. by exists "", "", n.
  - assert (∀ k, g ∈ re_findall_from pat k s →
              ∃ pre suf n, String c s = pre +:+ suf ∧ pat suf = Some (g, n)) as Hrest.
    { intros k (pre & suf & n & -> & Hp)%IH. by exists (String c pre), suf, n. }
    destruct skip; simpl; [|by apply Hrest].
    destruct (pat (String c s)) as [[g' n]|] eqn:Ep; [|by apply Hrest].
    intros [->|Hin]%elem_of_cons; [|by eapply Hrest].
    by exists "", (String c s), n.
Qed.

(** Every href the extractor looks at stands in the page after the word
    href, an equals sign and a double quote, runs up to the next double
    quote, and ends in .jpg, .jpeg or .png in any case. *)
Lemma raw_hrefs_sound html href :
  href ∈ raw_hrefs html →
  ∃ pre h post,
    html = pre +:+ h +:+ href +:+ String dquote post
    ∧ Str.lower h = "href=" +:+ String dquote ""
    ∧ Str.all not_quote href = true
    ∧ image_suffix href = true.
Proof.
  intros (pre & suf & n & -> & Hp)%re_findall_from_elem.
  apply href_pattern_Some in Hp as (h & post & -> & Hh & Hall & Hi & _).
  by exists pre, h, post.
Qed.

(** ** Link extractor *)

Lemma digit_char_of d :
  Str.is_digit d = true → digit_of d < 10 ∧ d = digit_char (digit_of d).
Proof.
  destruct d as [[] [] [] [] [] [] [] []]; vm_compute; intros H;
    try discriminate; split; (lia || reflexivity).
Qed.

Lemma digit_char_is_digit n :
  n < 10 → Str.is_digit (digit_char n) = true ∧ digit_of (digit_char n) = n.
Proof.
  intros H. do 10 (destruct n as [|n]; [by vm_compute|]). lia.
Qed.

Lemma target_volumes_range d1 d2 :
  Str.is_digit d1 = true → Str.is_digit d2 = true →
  (String d1 (String d2 "") ∈ TARGET_VOLUMES
   ↔ in_volume_range (two_digit_number d1 d2)).
Proof.
  intros [H1 E1]%digit_char_of [H2 E2]%digit_char_of.
  unfold two_digit_number. rewrite E1, E2.
  generalize dependent (digit_of d1). generalize dependent (digit_of d2).
  intros n2 H2 _ n1 H1 _.
  destruct (digit_char_is_digit n1 H1) as [_ ->].
  destruct (digit_char_is_digit n2 H2) as [_ ->].
  rewrite <- (bool_decide_spec (_ ∈ _)).
  rewrite <- (bool_decide_spec (in_volume_range _)).
  do 10 (destruct n1 as [|n1];
         [do 10 (destruct n2 as [|n2]; [by vm_compute|]); lia|]).
  lia.
Qed.

Lemma target_volumes_digits v :
  v ∈ TARGET_VOLUMES →
  ∃ d1 d2, v = String d1 (String d2 "")
           ∧ Str.is_digit d1 = true ∧ Str.is_digit d2 = true.
Proof.
  assert (TARGET_VOLUMES
          = list_to_set ["01"; "02"; "03"; "04"; "05"; "06"; "07"; "08";
                         "09"; "10"; "11"]) as -> by done.
  rewrite elem_of_list_to_set. intros Hin.
  repeat (apply elem_of_cons in Hin as [->|Hin]; [by eexists _, _|]).
  by apply elem_of_nil in Hin.
Qed.

Lemma is_digit_ascii d : Str.is_digit d = true → (N_of_ascii d <? 128)%N = true.
Proof. destruct d as [[] [] [] [] [] [] [] []]; by vm_compute. Qed.

(** One digit of the pattern is one decimal digit of the table. *)
Lemma re_digit_spec nd s c rest :
  re_digit nd s = Some (c, rest) ↔ decimal_digit_at nd s c rest.
Proof.
  unfold re_digit, decimal_digit_at. destruct s as [|b tail].
  { split; [done|]. by intros [(d & _ & _ & ?)|(b & tail & k & _ & _ & _ & ? & _)]. }
  destruct (N_of_ascii b <? 128)%N eqn:Eb.
  - apply N.ltb_lt in Eb. destruct (Str.is_digit b) eqn:Ed.
    + split.
      * intros [= <- <-]. left. by exists b.
      * intros [(d & _ & -> & [= -> ->])|(b' & tail' & k & Hb & _ & _ & [= -> ->] & _)];
          [done|lia].
    + split; [done|].
      intros [(d & Hd & _ & [= -> ->])|(b' & tail' & k & Hb & _ & _ & [= -> ->] & _)];
        [congruence|lia].
  - apply N.ltb_ge in Eb. destruct (nd b tail) as [k|] eqn:Ek.
    + split.
      * intros [= <- <-]. right. by exists b, tail, k.
      * intros [(d & Hd & _ & [= -> ->])|(b' & tail' & k' & _ & Hk & -> & [= -> ->] & ->)].
        -- apply is_digit_ascii, N.ltb_lt in Hd. lia.
        -- rewrite Ek in Hk. by injection Hk as ->.
    + split; [done|].
      intros [(d & Hd & _ & [= -> ->])|(b' & tail' & k' & _ & Hk & _ & [= -> ->] & _)].
      * apply is_digit_ascii, N.ltb_lt in Hd. lia.
      * congruence.
Qed.

Lemma vol_pattern_Some nd suf v :
  vol_pattern nd suf = Some v ↔
  ∃ s c1 s1 c2 s2,
    suf = VOL_MARKER +:+ s
    ∧ decimal_digit_at nd s c1 s1 ∧ decimal_digit_at nd s1 c2 s2
    ∧ v = c1 +:+ c2.
Proof.
  unfold vol_pattern.
  destruct (Str.strip_prefix VOL_MARKER suf) as [r|] eqn:E.
  2:{ split; [done|]. intros (s & c1 & s1 & c2 & s2 & H & _).
      apply strip_prefix_Some in H. congruence. }
  apply strip_prefix_Some in E. subst suf.
  destruct (re_digit nd r) as [[c1 r1]|] eqn:E1.
  2:{ split; [done|]. intros (s & c1 & s1 & c2 & s2 & H & H1 & _).
      apply string_app_inv_head in H. subst s.
      apply re_digit_spec in H1. congruence. }
  destruct (re_digit nd r1) as [[c2 r2]|] eqn:E2.
  - split.
    + intros [= <-]. exists r, c1, r1, c2, r2.
      split_and!; [done|by apply re_digit_spec|by apply re_digit_spec|done].
    + intros (s & e1 & s1 & e2 & s2 & H & H1 & H2 & ->).
      apply string_app_inv_head in H. subst s.
      apply re_digit_spec in H1. rewrite E1 in H1. injection H1 as <- <-.
      apply re_digit_spec in H2. rewrite E2 in H2. by injection H2 as <- <-.
  - split; [done|]. intros (s & e1 & s1 & e2 & s2 & H & H1 & H2 & _).
    apply string_app_inv_head in H. subst s.
    apply re_digit_spec in H1. rewrite E1 in H1. injection H1 as <- <-.
    apply re_digit_spec in H2. congruence.
Qed.

Lemma vol_pattern_any nd suf :
  is_Some (vol_pattern nd suf) ↔ marker_any_digits nd suf.
Proof.
  unfold marker_any_digits. split.
  - intros [v (s & c1 & s1 & c2 & s2 & ? & ? & ? & _)%vol_pattern_Some].
    by exists s, c1, s1, c2, s2.
  - intros (s & c1 & s1 & c2 & s2 & ? & ? & ?). exists (c1 +:+ c2).
    apply vol_pattern_Some. by exists s, c1, s1, c2, s2.
Qed.

(** The group is two ASCII digits exactly when the two digits after the
    marker are these. *)
Lemma vol_pattern_ascii nd suf d1 d2 :
  Str.is_digit d1 = true → Str.is_digit d2 = true →
  (vol_pattern nd suf = Some (String d1 (String d2 "")) ↔ marker_at suf d1 d2).
Proof.
  intros D1 D2. rewrite vol_pattern_Some. unfold marker_at. split.
  - intros (s & c1 & s1 & c2 & s2 & -> & H1 & H2 & Hv).
    destruct H1 as [(e1 & _ & -> & ->)|(b & tail & k & Hb & _ & -> & _)].
    2:{ rewrite string_app_cons in Hv. injection Hv as <- _.
        apply is_digit_ascii, N.ltb_lt in D1. lia. }
    rewrite string_app_cons, string_app_nil_l in Hv. injection Hv as <- Hv.
    destruct H2 as [(e2 & _ & -> & ->)|(b & tail & k & Hb & _ & -> & _)].
    2:{ injection Hv as <- _. apply is_digit_ascii, N.ltb_lt in D2. lia. }
    injection Hv as <-. by exists s2.
  - intros (rest & -> & _ & _).
    exists (String d1 (String d2 rest)), (String d1 ""), (String d2 rest),
           (String d2 ""), rest.
    split_and!; [done|left; by exists d1|left; by exists d2|done].
Qed.

Lemma vol_search_first nd decoded d1 d2 :
  Str.is_digit d1 = true → Str.is_digit d2 = true →
  (re_search (vol_pattern nd) decoded = Some (String d1 (String d2 ""))
   ↔ marker_first nd decoded d1 d2).
Proof.
  intros D1 D2. rewrite re_search_Some. unfold marker_first. split.
  - intros (pre & suf & -> & Hp & Hfirst). exists pre, suf.
    apply (vol_pattern_ascii nd suf d1 d2 D1 D2) in Hp.
    repeat split; [done|]. intros pre' suf' Heq [v Hv]%vol_pattern_any.
    destruct (decide (String.length pre ≤ String.length pre')); [done|].
    assert (vol_pattern nd suf' = None) as Hn by (apply (Hfirst pre'); [done|lia]).
    congruence.
  - intros (pre & suf & -> & Hm & Hfirst). exists pre, suf.
    repeat split; [by apply vol_pattern_ascii|].
    intros pre' suf' Heq Hlen.
    destruct (vol_pattern nd suf') as [v|] eqn:E; [|done].
    assert (marker_any_digits nd suf') as Hm' by (apply vol_pattern_any; eauto).
    specialize (Hfirst pre' suf' Heq Hm'). lia.
Qed.

Lemma marker_first_digits nd decoded d1 d2 :
  marker_first nd decoded d1 d2 →
  Str.is_digit d1 = true ∧ Str.is_digit d2 = true.
Proof. by intros (pre & suf & _ & (rest & _ & ? & ?) & _). Qed.

Lemma full_url_of_Some href :
  is_Some (full_url_of href) ↔ http_scheme (normalize_url href).
Proof.
  unfold full_url_of, normalize_url, http_scheme.
  destruct (Str.startswith href "//") eqn:E2.
  - split; [|by eauto]. intros _. apply startswith_true in E2 as [r ->].
    exists r. by right.
  - destruct (Str.startswith href "http://") eqn:Ea; simpl.
    { split; [|by eauto]. intros _. apply startswith_true in Ea as [r ->].
      exists r. by left. }
    destruct (Str.startswith href "https://") eqn:Eb.
    { split; [|by eauto]. intros _. apply startswith_true in Eb as [r ->].
      exists r. by right. }
    split; [by intros [? [=]]|].
    intros [r [->| ->]].
    + assert (Str.startswith ("http://" +:+ r) "http://" = true)
        by (apply startswith_true; eauto). congruence.
    + assert (Str.startswith ("https://" +:+ r) "https://" = true)
        by (apply startswith_true; eauto). congruence.
Qed.

Lemma full_url_of_normalize href u :
  full_url_of href = Some u → u = normalize_url href.
Proof.
  unfold full_url_of, normalize_url.
  destruct (Str.startswith href "//"); [congruence|].
  destruct (_ || _); congruence.
Qed.

Lemma kept_iff nd html href :
  href ∈ raw_hrefs html → (kept nd html href ↔ is_Some (link_of_href nd href)).
Proof.
  intros Hin. unfold kept, parse_image_links. split.
  - intros (r & Hr & _). eauto.
  - intros [r Hr]. exists r. split; [done|].
    apply list_elem_of_omap. eauto.
Qed.

Lemma link_of_href_Some nd href :
  is_Some (link_of_href nd href) ↔
  http_scheme (normalize_url href)
  ∧ ∃ d1 d2, marker_first nd (unquote href) d1 d2
             ∧ in_volume_range (two_digit_number d1 d2).
Proof.
  rewrite <- full_url_of_Some. unfold link_of_href.
  destruct (full_url_of href) as [u|]; [|split; [by intros [? [=]]|by intros [[? [=]] _]]].
  destruct (re_search (vol_pattern nd) (unquote href)) as [v|] eqn:E.
  - case_decide as Hv.
    + split; [|by eauto]. intros _. split; [by eauto|].
      destruct (target_volumes_digits v Hv) as (d1 & d2 & -> & D1 & D2).
      exists d1, d2. split; [by apply vol_search_first|].
      by apply target_volumes_range.
    + split; [by intros [? [=]]|]. intros (_ & e1 & e2 & Hm & Hr).
      destruct (marker_first_digits _ _ _ _ Hm) as [D1 D2].
      apply vol_search_first in Hm; [|done|done]. rewrite E in Hm.
      injection Hm as ->. by apply target_volumes_range in Hr.
  - split; [by intros [? [=]]|]. intros (_ & e1 & e2 & Hm & _).
    destruct (marker_first_digits _ _ _ _ Hm) as [D1 D2].
    apply vol_search_first in Hm; [|done|done]. congruence.
Qed.

(** C1, amended: an href found in the page is kept exactly when it has the
    http or https scheme after normalization and the leftmost place of its
    percent-decoded form where the volume marker is followed by two decimal
    digits, of ASCII or of any other script, has two ASCII digits whose
    number lies in the inclusive range FIRST_VOL..LAST_VOL.  This holds
    whatever the decimal digits beyond ASCII are. *)
Theorem extractor_keeps_first_marker nd html href :
  href ∈ raw_hrefs html →
  (kept nd html href ↔
   http_scheme (normalize_url href)
   ∧ ∃ d1 d2, marker_first nd (unquote href) d1 d2
              ∧ in_volume_range (two_digit_number d1 d2)).
Proof.
  intros Hin. rewrite (kept_iff _ _ _ Hin). apply link_of_href_Some.
Qed.

Lemma raw_hrefs_two_markers : raw_hrefs html_two_markers = [href_two_markers].
Proof. by vm_compute. Qed.

Lemma raw_hrefs_sample : raw_hrefs sample_html = [sample_href].
Proof. by vm_compute. Qed.

Lemma extractor_keeps_first_marker_witness :
  sample_href ∈ raw_hrefs sample_html
  ∧ (kept digits_arabic_indic sample_html sample_href ↔
     http_scheme (normalize_url sample_href)
     ∧ ∃ d1 d2, marker_first digits_arabic_indic (unquote sample_href) d1 d2
                ∧ in_volume_range (two_digit_number d1 d2)).
Proof.
  assert (sample_href ∈ raw_hrefs sample_html) as Hin
    by (rewrite raw_hrefs_sample; apply list_elem_of_here).
  split; [exact Hin|].
  exact (extractor_keeps_first_marker digits_arabic_indic sample_html sample_href Hin).
Defined.

(** An href whose first marker is followed by two Arabic-Indic digits is
    found in the page and not kept, although its second marker reads 05:
    the search stops at the first marker, and the two digits it finds
    there are no volume of the configuration. *)
Example arabic_indic_marker_not_kept :
  raw_hrefs html_arabic_indic = [href_arabic_indic]
  ∧ re_search (vol_pattern digits_arabic_indic) (unquote href_arabic_indic)
    = Some (String (ascii_of_nat 217) (String (ascii_of_nat 160)
             (String (ascii_of_nat 217) (String (ascii_of_nat 165) ""))))
  ∧ parse_image_links digits_arabic_indic html_arabic_indic = [].
Proof. by vm_compute. Qed.

(** C1 as worded fails: the href below has the marker followed by 05, a
    volume of the range, and the http scheme, and it is not kept, since the
    search stops at the first marker, which reads 99; this is so whatever
    the decimal digits beyond ASCII are. *)
Lemma extractor_keeps_any_marker_fails :
  ¬ ∃ nd, extractor_keeps_any_marker nd html_two_markers href_two_markers.
Proof.
  unfold extractor_keeps_any_marker. intros [nd H].
  assert (href_two_markers ∈ raw_hrefs html_two_markers) as Hin
    by (rewrite raw_hrefs_two_markers; apply list_elem_of_here).
  apply H in Hin as [_ Hkeep].
  assert (kept nd html_two_markers href_two_markers) as (r & Hr & _).
  { apply Hkeep. split.
    - exists "h/Digital Colored Comics v99/Digital Colored Comics v05/a.jpg".
      by left.
    - exists "0"%char, "5"%char. split; [|by vm_compute; lia].
      exists "http://h/Digital Colored Comics v99/",
             "Digital Colored Comics v05/a.jpg".
      split; [done|]. exists "/a.jpg". done. }
  vm_compute in Hr. discriminate.
Qed.

Lemma drop_app_length pre suf :
  Str.drop (String.length pre) (pre +:+ suf) = suf.
Proof. induction pre; str_simpl; done. Qed.

Lemma find_from_spec sub s i :
  (0 ≤ i)%Z →
  (Str.find_from sub s i = (-1)%Z
   ∧ ∀ pre suf, s = pre +:+ suf → Str.startswith suf sub = false)
  ∨ (∃ pre suf, s = pre +:+ suf ∧ Str.startswith suf sub = true
       ∧ Str.find_from sub s i = (i + Z.of_nat (String.length pre))%Z
       ∧ ∀ pre' suf', s = pre' +:+ suf' → Str.startswith suf' sub = true →
           String.length pre ≤ String.length pre').
Proof.
  revert i. induction s as [|c s IH]; intros i Hi; simpl.
  - destruct (Str.startswith "" sub) eqn:E.
    + right. exists "", "". repeat split; [done|simpl; lia|simpl; lia].
    + left. split; [done|]. intros [|??] suf; str_simpl; [|done].
      by intros <-.
  - destruct (Str.startswith (String c s) sub) eqn:E.
    + right. exists "", (String c s).
      repeat split; [done|simpl; lia|simpl; lia].
    + destruct (IH (i + 1)%Z ltac:(lia)) as
        [[Hf Hno]|(pre & suf & -> & Hs & Hf & Hfirst)].
      * left. split; [done|]. intros [|c' pre] suf; str_simpl.
        -- by intros <-.
        -- intros [= -> ->]. by apply (Hno pre).
      * right. exists (String c pre), suf.
        repeat split; [done|rewrite Hf; simpl; lia|].
        intros [|c' pre'] suf'; str_simpl.
        -- intros <-. congruence.
        -- intros [= -> Heq] Hs'. specialize (Hfirst pre' suf' Heq Hs'). lia.
Qed.

Lemma split_last s :
  ∃ init seg, Str.split "/" s = init ++ [seg]
    ∧ Str.all not_slash seg = true
    ∧ ((init = [] ∧ s = seg) ∨ (init ≠ [] ∧ ∃ pre, s = pre +:+ "/" +:+ seg)).
Proof.
  induction s as [|c s (init & seg & Hsplit & Hseg & Hs)]; simpl.
  - exists [], "". repeat split. by left.
  - case_decide as Hc.
    + subst c. exists ("" :: init), seg. rewrite Hsplit.
      repeat split; [done|]. right. split; [done|].
      destruct Hs as [[_ ->]|[_ [pre ->]]].
      * by exists "".
      * by exists (String "/" pre).
    + rewrite Hsplit. destruct Hs as [[-> ->]|[Hne [pre ->]]].
      * exists [], (String c seg). simpl. repeat split; [|by left].
        apply andb_true_iff. split; [|done].
        unfold not_slash, is_slash. by case_decide.
      * destruct init as [|x init]; [done|].
        exists (String c x :: init), seg. repeat split; [done|].
        right. split; [done|]. by exists (String c pre).
Qed.

Lemma last_split_segment s :
  last_segment s (List.last (Str.split "/" s) "").
Proof.
  destruct (split_last s) as (init & seg & -> & Hseg & Hs).
  rewrite last_last. split; [done|].
  destruct Hs as [[_ ?]|[_ ?]]; eauto.
Qed.

Lemma inner_path_of_spec decoded :
  inner_path_spec decoded (inner_path_of decoded).
Proof.
  unfold inner_path_of, Str.find, inner_path_spec.
  destruct (find_from_spec ROOT_MARKER decoded 0 ltac:(lia)) as
    [[Hf Hno]|(pre & suf & -> & Hs & Hf & Hfirst)].
  - rewrite Hf. rewrite decide_True by done. right. split.
    + intros pre suf Heq [rest Hr].
      assert (Str.startswith suf ROOT_MARKER = true)
        by (apply startswith_true; eauto).
      rewrite (Hno pre suf Heq) in *. done.
    + apply last_split_segment.
  - rewrite Hf. rewrite decide_False by lia. left.
    rewrite Z.add_0_l, Nat2Z.id, drop_app_length.
    exists pre. repeat split; [by apply startswith_true|].
    intros pre' suf' Heq Hr. apply (Hfirst pre' suf' Heq).
    by apply startswith_true.
Qed.

Lemma link_of_href_inner nd href r :
  link_of_href nd href = Some r → inner_path r = inner_path_of (unquote href).
Proof.
  unfold link_of_href. destruct (full_url_of href); [|done].
  destruct (re_search _ _); [|done]. case_decide; [|done].
  by intros [= <-].
Qed.

(** C8: the inner path of a kept href is its decoded form from the first
    occurrence of the root marker on, or the last slash-separated segment
    when the marker does not occur; and the page of the scenario yields the
    one record with volume 05, the URL under https and the inner path that
    starts at the root marker; this holds whatever the decimal digits
    beyond ASCII are. *)
Theorem inner_path_from_root_marker nd :
  (∀ href r, link_of_href nd href = Some r →
     inner_path_spec (unquote href) (inner_path r))
  ∧ parse_image_links nd sample_html = [sample_record]
  ∧ vol sample_record = "05"
  ∧ (∃ rest, url sample_record = "https://cdn/x/" +:+ rest)
  ∧ root_at (inner_path sample_record).
Proof.
  split; [|split; [by vm_compute|split; [done|split]]].
  - intros href r Hr. rewrite (link_of_href_inner _ _ _ Hr).
    apply inner_path_of_spec.
  - by eexists.
  - by eexists.
Qed.

Lemma inner_path_from_root_marker_witness :
  link_of_href digits_arabic_indic sample_href = Some sample_record
  ∧ inner_path_spec (unquote sample_href) (inner_path sample_record).
Proof.
  assert (link_of_href digits_arabic_indic sample_href = Some sample_record) as H
    by (by vm_compute).
  split; [exact H|].
  exact (proj1 (inner_path_from_root_marker digits_arabic_indic)
           sample_href sample_record H).
Defined.

(** ** Target paths *)

Lemma path_join_root_inj b1 b2 :
  path_join OUTPUT_ROOT b1 = path_join OUTPUT_ROOT b2 → b1 = b2.
Proof.
  unfold path_join.
  rewrite (decide_False (P := OUTPUT_ROOT = "")) by done.
  replace (Str.endswith OUTPUT_ROOT "/") with false by (by vm_compute).
  destruct (Str.startswith b1 "/") eqn:E1, (Str.startswith b2 "/") eqn:E2;
    try done.
  - apply startswith_true in E1 as [r ->]. by vm_compute.
  - apply startswith_true in E2 as [r ->]. by vm_compute.
  - intros H. apply string_app_inv_head in H.
    by apply (string_app_inv_head "/") in H.
Qed.

(** C9, amended: two records of the output whose inner paths differ have
    different target paths. *)
Theorem distinct_inner_paths_distinct_targets nd html r1 r2 :
  r1 ∈ parse_image_links nd html → r2 ∈ parse_image_links nd html →
  inner_path r1 ≠ inner_path r2 →
  local_path_of r1 ≠ local_path_of r2.
Proof.
  intros _ _ Hne Heq. apply Hne. by apply path_join_root_inj.
Qed.

Lemma parse_two_markers_volumes nd :
  parse_image_links nd html_two_volumes =
  [ mkLink "01" "a.jpg" "http://h/Digital Colored Comics v01/a.jpg";
    mkLink "02" "b.jpg" "http://h/Digital Colored Comics v02/b.jpg" ].
Proof. by vm_compute. Qed.

Lemma distinct_inner_paths_distinct_targets_witness :
  local_path_of (mkLink "01" "a.jpg" "http://h/Digital Colored Comics v01/a.jpg")
  ≠ local_path_of (mkLink "02" "b.jpg" "http://h/Digital Colored Comics v02/b.jpg").
Proof.
  apply (distinct_inner_paths_distinct_targets digits_arabic_indic html_two_volumes).
  - rewrite parse_two_markers_volumes. apply list_elem_of_here.
  - rewrite parse_two_markers_volumes. apply list_elem_of_further, list_elem_of_here.
  - simpl. discriminate.
Defined.

(** C9 as worded fails: the page below lists the same image on two hosts;
    the two records differ in their URL and share their target path,
    whatever the decimal digits beyond ASCII are. *)
Lemma distinct_targets_fails : ¬ ∃ nd, distinct_targets nd html_two_hosts.
Proof.
  intros [nd H].
  assert (parse_image_links nd html_two_hosts =
          [ mkLink "01" "x.jpg" "http://a/Digital Colored Comics v01/x.jpg";
            mkLink "01" "x.jpg" "http://b/Digital Colored Comics v01/x.jpg" ])
    as Hout by (by vm_compute).
  apply (H (mkLink "01" "x.jpg" "http://a/Digital Colored Comics v01/x.jpg")
           (mkLink "01" "x.jpg" "http://b/Digital Colored Comics v01/x.jpg")).
  - rewrite Hout. apply list_elem_of_here.
  - rewrite Hout. apply list_elem_of_further, list_elem_of_here.
  - discriminate.
  - reflexivity.
Qed.

(** ** The stable sort *)

Section SortFacts.
Context {A K : Type} (le : K → K → bool) (key : A → K).
Hypothesis le_total : ∀ x y, le x y = true ∨ le y x = true.
Hypothesis le_trans : ∀ x y z, le x y = true → le y z = true → le x z = true.

Let R (a b : A) : Prop := le (key a) (key b) = true.

Lemma insert_by_perm x l : insert_by le key x l ≡ₚ x :: l.
Proof.
  induction l as [|y l IH]; simpl; [done|].
  destruct (le (key y) (key x)); [|done].
  rewrite IH. apply Permutation_swap.
Qed.

Lemma insert_by_sorted x l :
  StronglySorted R l → StronglySorted R (insert_by le key x l).
Proof.
  induction 1 as [|y l Hl IH Hy]; simpl.
  - repeat constructor.
  - destruct (le (key y) (key x)) eqn:E.
    + constructor; [done|].
      rewrite insert_by_perm. constructor; [done|done].
    + assert (R x y) as Hxy by (destruct (le_total (key x) (key y)); [done|congruence]).
      constructor; [by constructor|].
      constructor; [done|].
      eapply Forall_impl; [exact Hy|]. intros z Hz. unfold R in *. eauto.
Qed.

Lemma sort_by_perm l : sort_by le key l ≡ₚ l.
Proof.
  unfold sort_by. rewrite <- (app_nil_l l) at 2.
  generalize (@nil A). induction l as [|x l IH]; intros acc; simpl.
  - by rewrite app_nil_r.
  - rewrite IH, insert_by_perm. simpl. by rewrite Permutation_middle.
Qed.

Lemma sort_by_sorted l : StronglySorted R (sort_by le key l).
Proof.
  unfold sort_by.
  assert (StronglySorted R []) as H by constructor.
  revert H. generalize (@nil A).
  induction l as [|x l IH]; intros acc Hacc; simpl; [done|].
  apply IH. by apply insert_by_sorted.
Qed.

Lemma sorted_lookup l i j a b :
  StronglySorted R l → i < j → l !! i = Some a → l !! j = Some b → R a b.
Proof.
  intros Hs. revert i j. induction Hs as [|x l Hl IH Hx]; intros i j Hij Hi Hj.
  - done.
  - destruct j as [|j]; [lia|]. simpl in Hj.
    destruct i as [|i]; simpl in Hi.
    + injection Hi as <-. rewrite Forall_forall in Hx.
      apply Hx. by eapply list_elem_of_lookup_2.
    + apply (IH i j); [lia|done|done].
Qed.

End SortFacts.

(** ** The order of the keys *)

Lemma str_le_total s t : Str.le s t = true ∨ Str.le t s = true.
Proof.
  revert t. induction s as [|a s IH]; intros [|b t]; simpl; auto.
  destruct (N.ltb_spec (N_of_ascii a) (N_of_ascii b)); [auto|].
  destruct (N.ltb_spec (N_of_ascii b) (N_of_ascii a)); [auto|].
  assert (N_of_ascii a = N_of_ascii b) as E by lia.
  rewrite E, N.eqb_refl. apply IH.
Qed.

Lemma str_le_trans s t u :
  Str.le s t = true → Str.le t u = true → Str.le s u = true.
Proof.
  revert t u. induction s as [|a s IH]; intros [|b t] [|c u]; simpl; try done.
  destruct (N.ltb_spec (N_of_ascii a) (N_of_ascii b)) as [Hab|Hab].
  - intros _.
    destruct (N.ltb_spec (N_of_ascii b) (N_of_ascii c)) as [Hbc|Hbc].
    + intros _. destruct (N.ltb_spec (N_of_ascii a) (N_of_ascii c)); [done|lia].
    + destruct (N.eqb_spec (N_of_ascii b) (N_of_ascii c)) as [E|E]; [|done].
      intros _. destruct (N.ltb_spec (N_of_ascii a) (N_of_ascii c)); [done|lia].
  - destruct (N.eqb_spec (N_of_ascii a) (N_of_ascii b)) as [Eab|Eab]; [|done].
    intros Hst. rewrite Eab.
    destruct (N.ltb_spec (N_of_ascii b) (N_of_ascii c)) as [Hbc|Hbc]; [done|].
    destruct (N.eqb_spec (N_of_ascii b) (N_of_ascii c)) as [Ebc|Ebc]; [|done].
    by apply IH.
Qed.

Lemma str_le_antisym s t : Str.le s t = true → Str.le t s = true → s = t.
Proof.
  revert t. induction s as [|a s IH]; intros [|b t]; simpl; try done.
  destruct (N.ltb_spec (N_of_ascii a) (N_of_ascii b)) as [Hab|Hab].
  - intros _. destruct (N.ltb_spec (N_of_ascii b) (N_of_ascii a)); [lia|].
    destruct (N.eqb_spec (N_of_ascii b) (N_of_ascii a)); [lia|done].
  - destruct (N.eqb_spec (N_of_ascii a) (N_of_ascii b)) as [E|E]; [|done].
    intros Hst. destruct (N.ltb_spec (N_of_ascii b) (N_of_ascii a)); [lia|].
    rewrite E, N.eqb_refl. intros Hts.
    f_equal; [|by apply IH].
    rewrite <- (ascii_N_embedding a), <- (ascii_N_embedding b). by rewrite E.
Qed.

(** [key_le] is the lexicographic order of the triples. *)
Lemma key_le_spec c1 p1 r1 c2 p2 r2 :
  key_le (c1, p1, r1) (c2, p2, r2) = true ↔
  (c1 < c2)%N
  ∨ (c1 = c2 ∧ ((p1 < p2)%N ∨ (p1 = p2 ∧ Str.le r1 r2 = true))).
Proof.
  unfold key_le.
  destruct (N.ltb_spec c1 c2); [split; [intros _; by left|done]|].
  destruct (N.eqb_spec c1 c2); [|split; [done|intros [?|[? _]]; lia]].
  destruct (N.ltb_spec p1 p2); [split; [intros _; right; split; [done|by left]|done]|].
  destruct (N.eqb_spec p1 p2); [|split; [done|intros [?|[_ [?|[? _]]]]; lia]].
  split; [by auto|]. intros [?|[_ [?|[_ ?]]]]; (lia || done).
Qed.

Lemma key_le_total k1 k2 : key_le k1 k2 = true ∨ key_le k2 k1 = true.
Proof.
  destruct k1 as [[c1 p1] r1], k2 as [[c2 p2] r2]. rewrite !key_le_spec.
  destruct (N.lt_total c1 c2) as [?|[->|?]]; [by left; left| |by right; left].
  destruct (N.lt_total p1 p2) as [?|[->|?]];
    [by left; right; split; [|left]| |by right; right; split; [|left]].
  destruct (str_le_total r1 r2);
    [left|right]; right; split; [done| |done|]; by right.
Qed.

Lemma key_le_trans k1 k2 k3 :
  key_le k1 k2 = true → key_le k2 k3 = true → key_le k1 k3 = true.
Proof.
  destruct k1 as [[c1 p1] r1], k2 as [[c2 p2] r2], k3 as [[c3 p3] r3].
  rewrite !key_le_spec.
  intros [?|[-> [?|[-> H12]]]] [?|[-> [?|[-> H23]]]];
    try (left; lia); try (right; split; [done|left; lia]).
  right. split; [done|]. right. split; [done|]. by eapply str_le_trans.
Qed.

(** ** Volume collector *)

Lemma entry_key_eq e :
  entry_key e =
  (default SENTINEL (chapter_number (fst e)),
   default SENTINEL (page_number (fst e)), fst e).
Proof.
  unfold entry_key, _sort_key_for_relpath, chapter_number, page_number,
    int_or_sentinel.
  by destruct (chapter_match (fst e)), (page_match (fst e)).
Qed.

Lemma collect_sorted walk v i j a b :
  i < j →
  collect_images_for_volume walk v !! i = Some a →
  collect_images_for_volume walk v !! j = Some b →
  key_le (entry_key a) (entry_key b) = true.
Proof.
  intros Hij Hi Hj.
  eapply (sorted_lookup key_le entry_key); [|exact Hij|exact Hi|exact Hj].
  apply sort_by_sorted; [apply key_le_total|apply key_le_trans].
Qed.

(** In a sorted output an entry with a strictly smaller key comes first. *)
Lemma collect_strictly_before walk v i j a b :
  collect_images_for_volume walk v !! i = Some a →
  collect_images_for_volume walk v !! j = Some b →
  key_le (entry_key b) (entry_key a) = false →
  i < j.
Proof.
  intros Hi Hj Hlt.
  destruct (decide (i < j)) as [|Hge]; [done|].
  destruct (decide (i = j)) as [->|Hne].
  - assert (a = b) as -> by congruence.
    destruct (key_le_total (entry_key b) (entry_key b)); congruence.
  - assert (j < i) as Hji by lia.
    pose proof (collect_sorted walk v j i b a Hji Hj Hi). congruence.
Qed.

(** C2, amended: the output is the collected entries sorted ascending by
    the key (chapter number, or 9999 when none is extractable; page number,
    or 9999 when none; relative path).  Hence entries with both numbers are
    ascending by (chapter, page); an entry without a chapter number comes
    after every entry whose chapter number is below 9999; within one
    chapter number an entry without a page number comes after every entry
    whose page number is below 9999; and entries with neither number are
    ordered among themselves by relative path. *)
Theorem collector_sorted_by_sentinel_key walk v :
  let out := collect_images_for_volume walk v in
  out ≡ₚ gather_images walk v
  ∧ (∀ i j a b, i < j → out !! i = Some a → out !! j = Some b →
       key_le (entry_key a) (entry_key b) = true)
  ∧ numbered_ascending out
  ∧ (∀ i j a b ca, out !! i = Some a → out !! j = Some b →
       chapter_number (fst a) = Some ca → (ca < SENTINEL)%N →
       chapter_number (fst b) = None → i < j)
  ∧ (∀ i j a b c pa, out !! i = Some a → out !! j = Some b →
       chapter_number (fst a) = Some c → chapter_number (fst b) = Some c →
       page_number (fst a) = Some pa → (pa < SENTINEL)%N →
       page_number (fst b) = None → i < j)
  ∧ (∀ i j a b, i < j → out !! i = Some a → out !! j = Some b →
       chapter_number (fst a) = None → page_number (fst a) = None →
       chapter_number (fst b) = None → page_number (fst b) = None →
       Str.le (fst a) (fst b) = true).
Proof.
  intros out. subst out. split; [apply sort_by_perm|].
  split; [by apply collect_sorted|]. repeat split.
  - intros i j a b ca pa cb pb Hij Hi Hj Hca Hpa Hcb Hpb.
    pose proof (collect_sorted walk v i j a b Hij Hi Hj) as H.
    rewrite !entry_key_eq, Hca, Hpa, Hcb, Hpb in H.
    apply key_le_spec in H. simpl in H. unfold chapter_page_le. simpl.
    destruct H as [?|[-> [?|[-> _]]]]; [by left|right; lia|right; lia].
  - intros i j a b ca Hi Hj Hca Hlt Hcb.
    apply (collect_strictly_before walk v i j a b Hi Hj).
    rewrite !entry_key_eq, Hca, Hcb. simpl.
    apply not_true_is_false. intros E. apply key_le_spec in E.
    unfold SENTINEL in *. destruct E as [?|[? _]]; lia.
  - intros i j a b c pa Hi Hj Hca Hcb Hpa Hlt Hpb.
    apply (collect_strictly_before walk v i j a b Hi Hj).
    rewrite !entry_key_eq, Hca, Hcb, Hpa, Hpb. simpl.
    apply not_true_is_false. intros E. apply key_le_spec in E.
    unfold SENTINEL in *. destruct E as [?|[_ [?|[? _]]]]; lia.
  - intros i j a b Hij Hi Hj Hca Hpa Hcb Hpb.
    pose proof (collect_sorted walk v i j a b Hij Hi Hj) as H.
    rewrite !entry_key_eq, Hca, Hpa, Hcb, Hpb in H.
    apply key_le_spec in H. simpl in H.
    destruct H as [?|[_ [?|[_ ?]]]]; [lia|lia|done].
Qed.

(** C2 as worded fails: the cover of chapter 3 has no page number and is
    placed before page 01 of chapter 5, which has both numbers. *)
Lemma collector_order_as_worded_fails :
  ¬ collector_order_as_worded (collect_images_for_volume walk_cover "01").
Proof.
  intros (_ & H & _).
  assert (collect_images_for_volume walk_cover "01" =
          [ ("Digital Colored Comics v01/Chapter 3/cover.jpg",
             "chainsaw_man_colored/Digital Colored Comics v01/Chapter 3/cover.jpg");
            ("Digital Colored Comics v01/Chapter 5/01.jpg",
             "chainsaw_man_colored/Digital Colored Comics v01/Chapter 5/01.jpg") ])
    as Hout by (by vm_compute).
  rewrite Hout in H.
  specialize (H 1 0 _ _ eq_refl eq_refl).
  assert (1 < 0); [|lia]. apply H.
  - split; vm_compute; eauto.
  - intros [_ [p Hp]]. vm_compute in Hp. discriminate.
Qed.

(** ** Directory creation *)

Lemma only_new_dirs_refl f : only_new_dirs f f.
Proof. intros p. by left. Qed.

Lemma only_new_dirs_trans f1 f2 f3 :
  only_new_dirs f1 f2 → only_new_dirs f2 f3 → only_new_dirs f1 f3.
Proof.
  intros H12 H23 p. destruct (H12 p) as [E|[E1 E2]], (H23 p) as [E'|[E1' E2']].
  - left. congruence.
  - right. split; congruence.
  - right. split; congruence.
  - congruence.
Qed.

Lemma only_new_dirs_grows f f' : only_new_dirs f f' → fs_grows f f'.
Proof.
  intros H p. destruct (H p) as [E|[E _]]; rewrite E.
  - destruct (f !! p) as [[|c]|]; eauto.
  - done.
Qed.

Lemma fs_grows_refl f : fs_grows f f.
Proof. intros p. destruct (f !! p) as [[|c]|]; eauto. Qed.

Lemma fs_grows_trans f1 f2 f3 : fs_grows f1 f2 → fs_grows f2 f3 → fs_grows f1 f3.
Proof.
  intros H12 H23 p. specialize (H12 p). specialize (H23 p).
  destruct (f1 !! p) as [[|c]|]; [|destruct H12 as [n Hn]|done].
  - by rewrite H12 in H23.
  - rewrite Hn in H23. destruct n; [by rewrite H23|done].
Qed.

Lemma mkdir_fold_raise e f ds : foldl mkdir_ok (Raise e, f) ds = (Raise e, f).
Proof. induction ds; simpl; auto. Qed.

Lemma mkdir_fold_new_dirs f ds r f' :
  foldl mkdir_ok (Ok (), f) ds = (r, f') → only_new_dirs f f'.
Proof.
  revert f. induction ds as [|d ds IH]; intros f; simpl.
  - intros [= _ <-]. apply only_new_dirs_refl.
  - destruct (f !! d) as [[|c]|] eqn:E.
    + apply IH.
    + rewrite mkdir_fold_raise. intros [= _ <-]. apply only_new_dirs_refl.
    + intros H. apply IH in H. eapply only_new_dirs_trans; [|exact H].
      intros p. destruct (decide (d = p)) as [<-|Hne].
      * right. by rewrite lookup_insert_eq.
      * left. by rewrite lookup_insert_ne.
Qed.

Lemma mkdir_fold_made f ds f' :
  foldl mkdir_ok (Ok (), f) ds = (Ok (), f') →
  Forall (λ q, f' !! q = Some Dir) ds.
Proof.
  revert f. induction ds as [|d ds IH]; intros f; simpl; [constructor|].
  destruct (f !! d) as [[|c]|] eqn:E.
  - intros H. constructor; [|by eapply IH].
    apply mkdir_fold_new_dirs in H. destruct (H d) as [E'|[E' _]]; congruence.
  - by rewrite mkdir_fold_raise.
  - intros H. constructor; [|by eapply IH].
    apply mkdir_fold_new_dirs in H. destruct (H d) as [E'|[E' _]].
    + by rewrite E', lookup_insert_eq.
    + by rewrite lookup_insert_eq in E'.
Qed.

Lemma mkdir_fold_noop f ds :
  Forall (λ q, f !! q = Some Dir) ds → foldl mkdir_ok (Ok (), f) ds = (Ok (), f).
Proof. induction 1 as [|d ds Hd _ IH]; simpl; [done|]. by rewrite Hd. Qed.

Lemma makedirs_new_dirs d f r f' : makedirs d f = (r, f') → only_new_dirs f f'.
Proof.
  unfold makedirs. case_decide as Hd.
  - intros [= _ <-]. apply only_new_dirs_refl.
  - apply mkdir_fold_new_dirs.
Qed.

Lemma makedirs_made d f f' : makedirs d f = (Ok (), f') → chain_made f' d.
Proof.
  unfold makedirs, chain_made. case_decide as Hd; [done|].
  intros Hm. split; [done|]. by eapply mkdir_fold_made.
Qed.

Lemma makedirs_noop d f : chain_made f d → makedirs d f = (Ok (), f).
Proof.
  intros [Hd Hall]. unfold makedirs. rewrite decide_False by done.
  by apply mkdir_fold_noop.
Qed.

Lemma chain_made_grows f f' d : fs_grows f f' → chain_made f d → chain_made f' d.
Proof.
  intros Hg [Hd Hall]. split; [done|].
  eapply Forall_impl; [exact Hall|]. intros q Hq. specialize (Hg q).
  by rewrite Hq in Hg.
Qed.

Lemma chain_made_isdir f d : chain_made f d → path_isdir f d = true.
Proof.
  intros [Hd Hall]. unfold path_isdir.
  destruct (is_root d) eqn:Er; [done|]. simpl in Hall.
  rewrite decide_False, Er in Hall by done.
  rewrite Forall_app, Forall_singleton in Hall. destruct Hall as [_ Hall].
  by rewrite Hall.
Qed.

Lemma path_exists_grows f f' p :
  fs_grows f f' → path_exists f p = true → path_exists f' p = true.
Proof.
  unfold path_exists. intros Hg. specialize (Hg p).
  destruct (is_root p); [done|]. simpl.
  destruct (f !! p) as [[|c]|]; [by rewrite Hg|by destruct Hg as [? ->]|done].
Qed.

(** ** One fetch *)

Lemma fetch_to_file_effects net u local w r w1 :
  fetch_to_file net u local w = (r, w1) →
  requests w1 = requests w ++ [u]
  ∧ sleeps w1 = sleeps w
  ∧ printed w1 = printed w
  ∧ fs_grows (fs w) (fs w1)
  ∧ (∀ p, p ≠ local → fs w1 !! p = fs w !! p)
  ∧ (fs w !! local ≠ Some Dir → fs w1 !! local ≠ Some Dir)
  ∧ (r = Ok () → ∃ c, fs w1 !! local = Some (File c)).
Proof.
  unfold fetch_to_file, http_get.
  destruct (net _ u) as [e|status chunks broken]; simpl.
  { intros [= <- <-]. simpl. repeat split; auto using fs_grows_refl. done. }
  destruct (raise_for_status status) as [[]|e].
  2:{ intros [= <- <-]. simpl. repeat split; auto using fs_grows_refl. done. }
  destruct (fs w !! local) as [[|c]|] eqn:E.
  { intros [= <- <-]. simpl. repeat split; auto using fs_grows_refl. done. }
  all: assert (fs_grows (fs w) (<[local:=File (Bytes (written chunks))]> (fs w))) as Hg
    by (intros p; destruct (decide (local = p)) as [<-|Hne];
        [rewrite E, ?lookup_insert_eq; eauto
        |rewrite lookup_insert_ne by done; apply fs_grows_refl]).
  all: destruct broken as [e|]; intros [= <- <-]; simpl;
    (repeat split; [done|by intros p ?; rewrite lookup_insert_ne
                   |by rewrite lookup_insert_eq
                   |intros; try done; rewrite lookup_insert_eq; eauto]).
Qed.

Lemma fetch_to_file_fails net u local w :
  response_ok (net (length (requests w)) u) = false →
  ∃ e w1, fetch_to_file net u local w = (Raise e, w1).
Proof.
  unfold fetch_to_file, http_get, response_ok.
  destruct (net _ u) as [e|status chunks broken]; simpl; [by eauto|].
  destruct (raise_for_status status) as [[]|e]; [|by eauto].
  destruct broken as [e|]; [|done]. intros _.
  destruct (fs w !! local) as [[|c]|]; eauto.
Qed.

Lemma fetch_to_file_succeeds net u local w :
  response_ok (net (length (requests w)) u) = true →
  fs w !! local ≠ Some Dir →
  ∃ w1, fetch_to_file net u local w = (Ok (), w1).
Proof.
  unfold fetch_to_file, http_get, response_ok.
  destruct (net _ u) as [e|status chunks broken]; simpl; [done|].
  destruct (raise_for_status status) as [[]|e]; [|done].
  destruct broken as [e|]; [done|]. intros _ Hd.
  destruct (fs w !! local) as [[|c]|]; [done|eauto|eauto].
Qed.

(** ** The retry loop *)

Lemma attempt_loop_effects net item local retries base todo attempt last w o w' :
  attempt_loop net item local retries base todo attempt last w = (o, w') →
  ∃ k, k ≤ todo ∧ (0 < todo → 0 < k)
    ∧ requests w' = requests w ++ replicate k (url item)
    ∧ fs_grows (fs w) (fs w')
    ∧ (∀ p, p ≠ local → fs w' !! p = fs w !! p)
    ∧ (fs w !! local ≠ Some Dir → fs w' !! local ≠ Some Dir)
    ∧ (∀ v i, o = Downloaded v i → ∃ c, fs w' !! local = Some (File c))
    ∧ (todo + attempt = retries + 1 →
       sleeps w' = sleeps w ++ (backoff base <$> seq attempt (k - 1))).
Proof.
  revert attempt last w. induction todo as [|todo IH]; intros attempt last w; simpl.
  - intros [= <- <-]. exists 0. simpl. rewrite !app_nil_r.
    split_and!; try done; try lia. apply fs_grows_refl.
  - destruct (fetch_to_file net (url item) local w) as [[[]|e] w1] eqn:Ef;
      apply fetch_to_file_effects in Ef as (Hr & Hs & Hp & Hg & Hother & Hdir & Hok).
    + intros [= <- <-]. exists 1. simpl. rewrite app_nil_r.
      split_and!; try done; try lia. intros v i _. by apply Hok.
    + destruct (attempt <? retries) eqn:Ea.
      * intros Hloop. apply IH in Hloop
          as (k & Hk & Hpos & Hr' & Hg' & Hother' & Hdir' & Hdown & Hsl).
        simpl in *. exists (S k). split_and!.
        -- lia.
        -- lia.
        -- rewrite Hr', Hr, <- app_assoc. done.
        -- eapply fs_grows_trans; eauto.
        -- intros p Hp'. rewrite Hother', Hother; done.
        -- auto.
        -- done.
        -- intros Hinv. apply Nat.ltb_lt in Ea.
           rewrite Hsl by lia. rewrite Hs, <- app_assoc.
           assert (0 < k) by (apply Hpos; lia).
           replace (S k - 1) with (S (k - 1)) by lia. done.
      * intros [= <- <-]. exists 1. simpl. rewrite app_nil_r.
        split_and!; try done; try lia.
Qed.

(** ** One item *)

Lemma set_fs_same w : set_fs w (fs w) = w.
Proof. by destruct w. Qed.

Lemma path_exists_file f p c : f !! p = Some (File c) → path_exists f p = true.
Proof. unfold path_exists. intros ->. apply orb_true_r. Qed.

Lemma path_exists_false f p : path_exists f p = false → f !! p = None.
Proof.
  unfold path_exists. intros [_ H]%orb_false_iff. by destruct (f !! p).
Qed.

Lemma attempt_loop_not_skipped net item local retries base todo attempt last w p w' :
  attempt_loop net item local retries base todo attempt last w ≠ (Skipped p, w').
Proof.
  revert attempt last w. induction todo as [|todo IH]; intros attempt last w; simpl.
  - done.
  - destruct (fetch_to_file _ _ _ _) as [[[]|e] w1]; [done|].
    destruct (attempt <? retries); [apply IH|done].
Qed.

Lemma download_one_effects net item retries base w r w' :
  _download_one net item retries base w = (r, w') →
  fs_grows (fs w) (fs w')
  ∧ (item_done r → target_ready (fs w') item)
  ∧ ∃ k, k ≤ retries
      ∧ requests w' = requests w ++ replicate k (url item)
      ∧ (sleeps w' = sleeps w ++ (backoff base <$> seq 1 (k - 1))).
Proof.
  unfold _download_one, target_ready.
  destruct (makedirs _ (fs w)) as [[[]|e] f1] eqn:Em.
  2:{ intros [= <- <-]. simpl. apply makedirs_new_dirs in Em.
      split; [by apply only_new_dirs_grows|]. split; [done|].
      exists 0. simpl. rewrite !app_nil_r. split_and!; [lia|done|done]. }
  pose proof (makedirs_new_dirs _ _ _ _ Em) as Hnew%only_new_dirs_grows.
  pose proof (makedirs_made _ _ _ Em) as Hmade.
  destruct (path_exists f1 (local_path_of item)) eqn:Ex.
  { intros [= <- <-]. simpl. split; [done|]. split; [done|].
    exists 0. simpl. rewrite !app_nil_r. split_and!; [lia|done|done]. }
  destruct (attempt_loop _ _ _ _ _ _ _ _ _) as [o w2] eqn:El.
  intros [= <- <-].
  pose proof El as Hns.
  apply attempt_loop_effects in El
    as (k & Hk & _ & Hr & Hg & _ & _ & Hdown & Hsl). simpl in *.
  split; [by eapply fs_grows_trans|]. split.
  - destruct o as [p|v i|u e]; [by apply attempt_loop_not_skipped in Hns| |done].
    intros _.
    destruct (Hdown v i eq_refl) as [c Hc].
    split; [by eapply path_exists_file|by eapply chain_made_grows].
  - exists k. split; [done|]. split; [done|]. apply Hsl. lia.
Qed.

Lemma download_one_ready net item retries base w :
  target_ready (fs w) item →
  _download_one net item retries base w = (Ok (Skipped (local_path_of item)), w).
Proof.
  intros [Hex Hmade]. unfold _download_one.
  rewrite (makedirs_noop _ _ Hmade), Hex. by rewrite set_fs_same.
Qed.

Lemma target_ready_grows f f' item :
  fs_grows f f' → target_ready f item → target_ready f' item.
Proof.
  intros Hg [Hex Hmade].
  split; [by eapply path_exists_grows|by eapply chain_made_grows].
Qed.

(** ** The batch *)

Lemma run_workers_effects net items w rs w' :
  run_workers net items w = (rs, w') →
  fs_grows (fs w) (fs w')
  ∧ length rs = length items
  ∧ (Forall item_done rs → Forall (target_ready (fs w')) items).
Proof.
  revert w rs w'. induction items as [|item rest IH]; intros w rs w'; simpl.
  - intros [= <- <-]. split; [apply fs_grows_refl|]. by split.
  - destruct (_download_one _ _ _ _ w) as [r w1] eqn:E1.
    destruct (run_workers net rest w1) as [rs1 w2] eqn:E2.
    intros [= <- <-].
    apply download_one_effects in E1 as (Hg1 & Hdone1 & _).
    apply IH in E2 as (Hg2 & Hlen & Hdone2).
    split; [by eapply fs_grows_trans|]. split; [simpl; congruence|].
    intros [Hr Hrs]%Forall_cons. constructor; [|by apply Hdone2].
    eapply target_ready_grows; [exact Hg2|by apply Hdone1].
Qed.

Lemma run_workers_ready net items w :
  Forall (target_ready (fs w)) items →
  run_workers net items w = (all_skipped items, w).
Proof.
  induction 1 as [|item rest Hi _ IH]; simpl; [done|].
  by rewrite (download_one_ready _ _ _ _ _ Hi), IH.
Qed.

(** C3: after a first run in which every item was downloaded or skipped, a
    second run over the same records, in any order and whatever the
    network does, reports every item skipped, issues no request and leaves
    the world as it was. *)
Theorem second_run_issues_no_request net1 net2 items items2 w :
  Forall item_done (fst (run_workers net1 items w)) →
  items2 ⊆ items →
  let w1 := snd (run_workers net1 items w) in
  run_workers net2 items2 w1 = (all_skipped items2, w1)
  ∧ requests (snd (run_workers net2 items2 w1)) = requests w1.
Proof.
  intros Hdone Hsub w1. subst w1.
  destruct (run_workers net1 items w) as [rs w1] eqn:E1. simpl in *.
  apply run_workers_effects in E1 as (_ & _ & Hready).
  specialize (Hready Hdone).
  assert (Forall (target_ready (fs w1)) items2) as Hready2.
  { rewrite Forall_forall in Hready |- *. intros x Hx. apply Hready. by apply Hsub. }
  rewrite (run_workers_ready net2 items2 w1 Hready2). done.
Qed.

Lemma second_run_issues_no_request_witness :
  let w1 := snd (run_workers net_up [item_a; item_b] world0) in
  run_workers net_down [item_b; item_a] w1 = (all_skipped [item_b; item_a], w1)
  ∧ requests (snd (run_workers net_down [item_b; item_a] w1)) = requests w1.
Proof.
  apply (second_run_issues_no_request net_up net_down [item_a; item_b]).
  - vm_compute. repeat constructor.
  - intros x Hx. apply list_elem_of_In in Hx. apply list_elem_of_In.
    simpl in *. tauto.
Defined.

(** C10: when the target file of an item is there, processing the item
    first creates the parent directories and then checks the target: the
    file system afterwards is the one directory creation leaves, the target
    keeps its contents, no request is issued, and the only change is new
    directories.  When directory creation succeeds the item is reported
    skipped and the parent is a directory; on a file system that already
    has the parents nothing changes at all. *)
Theorem skipped_item_only_creates_directories net item retries base w c :
  let local := local_path_of item in
  fs w !! local = Some (File c) →
  ∃ r w', _download_one net item retries base w = (r, w')
    ∧ fs w' = snd (makedirs (dirname local) (fs w))
    ∧ fs w' !! local = Some (File c)
    ∧ requests w' = requests w
    ∧ sleeps w' = sleeps w
    ∧ only_new_dirs (fs w) (fs w')
    ∧ (fst (makedirs (dirname local) (fs w)) = Ok () →
       r = Ok (Skipped local) ∧ path_isdir (fs w') (dirname local) = true)
    ∧ (chain_made (fs w) (dirname local) → r = Ok (Skipped local) ∧ w' = w).
Proof.
  intros local Hfile. unfold _download_one. fold local.
  destruct (makedirs (dirname local) (fs w)) as [r1 f1] eqn:Em.
  pose proof (makedirs_new_dirs _ _ _ _ Em) as Hnew.
  assert (f1 !! local = Some (File c)) as Hfile1.
  { destruct (Hnew local) as [E|[E _]]; congruence. }
  destruct r1 as [[]|e].
  - rewrite (path_exists_file _ _ _ Hfile1).
    eexists _, _. split; [done|]. simpl. split_and!; try done.
    + intros _. split; [done|].
      apply chain_made_isdir. by eapply makedirs_made.
    + intros Hmade. rewrite (makedirs_noop _ _ Hmade) in Em.
      injection Em as <-. by rewrite set_fs_same.
  - eexists _, _. split; [done|]. simpl. split_and!; try done.
    intros Hmade. rewrite (makedirs_noop _ _ Hmade) in Em. done.
Qed.

Lemma skipped_item_only_creates_directories_witness :
  ∃ r w', _download_one net_down item_a 3 1%Q world_with_a = (r, w')
    ∧ fs w' = snd (makedirs (dirname (local_path_of item_a)) (fs world_with_a))
    ∧ fs w' !! local_path_of item_a = Some (File (Bytes "old"))
    ∧ requests w' = requests world_with_a
    ∧ sleeps w' = sleeps world_with_a
    ∧ only_new_dirs (fs world_with_a) (fs w')
    ∧ (fst (makedirs (dirname (local_path_of item_a)) (fs world_with_a)) = Ok () →
       r = Ok (Skipped (local_path_of item_a))
       ∧ path_isdir (fs w') (dirname (local_path_of item_a)) = true)
    ∧ (chain_made (fs world_with_a) (dirname (local_path_of item_a)) →
       r = Ok (Skipped (local_path_of item_a)) ∧ w' = world_with_a).
Proof.
  apply (skipped_item_only_creates_directories net_down item_a 3 1%Q
           world_with_a (Bytes "old")).
  by vm_compute.
Defined.

(** The directories are created indeed: in the world of the witness the
    parents of the target are not there before and are directories after. *)
Example skipped_item_directories_created :
  path_isdir (fs world_with_a) (dirname (local_path_of item_a)) = false
  ∧ fst (_download_one net_down item_a 3 1%Q world_with_a)
    = Ok (Skipped (local_path_of item_a))
  ∧ path_isdir (fs (snd (_download_one net_down item_a 3 1%Q world_with_a)))
               (dirname (local_path_of item_a)) = true.
Proof. by vm_compute. Qed.

(** ** Retries *)

Lemma attempt_step_fails net item local retries base todo attempt last w :
  response_ok (net (length (requests w)) (url item)) = false →
  ∃ e w1,
    fetch_to_file net (url item) local w = (Raise e, w1)
    ∧ attempt_loop net item local retries base (S todo) attempt last w =
      (if attempt <? retries
       then attempt_loop net item local retries base todo (S attempt) (Some e)
              (sleep (backoff base attempt)
                 (print (MsgRetry attempt retries (url item) (backoff base attempt) e) w1))
       else (Failed (url item) (Some e), w1)).
Proof.
  intros Hbad. destruct (fetch_to_file_fails net (url item) local w Hbad)
    as (e & w1 & Ef).
  exists e, w1. split; [done|]. simpl. by rewrite Ef.
Qed.

Lemma attempt_step_succeeds net item local retries base todo attempt last w :
  response_ok (net (length (requests w)) (url item)) = true →
  fs w !! local ≠ Some Dir →
  ∃ w1,
    fetch_to_file net (url item) local w = (Ok (), w1)
    ∧ attempt_loop net item local retries base (S todo) attempt last w =
      (Downloaded (vol item) (inner_path item), w1).
Proof.
  intros Hok Hd. destruct (fetch_to_file_succeeds net (url item) local w Hok Hd)
    as (w1 & Ef).
  exists w1. split; [done|]. simpl. by rewrite Ef.
Qed.

(** The state after a failed attempt and its pause. *)
Lemma after_failed_attempt net u local w e w1 d m :
  fetch_to_file net u local w = (Raise e, w1) →
  let w2 := sleep d (print m w1) in
  length (requests w2) = S (length (requests w))
  ∧ requests w2 = requests w ++ [u]
  ∧ sleeps w2 = sleeps w ++ [d]
  ∧ (fs w !! local ≠ Some Dir → fs w2 !! local ≠ Some Dir).
Proof.
  intros (Hr & Hs & _ & _ & _ & Hdir & _)%fetch_to_file_effects. simpl.
  rewrite Hr, Hs, length_app. simpl. split_and!; [lia|done|done|done].
Qed.

(** C4: an item is fetched at most three times, with a pause of the base
    times the number of the attempt after each failed attempt but the last
    (one and two seconds for the base 1.0).  An item whose target is not
    there and whose first two attempts fail is reported downloaded when the
    third succeeds, with the pauses 1 and 2, and reported failed when the
    third fails as well; whatever the outcome of the item, every remaining
    item of the batch is run, and the report of the batch does not raise
    unless a worker did. *)
Theorem retry_policy net item w :
  let u := url item in
  let local := local_path_of item in
  let n := length (requests w) in
  let bad := λ i, response_ok (net (n + i) u) = false in
  let fresh :=
    fst (makedirs (dirname local) (fs w)) = Ok ()
    ∧ path_exists (snd (makedirs (dirname local) (fs w))) local = false in
  (∀ r w', _download_one net item DEFAULT_RETRIES DEFAULT_BACKOFF w = (r, w') →
     ∃ k, k ≤ 3
       ∧ requests w' = requests w ++ replicate k u
       ∧ sleeps w' = sleeps w ++ (backoff DEFAULT_BACKOFF <$> seq 1 (k - 1)))
  ∧ (fresh → bad 0 → bad 1 → response_ok (net (n + 2) u) = true →
     ∃ w', _download_one net item DEFAULT_RETRIES DEFAULT_BACKOFF w
           = (Ok (Downloaded (vol item) (inner_path item)), w')
       ∧ requests w' = requests w ++ [u; u; u]
       ∧ sleeps w' = sleeps w ++ [1%Q; 2%Q])
  ∧ (fresh → bad 0 → bad 1 → bad 2 →
     ∃ e w', _download_one net item DEFAULT_RETRIES DEFAULT_BACKOFF w
             = (Ok (Failed u (Some e)), w')
       ∧ requests w' = requests w ++ [u; u; u]
       ∧ sleeps w' = sleeps w ++ [1%Q; 2%Q])
  ∧ (∀ r w' rest,
       _download_one net item DEFAULT_RETRIES DEFAULT_BACKOFF w = (r, w') →
       run_workers net (item :: rest) w
       = (r :: fst (run_workers net rest w'), snd (run_workers net rest w'))
       ∧ length (fst (run_workers net rest w')) = length rest
       ∧ ∀ o rs wr, r = Ok o →
           report_results (r :: rs) wr
           = report_results rs (print (msg_of_outcome o) wr)).
Proof.
  intros u local n bad fresh. split_and!.
  - intros r w' H. by apply download_one_effects in H as (_ & _ & H).
  - intros [Hmk Hex] H0 H1 H2. unfold bad in *. subst u local n.
    unfold _download_one, DEFAULT_RETRIES.
    destruct (makedirs _ (fs w)) as [r1 f1] eqn:Em. simpl in Hmk, Hex.
    subst r1. rewrite Hex.
    set (w0 := set_fs w f1).
    assert (fs w0 !! local_path_of item ≠ Some Dir) as Hd0
      by (simpl; by rewrite (path_exists_false _ _ Hex)).
    assert (requests w0 = requests w) as Hr0 by done.
    assert (sleeps w0 = sleeps w) as Hs0 by done.
    rewrite Nat.add_0_r, <- Hr0 in H0.
    destruct (attempt_step_fails net item (local_path_of item) 3 DEFAULT_BACKOFF
                2 1 None w0 H0) as (e1 & wa & Ef1 & ->).
    simpl (1 <? 3).
    destruct (after_failed_attempt _ _ _ _ _ _ (backoff DEFAULT_BACKOFF 1)
                (MsgRetry 1 3 (url item) (backoff DEFAULT_BACKOFF 1) e1) Ef1)
      as (Hl1 & Hr1 & Hs1 & Hd1).
    set (w1 := sleep _ _) in *. clearbody w1.
    rewrite <- Hr0, Nat.add_1_r, <- Hl1 in H1.
    destruct (attempt_step_fails net item (local_path_of item) 3 DEFAULT_BACKOFF
                1 2 (Some e1) w1 H1) as (e2 & wb & Ef2 & ->).
    simpl (2 <? 3).
    destruct (after_failed_attempt _ _ _ _ _ _ (backoff DEFAULT_BACKOFF 2)
                (MsgRetry 2 3 (url item) (backoff DEFAULT_BACKOFF 2) e2) Ef2)
      as (Hl2 & Hr2 & Hs2 & Hd2).
    set (w2 := sleep _ _) in *. clearbody w2.
    replace (length (requests w) + 2) with (length (requests w2)) in H2
      by (rewrite <- Hr0; lia).
    destruct (attempt_step_succeeds net item (local_path_of item) 3 DEFAULT_BACKOFF
                0 3 (Some e2) w2 H2 (Hd2 (Hd1 Hd0))) as (wc & Ef3 & ->).
    exists wc. split; [done|].
    apply fetch_to_file_effects in Ef3 as (Hr3 & Hs3 & _).
    rewrite Hr3, Hr2, Hr1, Hr0, Hs3, Hs2, Hs1, Hs0, <- !app_assoc. done.
  - intros [Hmk Hex] H0 H1 H2. unfold bad in *. subst u local n.
    unfold _download_one, DEFAULT_RETRIES.
    destruct (makedirs _ (fs w)) as [r1 f1] eqn:Em. simpl in Hmk, Hex.
    subst r1. rewrite Hex.
    set (w0 := set_fs w f1).
    assert (requests w0 = requests w) as Hr0 by done.
    assert (sleeps w0 = sleeps w) as Hs0 by done.
    rewrite Nat.add_0_r, <- Hr0 in H0.
    destruct (attempt_step_fails net item (local_path_of item) 3 DEFAULT_BACKOFF
                2 1 None w0 H0) as (e1 & wa & Ef1 & ->).
    simpl (1 <? 3).
    destruct (after_failed_attempt _ _ _ _ _ _ (backoff DEFAULT_BACKOFF 1)
                (MsgRetry 1 3 (url item) (backoff DEFAULT_BACKOFF 1) e1) Ef1)
      as (Hl1 & Hr1 & Hs1 & _).
    set (w1 := sleep _ _) in *. clearbody w1.
    rewrite <- Hr0, Nat.add_1_r, <- Hl1 in H1.
    destruct (attempt_step_fails net item (local_path_of item) 3 DEFAULT_BACKOFF
                1 2 (Some e1) w1 H1) as (e2 & wb & Ef2 & ->).
    simpl (2 <? 3).
    destruct (after_failed_attempt _ _ _ _ _ _ (backoff DEFAULT_BACKOFF 2)
                (MsgRetry 2 3 (url item) (backoff DEFAULT_BACKOFF 2) e2) Ef2)
      as (Hl2 & Hr2 & Hs2 & _).
    set (w2 := sleep _ _) in *. clearbody w2.
    replace (length (requests w) + 2) with (length (requests w2)) in H2
      by (rewrite <- Hr0; lia).
    destruct (attempt_step_fails net item (local_path_of item) 3 DEFAULT_BACKOFF
                0 3 (Some e2) w2 H2) as (e3 & wc & Ef3 & ->).
    simpl (3 <? 3).
    exists e3, wc. split; [done|].
    apply fetch_to_file_effects in Ef3 as (Hr3 & Hs3 & _).
    rewrite Hr3, Hr2, Hr1, Hr0, Hs3, Hs2, Hs1, Hs0, <- !app_assoc. done.
  - intros r w' rest H. simpl. rewrite H.
    destruct (run_workers net rest w') as [rs w2] eqn:E. simpl.
    split; [done|]. split.
    + by apply run_workers_effects in E as (_ & ? & _).
    + by intros o rs' wr ->.
Qed.

Lemma retry_policy_witness :
  ∃ w', _download_one net_third_time item_a DEFAULT_RETRIES DEFAULT_BACKOFF world0
        = (Ok (Downloaded (vol item_a) (inner_path item_a)), w')
    ∧ requests w' = requests world0 ++ [url item_a; url item_a; url item_a]
    ∧ sleeps w' = sleeps world0 ++ [1%Q; 2%Q].
Proof.
  apply (proj1 (proj2 (retry_policy net_third_time item_a world0))).
  - split; by vm_compute.
  - by vm_compute.
  - by vm_compute.
  - by vm_compute.
Defined.

(** The item of the witness with the network down: three requests, the
    pauses 1 and 2, reported failed, and the item after it still runs. *)
Example failed_item_does_not_abort :
  fst (run_workers net_down [item_a; item_b] world0)
  = [Ok (Failed (url item_a) (Some "unreachable"));
     Ok (Failed (url item_b) (Some "unreachable"))]
  ∧ sleeps (snd (run_workers net_down [item_a] world0)) = [1%Q; 2%Q]
  ∧ fst (download_images net_down [item_a; item_b] 3 world0) = Ok ().
Proof. by vm_compute. Qed.

(** ** PDF renderer *)

Lemma open_images_spec decode convert entries images w :
  ∃ w', open_images decode convert entries images w
        = (images ++ opened_pages decode convert (fs w) entries, w')
    ∧ fs w' = fs w
    ∧ requests w' = requests w
    ∧ sleeps w' = sleeps w.
Proof.
  revert images w. induction entries as [|[rel full] rest IH]; intros images w.
  - exists w. simpl. by rewrite app_nil_r.
  - simpl. unfold opened_pages. simpl.
    destruct (open_rgb decode convert (fs w) full) as [img|e]; simpl.
    + destruct (IH (images ++ [img]) w) as (w' & -> & Hf & Hr & Hs).
      exists w'. by rewrite <- app_assoc.
    + destruct (IH images (print (MsgFailedReading full e) w))
        as (w' & -> & Hf & Hr & Hs).
      exists w'. done.
Qed.

Lemma omap_length_le {A B} (f : A → option B) l : length (omap f l) ≤ length l.
Proof. induction l as [|x l IH]; csimpl; [done|]. destruct (f x); csimpl; lia. Qed.

(** C5: the renderer contacts no server; it leaves the file system as it
    is, reporting why, when the collector returns no image or the PDF of
    the volume is there; otherwise it opens the images in collector order,
    an image that fails to open being left out, and writes one file, the
    PDF with the opened images as pages in that order, or no file at all
    when no image opened. *)
Theorem pdf_renderer_cases os_walk decode convert v w :
  let entries := collect_images_for_volume (os_walk (fs w)) v in
  let pages := opened_pages decode convert (fs w) entries in
  let w' := build_pdf_for_volume os_walk decode convert v w in
  requests w' = requests w
  ∧ match entries with
    | [] => fs w' = fs w ∧ printed w' = printed w ++ [MsgNoImages v]
    | _ :: _ =>
        if path_exists (fs w) (pdf_path_of v)
        then fs w' = fs w ∧ printed w' = printed w ++ [MsgPdfExists v]
        else match pages with
             | [] => fs w' = fs w
                     ∧ last (printed w') = Some (MsgNoValidImages v)
             | _ :: _ =>
                 fs w' = <[pdf_path_of v := File (PdfDoc pages)]> (fs w)
                 ∧ last (printed w') = Some (MsgSavedPdf (pdf_path_of v))
                 ∧ length pages ≤ length entries
             end
    end.
Proof.
  intros entries pages w'. subst w'. unfold build_pdf_for_volume.
  fold entries. destruct entries as [|e0 rest] eqn:Ee; [done|].
  destruct (path_exists (fs w) (pdf_path_of v)); [done|].
  assert (length pages ≤ length (e0 :: rest)) as Hlen
    by (subst pages; unfold opened_pages; apply omap_length_le).
  destruct (open_images_spec decode convert (e0 :: rest) []
              (print (MsgBuildingPdf v (length (e0 :: rest))) w))
    as (w2 & Ho & Hf & Hr & Hs).
  rewrite Ho.
  change ([] ++ opened_pages decode convert (fs (print _ w)) (e0 :: rest))
    with pages.
  simpl in Hf, Hr. clearbody pages.
  destruct pages as [|p ps]; simpl.
  - rewrite Hr, Hf. split; [done|]. split; [done|]. by rewrite last_snoc.
  - rewrite Hr, Hf. split; [done|]. split; [done|].
    split; [by rewrite last_snoc|done].
Qed.

(** ** Grouping by chapter *)

Lemma first_seen_snoc l x :
  first_seen (l ++ [x]) =
  if decide (x ∈ first_seen l) then first_seen l else first_seen l ++ [x].
Proof. unfold first_seen. by rewrite foldl_app. Qed.

Lemma first_seen_elem_of l x : x ∈ first_seen l ↔ x ∈ l.
Proof.
  induction l as [|y l IH] using rev_ind; [done|].
  rewrite first_seen_snoc. case_decide as Hy.
  - rewrite elem_of_app, list_elem_of_singleton, <- IH.
    split; [by left|]. intros [?| ->]; done.
  - by rewrite !elem_of_app, IH.
Qed.

Lemma first_seen_NoDup l : NoDup (first_seen l).
Proof.
  induction l as [|y l IH] using rev_ind; [constructor|].
  rewrite first_seen_snoc. case_decide as Hy; [done|].
  apply NoDup_app. split; [done|]. split; [|apply NoDup_singleton].
  intros z Hz ->%list_elem_of_singleton. done.
Qed.

Lemma group_of_snoc_same es e :
  group_of (es ++ [e]) (label_of e) =
  (label_of e, snd (group_of es (label_of e)) ++ [e]).
Proof.
  unfold group_of. simpl.
  by rewrite filter_app, filter_cons_True, filter_nil.
Qed.

Lemma group_of_snoc_other es e l :
  l ≠ label_of e → group_of (es ++ [e]) l = group_of es l.
Proof.
  intros Hne. unfold group_of.
  rewrite filter_app, filter_cons_False, filter_nil, app_nil_r; [done|].
  congruence.
Qed.

Lemma chapters_add_groups e es L :
  NoDup L →
  (label_of e ∉ L → filter (λ e', label_of e' = label_of e) es = []) →
  chapters_add (label_of e) e (group_of es <$> L) =
  group_of (es ++ [e])
    <$> (if decide (label_of e ∈ L) then L else L ++ [label_of e]).
Proof.
  induction L as [|l L IH]; intros Hnd Hfresh.
  - rewrite decide_False by apply not_elem_of_nil. simpl.
    rewrite group_of_snoc_same. unfold group_of. simpl.
    rewrite Hfresh by apply not_elem_of_nil. done.
  - apply NoDup_cons in Hnd as [Hl Hnd].
    rewrite fmap_cons. unfold group_of at 1. simpl chapters_add.
    destruct (decide (l = label_of e)) as [Heq|Hne].
    + rewrite <- Heq. rewrite decide_True by apply list_elem_of_here.
      rewrite fmap_cons. f_equal.
      * unfold group_of.
        by rewrite filter_app, filter_cons_True, filter_nil.
      * apply list_fmap_ext. intros i l' Hl'.
        apply list_elem_of_lookup_2 in Hl'. symmetry.
        apply group_of_snoc_other. intros E. rewrite <- Heq in E. by subst.
    + rewrite IH; [|done|].
      2:{ intros Hin. apply Hfresh. intros [?|?]%elem_of_cons; done. }
      destruct (decide (label_of e ∈ L)) as [Hin|Hnin].
      * rewrite decide_True by (by apply list_elem_of_further).
        rewrite fmap_cons, group_of_snoc_other by done. done.
      * rewrite decide_False by (intros [?|?]%elem_of_cons; done).
        simpl. rewrite group_of_snoc_other by done. done.
Qed.

Lemma chapters_spec_snoc es e :
  chapters_add (label_of e) e (chapters_spec es) = chapters_spec (es ++ [e]).
Proof.
  unfold chapters_spec. rewrite fmap_app.
  change (label_of <$> [e]) with [label_of e]. rewrite first_seen_snoc.
  apply chapters_add_groups; [apply first_seen_NoDup|].
  rewrite first_seen_elem_of. intros Hnin.
  induction es as [|e' es IH]; [done|].
  rewrite fmap_cons, not_elem_of_cons in Hnin. destruct Hnin as [Hne Hnin].
  rewrite filter_cons_False by done. by apply IH.
Qed.

Lemma group_chapters_spec entries : group_chapters entries = chapters_spec entries.
Proof.
  unfold group_chapters.
  change [] with (chapters_spec []) at 1.
  rewrite <- (app_nil_l entries) at 2.
  generalize (@nil ImageEntry) as done_.
  induction entries as [|e rest IH]; intros done_; simpl.
  - by rewrite app_nil_r.
  - fold (label_of e). rewrite chapters_spec_snoc, IH, <- app_assoc. done.
Qed.

Lemma chapters_spec_labelled entries :
  Forall (λ ch, snd ch ≠ [] ∧ Forall (λ e, label_of e = fst ch) (snd ch))
         (chapters_spec entries).
Proof.
  unfold chapters_spec. apply Forall_fmap, Forall_forall. intros l Hl. simpl.
  apply first_seen_elem_of, list_elem_of_fmap in Hl as (e & -> & He).
  split.
  - intros Hnil. assert (e ∈ filter (λ e', label_of e' = label_of e) entries) as Hin
      by (by apply list_elem_of_filter).
    rewrite Hnil in Hin. by apply not_elem_of_nil in Hin.
  - apply Forall_forall. by intros e' [? _]%list_elem_of_filter.
Qed.

Lemma chapters_add_perm x e chapters :
  concat (snd <$> chapters_add x e chapters) ≡ₚ e :: concat (snd <$> chapters).
Proof.
  induction chapters as [|[l pages] rest IH]; simpl; [done|].
  case_decide; simpl.
  - rewrite <- app_assoc. simpl. by rewrite <- Permutation_middle.
  - rewrite IH. by rewrite <- Permutation_middle.
Qed.

Lemma by_chapter_perm entries : by_chapter entries ≡ₚ entries.
Proof.
  unfold by_chapter. rewrite <- group_chapters_spec. unfold group_chapters.
  assert (∀ acc, concat (snd <$> foldl (λ chapters e,
             chapters_add (extract_chapter_label (fst e)) e chapters) acc entries)
          ≡ₚ concat (snd <$> acc) ++ entries) as H.
  { induction entries as [|e rest IH]; intros acc; simpl.
    - by rewrite app_nil_r.
    - rewrite IH, chapters_add_perm. by rewrite <- Permutation_middle. }
  by rewrite H.
Qed.

(** ** EPUB renderer *)

Lemma add_pages_spec f v ci label pages : ∀ pi first b,
  Forall (readable f) pages →
  ∃ b', add_pages f v ci label pi pages first b =
          Ok (match first with
              | Some p => Some p
              | None => head (imap (λ i e, page_html_of v ci label (pi + i) (snd e)) pages)
              end, b')
    ∧ b_spine b' = b_spine b ++ imap (λ i e, page_html_of v ci label (pi + i) (snd e)) pages
    ∧ b_toc b' = b_toc b.
Proof.
  induction pages as [|[rel full] rest IH]; intros pi first b Hread.
  - exists b. simpl. rewrite app_nil_r. by destruct first.
  - apply Forall_cons in Hread as [[data Hdata] Hrest]. simpl in Hdata.
    simpl add_pages. unfold make_page. rewrite Hdata.
    destruct (IH (S pi)
                (match first with
                 | Some p => Some p
                 | None => Some (page_html_of v ci label pi full)
                 end)
                (mkBuilding
                   (b_items b ++
                    [ItemImage (mkItem (img_id_of v ci pi)
                                  (img_file_name_of v ci pi full)
                                  (guess_mime full) data);
                     ItemPage (page_html_of v ci label pi full)])
                   (b_spine b ++ [page_html_of v ci label pi full])
                   (b_toc b)) Hrest) as (b' & Heq & Hsp & Htoc).
    exists b'. rewrite Heq. simpl in Hsp, Htoc.
    rewrite imap_cons, Nat.add_0_r. simpl.
    split; [by destruct first|]. split; [|done].
    rewrite Hsp, <- app_assoc. simpl. do 2 f_equal.
    apply imap_ext. intros i e _. simpl. f_equal. lia.
Qed.

Lemma add_chapters_spec f v chapters : ∀ ci b,
  Forall (λ ch, Forall (readable f) (snd ch)) chapters →
  ∃ b', add_chapters f v ci chapters b = Ok b'
    ∧ b_spine b' =
      b_spine b ++ concat (imap (λ k, chapter_pages v (S (ci + k))) chapters)
    ∧ b_toc b' =
      b_toc b ++ concat (imap (λ k, chapter_link v (S (ci + k))) chapters).
Proof.
  induction chapters as [|[label pages] rest IH]; intros ci b Hread.
  - exists b. simpl. by rewrite !app_nil_r.
  - apply Forall_cons in Hread as [Hpages Hrest]. simpl in Hpages.
    simpl add_chapters.
    destruct (add_pages_spec f v (S ci) label pages 1 None b Hpages)
      as (b1 & -> & Hsp1 & Htoc1).
    set (b2 := match head _ with Some p => _ | None => b1 end).
    destruct (IH (S ci) b2 Hrest) as (b' & -> & Hsp & Htoc).
    exists b'. split; [done|].
    rewrite !imap_cons, !Nat.add_0_r. simpl concat.
    assert (b_spine b2 = b_spine b ++ chapter_pages v (S ci) (label, pages)) as Hsp2.
    { subst b2. unfold chapter_pages. simpl. by destruct (head _). }
    assert (b_toc b2 = b_toc b ++ chapter_link v (S ci) (label, pages)) as Htoc2.
    { subst b2. unfold chapter_link. simpl.
      destruct pages as [|[rel full] pages']; simpl.
      - by rewrite app_nil_r.
      - by rewrite Htoc1. }
    rewrite Hsp, Htoc, Hsp2, Htoc2, <- !app_assoc. split.
    + do 3 f_equal. apply imap_ext. intros k ch _. simpl. do 2 f_equal. lia.
    + do 3 f_equal. apply imap_ext. intros k ch _. simpl. do 2 f_equal. lia.
Qed.

Lemma Forall2_imap_same {A B} (P : B → A → Prop) (l : list A) : ∀ (g : nat → A → B),
  (∀ i x, l !! i = Some x → P (g i x) x) → Forall2 P (imap g l) l.
Proof.
  induction l as [|x l IH]; intros g Hg; simpl; constructor.
  - by apply (Hg 0).
  - apply IH. intros i y Hy. by apply (Hg (S i)).
Qed.

Lemma Forall2_concat_imap {A B C} (P : B → A → Prop) (chs : list (C * list A)) :
  ∀ (G : nat → C * list A → list B),
  (∀ k ch, chs !! k = Some ch → Forall2 P (G k ch) (snd ch)) →
  Forall2 P (concat (imap G chs)) (concat (snd <$> chs)).
Proof.
  induction chs as [|ch chs IH]; intros G HG; simpl; [constructor|].
  apply Forall2_app.
  - by apply (HG 0).
  - apply IH. intros k ch' Hk. by apply (HG (S k)).
Qed.

Lemma spine_shows_by_chapter v entries :
  Forall2 (shows v) (spine_of_chapters v (chapters_spec entries))
          (by_chapter entries).
Proof.
  unfold spine_of_chapters, by_chapter.
  apply Forall2_concat_imap. intros k ch Hk.
  pose proof (chapters_spec_labelled entries) as Hlab.
  rewrite Forall_forall in Hlab.
  destruct (Hlab ch (list_elem_of_lookup_2 _ _ _ Hk)) as [_ Hch].
  unfold chapter_pages. apply Forall2_imap_same. intros i e He.
  rewrite Forall_forall in Hch.
  exists (S k), (S i). by rewrite (Hch e (list_elem_of_lookup_2 _ _ _ He)).
Qed.

Lemma toc_titles v entries :
  link_title <$> toc_of_chapters v (chapters_spec entries)
  = first_seen (label_of <$> entries).
Proof.
  assert (∀ (chs : list (string * list ImageEntry)) (G : nat → nat),
            Forall (λ ch, snd ch ≠ []) chs →
            link_title <$> concat (imap (λ k, chapter_link v (G k)) chs)
            = fst <$> chs) as H.
  { induction chs as [|[l pages] chs IH]; intros G Hne; [done|].
    apply Forall_cons in Hne as [Hp Hne]. simpl in Hp.
    rewrite imap_cons. simpl concat. rewrite fmap_app, fmap_cons.
    rewrite <- (IH (G ∘ S) Hne). f_equal.
    unfold chapter_link. simpl. by destruct pages. }
  unfold toc_of_chapters. rewrite (H _ S).
  - unfold chapters_spec. rewrite <- list_fmap_compose.
    rewrite <- (list_fmap_id (first_seen _)) at 2.
    by apply list_fmap_ext.
  - eapply Forall_impl; [apply chapters_spec_labelled|]. by intros ch [? _].
Qed.

Lemma spine_length v entries :
  length (spine_of_chapters v (chapters_spec entries)) = length entries.
Proof.
  rewrite (Forall2_length _ _ _ (spine_shows_by_chapter v entries)).
  by rewrite by_chapter_perm.
Qed.

Lemma chapters_spec_readable f entries :
  Forall (readable f) entries →
  Forall (λ ch, Forall (readable f) (snd ch)) (chapters_spec entries).
Proof.
  intros Hread. unfold chapters_spec. apply Forall_fmap, Forall_forall.
  intros l _. simpl. apply Forall_forall. intros e [_ He]%list_elem_of_filter.
  rewrite Forall_forall in Hread. by apply Hread.
Qed.

(** ** When regrouping changes nothing *)

Lemma chapters_add_new x e chs :
  x ∉ (fst <$> chs) → chapters_add x e chs = chs ++ [(x, [e])].
Proof.
  induction chs as [|[l pages] chs IH]; intros Hx; simpl; [done|].
  rewrite fmap_cons, not_elem_of_cons in Hx. destruct Hx as [Hne Hx].
  rewrite decide_False by done. by rewrite IH.
Qed.

Lemma chapters_add_last x e chs g :
  x ∉ (fst <$> chs) →
  chapters_add x e (chs ++ [(x, g)]) = chs ++ [(x, g ++ [e])].
Proof.
  induction chs as [|[l pages] chs IH]; intros Hx; simpl.
  - by rewrite decide_True.
  - rewrite fmap_cons, not_elem_of_cons in Hx. destruct Hx as [Hne Hx].
    rewrite decide_False by done. by rewrite IH.
Qed.

Lemma chapters_spec_labels entries :
  fst <$> chapters_spec entries = first_seen (label_of <$> entries).
Proof.
  unfold chapters_spec. rewrite <- list_fmap_compose.
  rewrite <- (list_fmap_id (first_seen _)) at 2. by apply list_fmap_ext.
Qed.

Lemma snoc_cases {A} (l : list A) : l = [] ∨ ∃ l' x, l = l' ++ [x].
Proof. induction l using rev_ind; eauto. Qed.

Lemma concat_chapters_add chs e es :
  NoDup (fst <$> chs) →
  Forall (λ ch, snd ch ≠ [] ∧ Forall (λ a, label_of a = fst ch) (snd ch)) chs →
  concat (snd <$> chs) = es →
  (∀ a, a ∈ es → label_of a = label_of e →
     ∃ es0 z, es = es0 ++ [z] ∧ label_of z = label_of e) →
  concat (snd <$> chapters_add (label_of e) e chs) = es ++ [e].
Proof.
  intros Hnd Hlab Hcat Hlast.
  destruct (decide (label_of e ∈ (fst <$> chs))) as [Hin|Hnin].
  2:{ rewrite chapters_add_new by done.
      by rewrite fmap_app, concat_app, Hcat. }
  (* some entry has the label of [e], so the last entry has it *)
  apply list_elem_of_fmap in Hin as ([l1 g1] & Hl1 & Hin1). simpl in Hl1.
  pose proof Hlab as Hlab1. rewrite Forall_forall in Hlab1.
  destruct (Hlab1 _ Hin1) as [Hg1 Hg1l]. simpl in Hg1, Hg1l.
  destruct g1 as [|a g1]; [done|].
  apply Forall_cons in Hg1l as [Ha _].
  assert (a ∈ es) as Haes.
  { rewrite <- Hcat. apply list_elem_of_In, in_concat. exists (a :: g1).
    split; [|by left].
    apply list_elem_of_In, list_elem_of_fmap. by exists (l1, a :: g1). }
  destruct (Hlast a Haes ltac:(congruence)) as (es0 & z & Hes & Hz).
  (* the last group ends with the last entry *)
  destruct (snoc_cases chs) as [->|(chs' & [l g] & ->)].
  { by apply not_elem_of_nil in Hin1. }
  rewrite Forall_app, Forall_singleton in Hlab. destruct Hlab as [_ [Hg Hgl]].
  simpl in Hg, Hgl.
  destruct (snoc_cases g) as [->|(g' & z' & ->)]; [done|].
  rewrite Forall_app, Forall_singleton in Hgl. destruct Hgl as [_ Hz'].
  pose proof Hcat as Hcat0.
  rewrite fmap_app, concat_app in Hcat. simpl in Hcat.
  rewrite app_nil_r, app_assoc, Hes in Hcat.
  apply app_inj_tail in Hcat as [_ ->].
  assert (l = label_of e) as -> by congruence.
  rewrite fmap_app in Hnd. apply NoDup_app in Hnd as (_ & Hdisj & _).
  rewrite chapters_add_last.
  - rewrite <- Hcat0, !fmap_app, !concat_app. simpl.
    by rewrite !app_nil_r, !app_assoc.
  - intros Hin'. apply (Hdisj (label_of e) Hin'). simpl. apply list_elem_of_here.
Qed.

Lemma labels_adjacent_prefix es e : labels_adjacent (es ++ [e]) → labels_adjacent es.
Proof.
  intros H i j k a b c Hij Hjk Ha Hb Hc.
  apply (H i j k); [done|done| | |]; by apply lookup_app_l_Some.
Qed.

Lemma labels_adjacent_last es e a :
  labels_adjacent (es ++ [e]) → a ∈ es → label_of a = label_of e →
  ∃ es0 z, es = es0 ++ [z] ∧ label_of z = label_of e.
Proof.
  intros Hadj Ha Hlab.
  destruct (snoc_cases es) as [->|(es0 & z & ->)].
  { by apply not_elem_of_nil in Ha. }
  exists es0, z. split; [done|].
  apply list_elem_of_lookup in Ha as [i Hi].
  pose proof (lookup_lt_Some _ _ _ Hi) as Hlt.
  rewrite length_app in Hlt. simpl in Hlt.
  destruct (decide (i = length es0)) as [->|Hne].
  - rewrite lookup_app_r, Nat.sub_diag in Hi by lia. simpl in Hi. congruence.
  - apply (Hadj i (length es0) (S (length es0)) a z e); [lia|lia| | | |done].
    + by apply lookup_app_l_Some.
    + apply lookup_app_l_Some. rewrite lookup_app_r, Nat.sub_diag by lia. done.
    + rewrite lookup_app_r; rewrite length_app; simpl; [|lia].
      replace (S (length es0) - (length es0 + 1)) with 0 by lia. done.
Qed.

Lemma by_chapter_adjacent entries :
  labels_adjacent entries → by_chapter entries = entries.
Proof.
  induction entries as [|e es IH] using rev_ind; intros Hadj; [done|].
  specialize (IH (labels_adjacent_prefix _ _ Hadj)).
  unfold by_chapter in *. rewrite <- chapters_spec_snoc.
  apply concat_chapters_add.
  - rewrite chapters_spec_labels. apply first_seen_NoDup.
  - apply chapters_spec_labelled.
  - exact IH.
  - intros a Ha Hlab. by eapply labels_adjacent_last.
Qed.

(** C6, amended: for a volume with images, all of them readable, the
    renderer writes one EPUB whose table of contents has the distinct
    chapter labels in the order of their first occurrence, each entry
    linking to the first page of its chapter and to no other page, and
    whose spine has one page per image, in the collector's order regrouped
    by chapter label: the chapters in the order of their first occurrence,
    the pages of a chapter in collector order.  That order is the
    collector's own whenever the entries of each label are adjacent in
    it. *)
Theorem epub_toc_and_spine os_walk v w :
  let entries := collect_images_for_volume (os_walk (fs w)) v in
  entries ≠ [] →
  Forall (readable (fs w)) entries →
  ∃ book w',
    build_epub_for_volume os_walk v w = (Ok (), w')
    ∧ fs w' = <[epub_path_of v := File (EpubDoc book)]> (fs w)
    ∧ book_toc book = toc_of_chapters v (chapters_spec entries)
    ∧ link_title <$> book_toc book = first_seen (label_of <$> entries)
    ∧ book_spine book = spine_of_chapters v (chapters_spec entries)
    ∧ length (book_spine book) = length entries
    ∧ Forall2 (shows v) (book_spine book) (by_chapter entries)
    ∧ by_chapter entries ≡ₚ entries
    ∧ (labels_adjacent entries → by_chapter entries = entries).
Proof.
  intros entries Hne Hread. unfold build_epub_for_volume. fold entries.
  destruct entries as [|e0 rest] eqn:Ee; [done|]. clear Hne.
  rewrite group_chapters_spec.
  destruct (add_chapters_spec (fs w) v (chapters_spec (e0 :: rest)) 0
              (mkBuilding [] [] [])
              (chapters_spec_readable _ _ Hread)) as (b & Hb & Hsp & Htoc).
  simpl in Hsp, Htoc. change (fs (print _ w)) with (fs w). rewrite Hb.
  eexists _, _. split; [done|]. simpl.
  fold (spine_of_chapters v (chapters_spec (e0 :: rest))) in Hsp.
  fold (toc_of_chapters v (chapters_spec (e0 :: rest))) in Htoc.
  rewrite Hsp, Htoc. split_and!; try done.
  - apply toc_titles.
  - apply spine_length.
  - apply spine_shows_by_chapter.
  - apply by_chapter_perm.
  - apply by_chapter_adjacent.
Qed.

Lemma collect_split :
  collect_images_for_volume walk_split "01" =
  [ ("Digital Colored Comics v01/Chapter 1 - A/01.jpg",
     "chainsaw_man_colored/Digital Colored Comics v01/Chapter 1 - A/01.jpg");
    ("Digital Colored Comics v01/Chapter 1 - B/01.png",
     "chainsaw_man_colored/Digital Colored Comics v01/Chapter 1 - B/01.png");
    ("Digital Colored Comics v01/Chapter 1 - A/02.jpg",
     "chainsaw_man_colored/Digital Colored Comics v01/Chapter 1 - A/02.jpg") ].
Proof. by vm_compute. Qed.

Lemma epub_toc_and_spine_witness :
  ∃ book w',
    build_epub_for_volume (λ _, walk_split) "01" world_split = (Ok (), w')
    ∧ link_title <$> book_toc book = ["Chapter 1 - A"; "Chapter 1 - B"]
    ∧ length (book_spine book) = 3
    ∧ Forall2 (shows "01") (book_spine book)
        (by_chapter (collect_images_for_volume walk_split "01")).
Proof.
  destruct (epub_toc_and_spine (λ _, walk_split) "01" world_split)
    as (book & w' & Hb & _ & _ & Htitles & _ & Hlen & Hshows & _ & _).
  - cbv beta. rewrite collect_split. discriminate.
  - cbv beta. rewrite collect_split.
    repeat constructor; eexists; vm_compute; reflexivity.
  - exists book, w'. split; [exact Hb|].
    cbv beta in Htitles, Hlen, Hshows. rewrite collect_split in Htitles, Hlen.
    split; [exact Htitles|]. split; [exact Hlen|exact Hshows].
Defined.

(** C6 as worded fails: chapter 1 of the volume below is spread over two
    directories, the collector orders its pages A/01, B/01, A/02, and the
    spine has them chapter by chapter, A/01, A/02, B/01: the second page of
    the spine is not one made for the second entry of the collector. *)
Lemma epub_as_worded_fails :
  ∃ book,
    epub_written "01" (snd (build_epub_for_volume (λ _, walk_split) "01" world_split))
    = Some book
    ∧ ¬ epub_as_worded "01" (collect_images_for_volume walk_split "01") book.
Proof.
  eexists. split; [by vm_compute|].
  intros (_ & _ & _ & H). rewrite collect_split in H.
  inversion H as [|? ? ? ? _ H2]; subst.
  inversion H2 as [|? ? ? ? Hs _]; subst.
  destruct Hs as (ci & pi & Heq).
  apply (f_equal html_title) in Heq. vm_compute in Heq. discriminate.
Qed.

(** ** Errors that leave the run *)

(** C7, the code at the failing inputs.  The EPUB run stops at the first
    image it cannot read, in volume 01, and never builds volume 02, while
    the PDF renderer on the same tree leaves that image out and saves both
    volumes.  In the download stage an error of directory creation leaves
    the worker and, through the report of the batch, the run.  A failure of
    the first page fetch ends the run as well.  The decimal digits beyond
    ASCII play no part in these runs. *)
Theorem epub_run_stops_at_unreadable_image nd :
  fst (epub_main (λ _, walk_dangling) world_dangling)
  = Raise "FileNotFoundError: chainsaw_man_colored/Digital Colored Comics v01/Chapter 1/01.jpg"
  ∧ epub_written "01" (snd (epub_main (λ _, walk_dangling) world_dangling)) = None
  ∧ epub_written "02" (snd (epub_main (λ _, walk_dangling) world_dangling)) = None
  ∧ (let w := foldl (λ acc v, build_pdf_for_volume (λ _, walk_dangling)
                                decode_any convert_any v acc)
                    world_dangling ["01"; "02"] in
     fs w !! pdf_path_of "01" = Some (File (PdfDoc [mkImage "RGB" "p2"]))
     ∧ fs w !! pdf_path_of "02" = Some (File (PdfDoc [mkImage "RGB" "q1"])))
  ∧ fst (main nd (λ _, []) decode_any convert_any net_nested world0)
    = Raise "FileExistsError: chainsaw_man_colored/Chainsaw Man (Digitally Colored)/x.jpg"
  ∧ fst (main nd (λ _, []) decode_any convert_any net_down world0)
    = Raise "unreachable".
Proof. by vm_compute. Qed.

(** * Further properties of the program *)

(** ** The records of the page *)

Lemma startswith_cons_ne c d s t :
  c ≠ d → Str.startswith (String c s) (String d t) = false.
Proof.
  intros Hne. unfold Str.startswith. simpl. by rewrite decide_False by congruence.
Qed.

Lemma all_not_slash_no_lead s :
  Str.all not_slash s = true → Str.startswith s "/" = false.
Proof.
  destruct s as [|c s]; [done|]. simpl. intros [Hc _]%andb_true_iff.
  apply startswith_cons_ne. intros ->. by vm_compute in Hc.
Qed.

Lemma inner_path_of_no_lead decoded :
  Str.startswith (inner_path_of decoded) "/" = false.
Proof.
  destruct (inner_path_of_spec decoded) as [(pre & _ & [rest ->] & _)|[_ [Hall _]]].
  - done.
  - by apply all_not_slash_no_lead.
Qed.

Lemma local_path_under_root inner :
  Str.startswith inner "/" = false →
  path_join OUTPUT_ROOT inner = OUTPUT_ROOT +:+ "/" +:+ inner.
Proof. intros H. unfold path_join. by rewrite H. Qed.

(** Every record the extractor returns comes from an href of the page, has
    that href's URL with its scheme normalized to http or https, a volume
    of two digits inside the configured range, and an inner path that does
    not start with a slash, so that its target is the output root, a slash
    and the inner path. *)
Theorem parsed_records_well_formed nd html r :
  r ∈ parse_image_links nd html → record_well_formed html r.
Proof.
  unfold parse_image_links. intros (href & Hin & Hr)%list_elem_of_omap.
  exists href. split; [done|].
  pose proof (link_of_href_inner _ _ _ Hr) as Hinner.
  assert (is_Some (link_of_href nd href)) as Hsome by eauto.
  apply link_of_href_Some in Hsome as [Hscheme _].
  unfold link_of_href in Hr.
  destruct (full_url_of href) as [u|] eqn:Eu; [|done].
  apply full_url_of_normalize in Eu. subst u.
  destruct (re_search (vol_pattern nd) (unquote href)) as [v|] eqn:Ev; [|done].
  case_decide as Hv; [|done]. injection Hr as <-. simpl in *.
  destruct (target_volumes_digits v Hv) as (d1 & d2 & -> & D1 & D2).
  split_and!; try done.
  - exists d1, d2. split_and!; try done. by apply target_volumes_range.
  - apply inner_path_of_no_lead.
  - apply local_path_under_root, inner_path_of_no_lead.
Qed.

Lemma parsed_records_well_formed_witness :
  record_well_formed sample_html sample_record.
Proof.
  apply (parsed_records_well_formed digits_arabic_indic).
  assert (parse_image_links digits_arabic_indic sample_html = [sample_record]) as ->
    by (by vm_compute).
  apply list_elem_of_here.
Defined.

(** ** The collector and the order of the directory walk *)

Lemma sorted_perm_unique {A} (R : A → A → Prop) (l1 : list A) : ∀ l2,
  StronglySorted R l1 → StronglySorted R l2 → l1 ≡ₚ l2 →
  (∀ a b, a ∈ l1 → b ∈ l1 → R a b → R b a → a = b) →
  l1 = l2.
Proof.
  induction l1 as [|x l1 IH]; intros l2 Hs1 Hs2 Hp Hanti.
  - by apply Permutation_nil_l in Hp.
  - destruct l2 as [|y l2]; [by apply Permutation_nil_r in Hp|].
    apply StronglySorted_inv in Hs1 as [Hs1 Hx].
    apply StronglySorted_inv in Hs2 as [Hs2 Hy].
    rewrite Forall_forall in Hx, Hy.
    assert (x = y) as <-.
    { assert (x ∈ y :: l2) as Hxin by (rewrite <- Hp; apply list_elem_of_here).
      assert (y ∈ x :: l1) as Hyin by (rewrite Hp; apply list_elem_of_here).
      apply elem_of_cons in Hxin as [->|Hxin]; [done|].
      apply elem_of_cons in Hyin as [->|Hyin]; [done|].
      apply Hanti; [apply list_elem_of_here|by apply list_elem_of_further| |].
      - by apply Hx.
      - by apply Hy. }
    f_equal. apply Permutation_cons_inv in Hp.
    apply IH; [done|done|done|].
    intros a b Ha Hb. apply Hanti; by apply list_elem_of_further.
Qed.

Lemma key_le_antisym k1 k2 :
  key_le k1 k2 = true → key_le k2 k1 = true → k1 = k2.
Proof.
  destruct k1 as [[c1 p1] r1], k2 as [[c2 p2] r2]. rewrite !key_le_spec.
  intros [?|[-> [?|[-> H12]]]] [?|[? [?|[? H21]]]]; try lia.
  by rewrite (str_le_antisym _ _ H12 H21).
Qed.

(** The output of the collector does not depend on the order in which the
    directory walk lists directories and files: two walks that yield the
    same entries, no two of them with one relative path, give the same
    list. *)
Theorem collector_independent_of_walk_order walk1 walk2 v :
  gather_images walk1 v ≡ₚ gather_images walk2 v →
  rel_path_determines (gather_images walk1 v) →
  collect_images_for_volume walk1 v = collect_images_for_volume walk2 v.
Proof.
  intros Hp Hdet. unfold collect_images_for_volume.
  apply (sorted_perm_unique (λ a b, key_le (entry_key a) (entry_key b) = true)).
  - apply sort_by_sorted; [apply key_le_total|apply key_le_trans].
  - apply sort_by_sorted; [apply key_le_total|apply key_le_trans].
  - by rewrite !sort_by_perm.
  - intros a b Ha Hb Hab Hba. rewrite sort_by_perm in Ha, Hb.
    apply Hdet; [done|done|].
    pose proof (key_le_antisym _ _ Hab Hba) as Hk.
    unfold entry_key, _sort_key_for_relpath in Hk. by injection Hk.
Qed.

Lemma collector_independent_of_walk_order_witness :
  collect_images_for_volume walk_cover "01"
  = collect_images_for_volume walk_cover_reversed "01".
Proof.
  apply collector_independent_of_walk_order.
  - assert (gather_images walk_cover_reversed "01"
            = reverse (gather_images walk_cover "01")) as -> by (by vm_compute).
    by rewrite reverse_Permutation.
  - assert (NoDup (fst <$> gather_images walk_cover "01")) as Hnd.
    { apply (bool_decide_unpack _). by vm_compute. }
    intros a b Ha Hb Hab.
    apply list_elem_of_lookup in Ha as [i Hi], Hb as [j Hj].
    assert (i = j) as ->; [|congruence].
    eapply NoDup_lookup; [exact Hnd| |];
      rewrite list_lookup_fmap; [by rewrite Hi|by rewrite Hj, Hab].
Defined.

(** ** Chapter labels and chapter numbers *)

Lemma span_app f a b :
  Str.all f a = true →
  match b with EmptyString => True | String c _ => f c = false end →
  Str.span f (a +:+ b) = (a, b).
Proof.
  intros Ha Hb. induction a as [|c a IH]; str_simpl.
  - destruct b as [|c b]; [done|]. simpl. by rewrite Hb.
  - simpl in Ha. apply andb_true_iff in Ha as [Hc Ha].
    rewrite Hc, (IH Ha). done.
Qed.

Lemma digit_not_space c : Str.is_digit c = true → Str.is_space c = false.
Proof. destruct c as [[] [] [] [] [] [] [] []]; by vm_compute. Qed.

(** The label found at a place has, read as a path of its own, the chapter
    digits found at that place. *)
Lemma label_pattern_chapter suf :
  match label_pattern suf with
  | Some lab => is_Some (chapter_pattern suf)
                ∧ chapter_pattern lab = chapter_pattern suf
  | None => chapter_pattern suf = None
  end.
Proof.
  unfold label_pattern, chapter_pattern.
  destruct (Str.strip_prefix "Chapter" suf) as [rest|] eqn:Ep; [|done].
  destruct (Str.span Str.is_space rest) as [ws rest1] eqn:Ews.
  destruct (Str.span Str.is_digit rest1) as [ds rest2] eqn:Eds.
  destruct (Str.span not_slash rest2) as [tail rest3] eqn:Et.
  destruct ws as [|w ws]; [done|]. destruct ds as [|d ds]; [done|].
  split; [by eauto|].
  apply span_spec in Ews as (_ & Hws & _).
  apply span_spec in Eds as (_ & Hds & Hstop).
  apply span_spec in Et as (-> & _ & _).
  assert (Str.strip_prefix "Chapter"
            ("Chapter" +:+ String w ws +:+ String d ds +:+ tail)
          = Some (String w ws +:+ String d ds +:+ tail)) as ->
    by (by apply strip_prefix_Some).
  rewrite (span_app Str.is_space (String w ws) (String d ds +:+ tail) Hws).
  2:{ rewrite string_app_cons. apply digit_not_space.
      simpl in Hds. by apply andb_true_iff in Hds as [? _]. }
  rewrite (span_app Str.is_digit (String d ds) tail Hds); [done|].
  destruct tail as [|t tail]; [done|]. by rewrite string_app_cons in Hstop.
Qed.

Lemma chapter_match_label rel_path :
  chapter_match rel_path = chapter_pattern (extract_chapter_label rel_path).
Proof.
  unfold chapter_match, extract_chapter_label.
  induction rel_path as [|c s IH].
  - rewrite (re_search_unfold chapter_pattern ""), (re_search_unfold label_pattern "").
    pose proof (label_pattern_chapter "") as H.
    destruct (label_pattern "") as [lab|]; [|rewrite H; by vm_compute].
    destruct H as [[ds Hds] Hlab]. by rewrite Hds, Hlab, Hds.
  - rewrite (re_search_unfold chapter_pattern (String c s)),
      (re_search_unfold label_pattern (String c s)).
    pose proof (label_pattern_chapter (String c s)) as H.
    destruct (label_pattern (String c s)) as [lab|].
    + destruct H as [[ds Hds] Hlab]. by rewrite Hds, Hlab, Hds.
    + by rewrite H.
Qed.

Lemma same_label_same_chapter a b :
  label_of a = label_of b → chapter_key a = chapter_key b.
Proof.
  unfold label_of, chapter_key. intros H. by rewrite !chapter_match_label, H.
Qed.

Lemma entry_key_chapter e : fst (fst (entry_key e)) = chapter_key e.
Proof. done. Qed.

Lemma collect_chapter_monotone walk v i j a b :
  i < j →
  collect_images_for_volume walk v !! i = Some a →
  collect_images_for_volume walk v !! j = Some b →
  (chapter_key a <= chapter_key b)%N.
Proof.
  intros Hij Hi Hj. pose proof (collect_sorted walk v i j a b Hij Hi Hj) as H.
  rewrite <- !entry_key_chapter.
  destruct (entry_key a) as [[c1 p1] r1], (entry_key b) as [[c2 p2] r2].
  apply key_le_spec in H. simpl. lia.
Qed.

Lemma collect_labels_adjacent walk v :
  one_label_per_chapter (collect_images_for_volume walk v) →
  labels_adjacent (collect_images_for_volume walk v).
Proof.
  intros Hone i j k a b c Hij Hjk Ha Hb Hc Hac.
  apply Hone; [by eapply list_elem_of_lookup_2..|].
  pose proof (collect_chapter_monotone walk v i j a b Hij Ha Hb).
  pose proof (collect_chapter_monotone walk v j k b c Hjk Hb Hc).
  pose proof (same_label_same_chapter a c Hac). lia.
Qed.

(** The book the renderer writes for a volume with images that can all be
    read. *)
Lemma build_epub_written os_walk v w :
  let entries := collect_images_for_volume (os_walk (fs w)) v in
  entries ≠ [] →
  Forall (readable (fs w)) entries →
  ∃ book w',
    build_epub_for_volume os_walk v w = (Ok (), w')
    ∧ fs w' = <[epub_path_of v := File (EpubDoc book)]> (fs w)
    ∧ requests w' = requests w
    ∧ book_toc book = toc_of_chapters v (chapters_spec entries)
    ∧ book_spine book = spine_of_chapters v (chapters_spec entries).
Proof.
  intros entries Hne Hread. unfold build_epub_for_volume. fold entries.
  destruct entries as [|e0 rest] eqn:Ee; [done|]. clear Hne.
  rewrite group_chapters_spec.
  destruct (add_chapters_spec (fs w) v (chapters_spec (e0 :: rest)) 0
              (mkBuilding [] [] [])
              (chapters_spec_readable _ _ Hread)) as (b & Hb & Hsp & Htoc).
  simpl in Hsp, Htoc. change (fs (print _ w)) with (fs w). rewrite Hb.
  eexists _, _. split; [done|]. simpl.
  fold (spine_of_chapters v (chapters_spec (e0 :: rest))) in Hsp.
  fold (toc_of_chapters v (chapters_spec (e0 :: rest))) in Htoc.
  by rewrite Hsp, Htoc.
Qed.

(** Entries with one label have one chapter number, so that when, the
    other way round, the entries of a volume with one chapter number have
    one label (each chapter in a directory of its own), the entries of each
    label are adjacent in the collector's order and the spine of the EPUB
    shows the images in exactly the collector's order. *)
Theorem spine_in_collector_order os_walk v w :
  let entries := collect_images_for_volume (os_walk (fs w)) v in
  entries ≠ [] →
  Forall (readable (fs w)) entries →
  one_label_per_chapter entries →
  (∀ a b, label_of a = label_of b → chapter_key a = chapter_key b)
  ∧ labels_adjacent entries
  ∧ ∃ book w',
      build_epub_for_volume os_walk v w = (Ok (), w')
      ∧ epub_written v w' = Some book
      ∧ Forall2 (shows v) (book_spine book) entries.
Proof.
  intros entries Hne Hread Hone.
  split; [apply same_label_same_chapter|].
  pose proof (collect_labels_adjacent _ _ Hone) as Hadj.
  split; [done|].
  destruct (build_epub_written os_walk v w Hne Hread)
    as (book & w' & Hb & Hfs & _ & _ & Hsp).
  exists book, w'. split; [done|]. split.
  - unfold epub_written. by rewrite Hfs, lookup_insert_eq.
  - rewrite Hsp. fold entries. rewrite <- (by_chapter_adjacent entries Hadj) at 2.
    apply spine_shows_by_chapter.
Qed.

Lemma collect_plain :
  collect_images_for_volume walk_plain "01" =
  [ ("Digital Colored Comics v01/Chapter 1 - Dog/01.png",
     "chainsaw_man_colored/Digital Colored Comics v01/Chapter 1 - Dog/01.png");
    ("Digital Colored Comics v01/Chapter 1 - Dog/02.jpg",
     "chainsaw_man_colored/Digital Colored Comics v01/Chapter 1 - Dog/02.jpg");
    ("Digital Colored Comics v01/Chapter 2 - Bat/01.jpg",
     "chainsaw_man_colored/Digital Colored Comics v01/Chapter 2 - Bat/01.jpg") ].
Proof. by vm_compute. Qed.

Lemma spine_in_collector_order_witness :
  ∃ book w',
    build_epub_for_volume (λ _, walk_plain) "01" world_plain = (Ok (), w')
    ∧ epub_written "01" w' = Some book
    ∧ Forall2 (shows "01") (book_spine book)
        (collect_images_for_volume walk_plain "01").
Proof.
  apply (spine_in_collector_order (λ _, walk_plain) "01" world_plain).
  - cbv beta. rewrite collect_plain. discriminate.
  - cbv beta. rewrite collect_plain.
    repeat constructor; eexists; vm_compute; reflexivity.
  - cbv beta. rewrite collect_plain. intros a b Ha Hb.
    apply list_elem_of_In in Ha, Hb. simpl in Ha, Hb.
    destruct Ha as [<-|[<-|[<-|[]]]], Hb as [<-|[<-|[<-|[]]]];
      vm_compute; congruence.
Defined.

(** ** The sort key of a documented path *)

Lemma all_app f a b : Str.all f (a +:+ b) = Str.all f a && Str.all f b.
Proof. induction a as [|c a IH]; str_simpl; [done|]. by rewrite IH, andb_assoc. Qed.

Lemma all_rev f s : Str.all f (Str.rev s) = Str.all f s.
Proof.
  induction s as [|c s IH]; [done|].
  rewrite rev_cons, all_app, IH. simpl. rewrite andb_true_r. apply andb_comm.
Qed.

Lemma basename_after_slash dir name :
  Str.all not_slash name = true → basename (dir +:+ "/" +:+ name) = name.
Proof.
  intros Hname. unfold basename.
  rewrite rev_app, rev_app. rewrite string_app_assoc.
  rewrite (span_app not_slash (Str.rev name)); [apply rev_involutive| |done].
  by rewrite all_rev.
Qed.















Example sort_key_docstring :
  _sort_key_for_relpath "Chainsaw Man .../Chapter 10 - Kon/03.jpg"
  = (10%N, 3%N, "Chainsaw Man .../Chapter 10 - Kon/03.jpg").
Proof. by vm_compute. Qed.

(** ** What a batch of downloads leaves alone *)

Lemma only_new_dirs_subseteq (f f' : FS) : only_new_dirs f f' → f ⊆ f'.
Proof.
  intros H. apply map_subseteq_spec. intros p x Hp.
  destruct (H p) as [->|[Hn _]]; [done|congruence].
Qed.

Lemma download_one_keeps net item retries base w :
  fs w ⊆ fs (snd (_download_one net item retries base w)).
Proof.
  unfold _download_one.
  destruct (makedirs _ (fs w)) as [[[]|e] fs1] eqn:Em;
    pose proof (only_new_dirs_subseteq _ _ (makedirs_new_dirs _ _ _ _ Em)) as Hsub;
    [|done].
  destruct (path_exists fs1 (local_path_of item)) eqn:Ex; [done|].
  destruct (attempt_loop _ _ _ _ _ _ _ _ _) as [o w2] eqn:Ea. simpl.
  apply attempt_loop_effects in Ea as (_ & _ & _ & _ & _ & Hother & _).
  simpl in Hother. etrans; [exact Hsub|].
  apply map_subseteq_spec. intros p x Hp. rewrite Hother; [done|].
  intros ->. apply path_exists_false in Ex. congruence.
Qed.

Lemma run_workers_keeps net items w :
  fs w ⊆ fs (snd (run_workers net items w)).
Proof.
  revert w. induction items as [|item rest IH]; intros w; simpl; [done|].
  pose proof (download_one_keeps net item DEFAULT_RETRIES DEFAULT_BACKOFF w) as H1.
  destruct (_download_one _ _ _ _ w) as [r w1]. simpl in H1.
  specialize (IH w1). destruct (run_workers net rest w1) as [rs w2]. simpl in *.
  by etrans.
Qed.

Lemma report_results_state rs w :
  fs (snd (report_results rs w)) = fs w
  ∧ requests (snd (report_results rs w)) = requests w
  ∧ sleeps (snd (report_results rs w)) = sleeps w.
Proof.
  revert w. induction rs as [|[o|e] rs IH]; intros w; simpl; [done| |done].
  destruct (IH (print (msg_of_outcome o) w)) as (-> & -> & ->). done.
Qed.

(** A batch of downloads, whatever the network answers and whether or not
    a worker raises, leaves every file and directory that was there before
    it as it was: nothing is removed, and no file that exists is written
    again. *)
Theorem downloads_keep_what_exists net links_info max_workers w :
  fs w ⊆ fs (snd (download_images net links_info max_workers w)).
Proof.
  unfold download_images. destruct links_info as [|item rest]; [done|].
  pose proof (run_workers_keeps net (item :: rest) (print (MsgStarting max_workers) w)) as H.
  destruct (run_workers _ _ _) as [rs w2]. simpl in H.
  by destruct (report_results_state rs w2) as (-> & _).
Qed.

Lemma run_workers_requests net items w :
  ∃ ks, length ks = length items
    ∧ Forall (λ k, k ≤ DEFAULT_RETRIES) ks
    ∧ requests (snd (run_workers net items w))
      = requests w ++ concat (zip_with replicate ks (url <$> items)).
Proof.
  revert w. induction items as [|item rest IH]; intros w; simpl.
  - exists []. by rewrite app_nil_r.
  - destruct (_download_one _ _ _ _ w) as [r w1] eqn:E1.
    apply download_one_effects in E1 as (_ & _ & k & Hk & Hr & _).
    destruct (IH w1) as (ks & Hlen & Hks & Hrs).
    destruct (run_workers net rest w1) as [rs w2]. simpl in *.
    exists (k :: ks). split; [simpl; congruence|]. split; [by constructor|].
    simpl. by rewrite Hrs, Hr, <- app_assoc.
Qed.

(** The requests of a batch go to the URLs of its records and to nothing
    else, at most three to each record: what the batch adds to the requests
    is, in some order, a number of at most three requests for the URL of
    each record.  Nothing is said of the order, which is the order in
    which the workers happen to run. *)
Theorem downloads_request_only_record_urls net links_info max_workers w :
  ∃ ks rs, length ks = length links_info
    ∧ Forall (λ k, k ≤ 3) ks
    ∧ requests (snd (download_images net links_info max_workers w))
      = requests w ++ rs
    ∧ rs ≡ₚ concat (zip_with replicate ks (url <$> links_info)).
Proof.
  unfold download_images. destruct links_info as [|item rest].
  - exists [], []. simpl. by rewrite app_nil_r.
  - destruct (run_workers_requests net (item :: rest)
                (print (MsgStarting max_workers) w)) as (ks & Hlen & Hks & Hr).
    exists ks, (concat (zip_with replicate ks (url <$> item :: rest))).
    split; [done|]. split; [done|]. split; [|done].
    destruct (run_workers _ _ _) as [rs w2]. simpl in Hr.
    by destruct (report_results_state rs w2) as (_ & -> & _).
Qed.

(** ** What a download writes *)

Lemma written_concat chunks : written chunks = foldr String.append "" chunks.
Proof.
  unfold written. induction chunks as [|c chunks IH]; [done|].
  destruct c as [|a c].
  - rewrite filter_cons_False by (simpl; congruence). simpl.
    by rewrite IH, string_app_nil_l.
  - rewrite filter_cons_True by done. simpl. by rewrite IH.
Qed.

Lemma fetch_to_file_body net u local w status chunks broken :
  net (length (requests w)) u = Reply status chunks broken →
  raise_for_status status = Ok () →
  fs w !! local ≠ Some Dir →
  fetch_to_file net u local w
  = (match broken with Some e => Raise e | None => Ok () end,
     mkWorld (<[local := File (Bytes (foldr String.append "" chunks))]> (fs w))
             (requests w ++ [u]) (sleeps w) (printed w)).
Proof.
  intros Hnet Hst Hd. unfold fetch_to_file, http_get. rewrite Hnet, Hst. simpl.
  rewrite written_concat.
  destruct (fs w !! local) as [[|c]|]; [done|..]; by destruct broken.
Qed.

(** An item whose target is not there and whose first request is answered
    with a good status and a stream that does not break is downloaded with
    that one request and without a pause, and the target then holds the
    body, all chunks one after the other, which is what the renderers read
    from it. *)
Theorem download_stores_body net item w f1 status chunks :
  makedirs (dirname (local_path_of item)) (fs w) = (Ok (), f1) →
  path_exists f1 (local_path_of item) = false →
  net (length (requests w)) (url item) = Reply status chunks None →
  raise_for_status status = Ok () →
  let body := foldr String.append "" chunks in
  let w' := mkWorld (<[local_path_of item := File (Bytes body)]> f1)
                    (requests w ++ [url item]) (sleeps w) (printed w) in
  _download_one net item DEFAULT_RETRIES DEFAULT_BACKOFF w
  = (Ok (Downloaded (vol item) (inner_path item)), w')
  ∧ read_bytes (fs w') (local_path_of item) = Ok body
  ∧ ∀ decode, Image_open decode (fs w') (local_path_of item) = decode body.
Proof.
  intros Hm Hex Hnet Hst body w'. unfold _download_one. rewrite Hm, Hex.
  apply path_exists_false in Hex.
  unfold DEFAULT_RETRIES. simpl attempt_loop.
  rewrite (fetch_to_file_body net (url item) (local_path_of item) (set_fs w f1)
             status chunks None Hnet Hst) by (simpl; congruence).
  split; [done|]. unfold read_bytes, Image_open. subst w'. simpl.
  by rewrite lookup_insert_eq.
Qed.

Lemma download_stores_body_witness :
  _download_one net_up item_a DEFAULT_RETRIES DEFAULT_BACKOFF world0
  = (Ok (Downloaded (vol item_a) (inner_path item_a)),
     mkWorld (<[local_path_of item_a := File (Bytes "imagebytes")]>
                (snd (makedirs (dirname (local_path_of item_a)) ∅)))
             [url item_a] [] [])
  ∧ read_bytes (<[local_path_of item_a := File (Bytes "imagebytes")]>
                  (snd (makedirs (dirname (local_path_of item_a)) ∅)))
               (local_path_of item_a) = Ok "imagebytes"
  ∧ ∀ decode, Image_open decode
                (<[local_path_of item_a := File (Bytes "imagebytes")]>
                   (snd (makedirs (dirname (local_path_of item_a)) ∅)))
                (local_path_of item_a) = decode "imagebytes".
Proof.
  apply (download_stores_body net_up item_a world0
           (snd (makedirs (dirname (local_path_of item_a)) ∅))
           200 ["image"; ""; "bytes"]); by vm_compute.
Defined.

(** ** A stream that breaks *)

(** The file of a stream that broke is taken for a finished download.
    When every answer for the URL of an item is a good status with a stream
    that breaks, the item is reported failed after three requests, and the
    target is left holding what the last stream delivered; a later run then
    skips the item without a request, whatever the network would answer. *)
Theorem broken_stream_is_skipped_later net net2 item w f1 status chunks e :
  makedirs (dirname (local_path_of item)) (fs w) = (Ok (), f1) →
  path_exists f1 (local_path_of item) = false →
  (∀ n, net n (url item) = Reply status chunks (Some e)) →
  raise_for_status status = Ok () →
  ∃ w',
    _download_one net item DEFAULT_RETRIES DEFAULT_BACKOFF w
    = (Ok (Failed (url item) (Some e)), w')
    ∧ fs w' = <[local_path_of item := File (Bytes (foldr String.append "" chunks))]> f1
    ∧ requests w' = requests w ++ replicate 3 (url item)
    ∧ _download_one net2 item DEFAULT_RETRIES DEFAULT_BACKOFF w'
      = (Ok (Skipped (local_path_of item)), w').
Proof.
  intros Hm Hex Hnet Hst.
  pose proof (makedirs_made _ _ _ Hm) as Hmade.
  pose proof (path_exists_false _ _ Hex) as Hnone.
  assert (∀ w0 : World, fs w0 !! local_path_of item ≠ Some Dir →
            fetch_to_file net (url item) (local_path_of item) w0
            = (Raise e,
               mkWorld (<[local_path_of item :=
                            File (Bytes (foldr String.append "" chunks))]> (fs w0))
                       (requests w0 ++ [url item]) (sleeps w0) (printed w0))) as Hstep.
  { intros w0 Hd.
    by rewrite (fetch_to_file_body net (url item) (local_path_of item) w0
                  status chunks (Some e) (Hnet _) Hst Hd). }
  unfold _download_one at 1. rewrite Hm, Hex.
  unfold DEFAULT_RETRIES. simpl attempt_loop.
  rewrite Hstep by (simpl; congruence). simpl.
  rewrite Hstep by (simpl; rewrite lookup_insert_eq; congruence). simpl.
  rewrite Hstep by (simpl; rewrite lookup_insert_eq; congruence). simpl.
  eexists. split; [done|]. simpl. rewrite !insert_insert_eq.
  split; [done|]. split; [by rewrite <- !app_assoc|].
  apply download_one_ready. split; simpl.
  - eapply path_exists_file. apply lookup_insert_eq.
  - eapply chain_made_grows; [|exact Hmade].
    intros p. destruct (decide (local_path_of item = p)) as [<-|Hne].
    + by rewrite Hnone.
    + rewrite lookup_insert_ne by done. apply fs_grows_refl.
Qed.

Lemma broken_stream_is_skipped_later_witness :
  ∃ w',
    _download_one (λ _ _, Reply 200 ["half"] (Some "ChunkedEncodingError")) item_a
                  DEFAULT_RETRIES DEFAULT_BACKOFF world0
    = (Ok (Failed (url item_a) (Some "ChunkedEncodingError")), w')
    ∧ fs w' = <[local_path_of item_a := File (Bytes (foldr String.append "" ["half"]))]>
                (snd (makedirs (dirname (local_path_of item_a)) ∅))
    ∧ requests w' = requests world0 ++ replicate 3 (url item_a)
    ∧ _download_one net_up item_a DEFAULT_RETRIES DEFAULT_BACKOFF w'
      = (Ok (Skipped (local_path_of item_a)), w').
Proof.
  apply (broken_stream_is_skipped_later
           (λ _ _, Reply 200 ["half"] (Some "ChunkedEncodingError")) net_up
           item_a world0 (snd (makedirs (dirname (local_path_of item_a)) ∅))
           200 ["half"] "ChunkedEncodingError"); by vm_compute.
Defined.

(** ** The PDF renderer run again *)

(** The file system after the renderer, from the file system before it. *)
Lemma build_pdf_fs os_walk decode convert v w :
  let entries := collect_images_for_volume (os_walk (fs w)) v in
  fs (build_pdf_for_volume os_walk decode convert v w)
  = match entries with
    | [] => fs w
    | _ :: _ =>
        if path_exists (fs w) (pdf_path_of v) then fs w
        else match opened_pages decode convert (fs w) entries with
             | [] => fs w
             | p :: ps => <[pdf_path_of v := File (PdfDoc (p :: ps))]> (fs w)
             end
    end.
Proof.
  intros entries. unfold build_pdf_for_volume. fold entries.
  destruct entries as [|e0 rest] eqn:Ee; [done|].
  destruct (path_exists (fs w) (pdf_path_of v)); [done|].
  destruct (open_images_spec decode convert (e0 :: rest) []
              (print (MsgBuildingPdf v (length (e0 :: rest))) w))
    as (w2 & Ho & Hf & _).
  rewrite Ho.
  change ([] ++ opened_pages decode convert (fs (print _ w)) (e0 :: rest))
    with (opened_pages decode convert (fs w) (e0 :: rest)).
  simpl in Hf.
  destruct (opened_pages decode convert (fs w) (e0 :: rest)) as [|p ps]; simpl;
    by rewrite Hf.
Qed.

(** The PDF renderer never replaces or removes what is there, changes
    nothing but the PDF of its volume, and a second run of it changes
    nothing at all: the file system after two runs is the file system
    after one, whatever the walk lists and whichever images open. *)
Theorem pdf_renderer_idempotent os_walk decode convert v w :
  let w1 := build_pdf_for_volume os_walk decode convert v w in
  let w2 := build_pdf_for_volume os_walk decode convert v w1 in
  fs w ⊆ fs w1
  ∧ (∀ p, p ≠ pdf_path_of v → fs w1 !! p = fs w !! p)
  ∧ fs w2 = fs w1.
Proof.
  intros w1 w2.
  pose proof (build_pdf_fs os_walk decode convert v w) as H1.
  pose proof (build_pdf_fs os_walk decode convert v w1) as H2.
  fold w1 in H1. fold w2 in H2. cbv zeta in H1, H2.
  assert (fs w1 = fs w
          ∨ (path_exists (fs w) (pdf_path_of v) = false
             ∧ ∃ pages, fs w1 = <[pdf_path_of v := File (PdfDoc pages)]> (fs w)))
    as Hcases.
  { rewrite H1. destruct (collect_images_for_volume _ v); [by left|].
    destruct (path_exists (fs w) (pdf_path_of v)); [by left|].
    destruct (opened_pages _ _ _ _); [by left|]. right. eauto. }
  destruct Hcases as [Hsame|(Hno & pages & Hins)].
  - split; [by rewrite Hsame|]. split; [by intros; rewrite Hsame|].
    rewrite H2, Hsame. rewrite Hsame in H1. symmetry in H1.
    destruct (collect_images_for_volume _ v); [done|].
    destruct (path_exists (fs w) (pdf_path_of v)); [done|].
    by destruct (opened_pages _ _ _ _).
  - apply path_exists_false in Hno. split.
    { rewrite Hins. by apply insert_subseteq. }
    split; [by intros p Hp; rewrite Hins, lookup_insert_ne|].
    rewrite H2. clear H1 H2.
    destruct (collect_images_for_volume (os_walk (fs w1)) v); [done|].
    assert (path_exists (fs w1) (pdf_path_of v) = true) as ->; [|done].
    eapply path_exists_file. rewrite Hins. apply lookup_insert_eq.
Qed.

(** ** The file names of the pages of an EPUB *)

Lemma pretty_N_go_digits x : ∀ s,
  ∃ d, pretty_N_go x s = d +:+ s ∧ Str.all Str.is_digit d = true.
Proof.
  induction (N.lt_wf_0 x) as [x _ IH]; intros s.
  assert (x = 0 ∨ 0 < x)%N as [->|Hx] by lia.
  - exists "". by rewrite pretty_N_go_0.
  - rewrite pretty_N_go_step by done.
    destruct (IH (x `div` 10)%N (N.div_lt x 10 Hx eq_refl)
                (String (pretty_N_char (x `mod` 10)) s)) as (d & -> & Hd).
    exists (d +:+ String (pretty_N_char (x `mod` 10)) "").
    split; [by rewrite string_app_assoc|].
    rewrite all_app, Hd. simpl. rewrite andb_true_r.
    unfold pretty_N_char. by repeat case_match.
Qed.

Lemma pretty_nat_digits (n : nat) : Str.all Str.is_digit (pretty n) = true.
Proof.
  unfold pretty, pretty_nat, pretty, pretty_N. case_decide; [done|].
  destruct (pretty_N_go_digits (N.of_nat n) "") as (d & -> & Hd).
  by rewrite string_app_nil_r.
Qed.

(** Digits followed by something that does not start with a digit: the
    digits are determined. *)
Lemma digits_prefix_unique a : ∀ a' r r',
  Str.all Str.is_digit a = true → Str.all Str.is_digit a' = true →
  starts_with_digit r = false → starts_with_digit r' = false →
  a +:+ r = a' +:+ r' → a = a' ∧ r = r'.
Proof.
  induction a as [|c a IH]; intros [|c' a'] r r' Ha Ha' Hr Hr' Heq.
  - by rewrite !string_app_nil_l in Heq.
  - rewrite string_app_nil_l, string_app_cons in Heq. subst r.
    simpl in Hr, Ha'. apply andb_true_iff in Ha' as [? _]. congruence.
  - rewrite string_app_nil_l, string_app_cons in Heq. subst r'.
    simpl in Hr', Ha. apply andb_true_iff in Ha as [? _]. congruence.
  - rewrite !string_app_cons in Heq. injection Heq as -> Heq.
    simpl in Ha, Ha'. apply andb_true_iff in Ha as [_ Ha].
    apply andb_true_iff in Ha' as [_ Ha'].
    destruct (IH a' r r' Ha Ha' Hr Hr' Heq) as [-> ->]. done.
Qed.

Lemma index_pair_inj (ci pi ci' pi' : nat) (r r' : string) :
  starts_with_digit r = false → starts_with_digit r' = false →
  pretty ci +:+ "_" +:+ pretty pi +:+ r = pretty ci' +:+ "_" +:+ pretty pi' +:+ r' →
  ci = ci' ∧ pi = pi' ∧ r = r'.
Proof.
  intros Hr Hr' Heq.
  apply digits_prefix_unique in Heq as [Hc Heq];
    [|apply pretty_nat_digits|apply pretty_nat_digits|done|done].
  change ("_" +:+ pretty pi +:+ r) with (String "_" (pretty pi +:+ r)) in Heq.
  change ("_" +:+ pretty pi' +:+ r') with (String "_" (pretty pi' +:+ r')) in Heq.
  injection Heq as Heq.
  apply digits_prefix_unique in Heq as [Hp Heq];
    [|apply pretty_nat_digits|apply pretty_nat_digits|done|done].
  split; [by apply (inj pretty)|]. split; [by apply (inj pretty)|done].
Qed.

Lemma page_file_name_inj v ci label pi full ci' label' pi' full' :
  html_file_name (page_html_of v ci label pi full)
  = html_file_name (page_html_of v ci' label' pi' full') →
  ci = ci' ∧ pi = pi'.
Proof.
  simpl. intros Heq.
  apply (string_app_inv_head "text/v") in Heq.
  apply string_app_inv_head in Heq.
  change ("_" +:+ pretty ci +:+ "_" +:+ pretty pi +:+ ".xhtml")
    with (String "_" (pretty ci +:+ "_" +:+ pretty pi +:+ ".xhtml")) in Heq.
  change ("_" +:+ pretty ci' +:+ "_" +:+ pretty pi' +:+ ".xhtml")
    with (String "_" (pretty ci' +:+ "_" +:+ pretty pi' +:+ ".xhtml")) in Heq.
  injection Heq as Heq.
  by apply index_pair_inj in Heq as (? & ? & _).
Qed.

Lemma NoDup_imap_index {A B} (l : list A) : ∀ (g : nat → A → B),
  (∀ i j a b, g i a = g j b → i = j) → NoDup (imap g l).
Proof.
  induction l as [|x l IH]; intros g Hg; [constructor|].
  rewrite imap_cons. constructor.
  - intros (i & y & Heq & _)%elem_of_lookup_imap. by apply Hg in Heq.
  - apply IH. intros i j a b Heq. apply Hg in Heq. lia.
Qed.

Lemma chapter_pages_names_NoDup v k ch :
  NoDup (html_file_name <$> chapter_pages v k ch).
Proof.
  unfold chapter_pages. rewrite fmap_imap. apply NoDup_imap_index.
  intros i j a b Heq.
  apply (page_file_name_inj v k (fst ch) (S i) (snd a) k (fst ch) (S j) (snd b)) in Heq.
  lia.
Qed.

Lemma elem_of_chapter_pages v k ch p :
  p ∈ chapter_pages v k ch →
  ∃ i (e : ImageEntry), p = page_html_of v k (fst ch) (S i) (snd e).
Proof. intros (i & e & -> & _)%elem_of_lookup_imap. eauto. Qed.

Lemma spine_names_NoDup v chs : ∀ ci,
  NoDup (html_file_name <$> concat (imap (λ k, chapter_pages v (S (ci + k))) chs)).
Proof.
  induction chs as [|ch chs IH]; intros ci; [constructor|].
  rewrite imap_cons. simpl concat. rewrite fmap_app, Nat.add_0_r.
  apply NoDup_app. split; [apply chapter_pages_names_NoDup|]. split.
  - intros x (p & -> & Hp)%list_elem_of_fmap (q & Heq & Hq)%list_elem_of_fmap.
    apply elem_of_chapter_pages in Hp as (i & e & ->).
    apply list_elem_of_In, in_concat in Hq as (ps & Hps & Hq).
    apply list_elem_of_In, elem_of_lookup_imap in Hps as (k & ch' & -> & _).
    apply list_elem_of_In, elem_of_chapter_pages in Hq as (j & e' & ->).
    apply page_file_name_inj in Heq. lia.
  - erewrite imap_ext; [apply (IH (S ci))|].
    intros k ch' _. simpl. f_equal. lia.
Qed.

(** ** The items of an EPUB *)

(** What the loops keep true of the items and the spine built so far,
    for the entries [es] they have gone through. *)
Lemma add_pages_items f v ci label pages : ∀ pi first b es pairs r b',
  Forall (λ e, label_of e = label) pages →
  b_items b = concat (pair_items <$> pairs) →
  b_spine b = pairs.*2 →
  Forall2 (made_for f v) es pairs →
  add_pages f v ci label pi pages first b = Ok (r, b') →
  ∃ pairs', b_items b' = concat (pair_items <$> pairs')
    ∧ b_spine b' = pairs'.*2
    ∧ Forall2 (made_for f v) (es ++ pages) pairs'.
Proof.
  induction pages as [|[rel full] rest IH];
    intros pi first b es pairs r b' Hlab Hit Hsp Hmade Hadd.
  - simpl in Hadd. injection Hadd as _ <-. exists pairs.
    by rewrite app_nil_r.
  - apply Forall_cons in Hlab as [Hl Hrest].
    simpl in Hadd. destruct (read_bytes f full) as [data|err] eqn:Hdata; [|done].
    eapply (IH _ _ _ (es ++ [(rel, full)])
              (pairs ++ [(mkItem (img_id_of v ci pi) (img_file_name_of v ci pi full)
                            (guess_mime full) data,
                          page_html_of v ci label pi full)])) in Hadd
      as (pairs' & H1 & H2 & H3); [| done | | |].
    + exists pairs'. by rewrite <- app_assoc in H3.
    + simpl. rewrite Hit, fmap_app, concat_app. simpl. done.
    + simpl. by rewrite Hsp, fmap_app.
    + apply Forall2_app; [done|]. constructor; [|constructor].
      exists ci, pi, data. simpl. by rewrite Hl.
Qed.

Lemma add_chapters_items f v chapters : ∀ ci b es pairs b',
  Forall (λ ch, Forall (λ e, label_of e = fst ch) (snd ch)) chapters →
  b_items b = concat (pair_items <$> pairs) →
  b_spine b = pairs.*2 →
  Forall2 (made_for f v) es pairs →
  add_chapters f v ci chapters b = Ok b' →
  ∃ pairs', b_items b' = concat (pair_items <$> pairs')
    ∧ b_spine b' = pairs'.*2
    ∧ Forall2 (made_for f v) (es ++ concat (snd <$> chapters)) pairs'.
Proof.
  induction chapters as [|[label pages] rest IH];
    intros ci b es pairs b' Hlab Hit Hsp Hmade Hadd.
  - simpl in Hadd. injection Hadd as <-. exists pairs. by rewrite app_nil_r.
  - apply Forall_cons in Hlab as [Hl Hrest]. simpl in Hl.
    simpl in Hadd.
    destruct (add_pages f v (S ci) label 1 pages None b) as [[first b1]|err] eqn:Hp;
      [|done].
    destruct (add_pages_items _ _ _ _ _ _ _ _ _ _ _ _ Hl Hit Hsp Hmade Hp)
      as (pairs1 & H1 & H2 & H3).
    eapply (IH _ _ (es ++ pages) pairs1) in Hadd as (pairs' & H4 & H5 & H6);
      [|done|by destruct first|by destruct first|done].
    exists pairs'. simpl. by rewrite app_assoc.
Qed.

(** The book the renderer writes, with the pairs its items are made of. *)
Lemma build_epub_pairs os_walk v w :
  let entries := collect_images_for_volume (os_walk (fs w)) v in
  entries ≠ [] →
  Forall (readable (fs w)) entries →
  ∃ book w' pairs,
    build_epub_for_volume os_walk v w = (Ok (), w')
    ∧ epub_written v w' = Some book
    ∧ book_items book = concat (pair_items <$> pairs) ++ [ItemNcx; ItemNav]
    ∧ book_spine book = pairs.*2
    ∧ book_spine book = spine_of_chapters v (chapters_spec entries)
    ∧ Forall2 (made_for (fs w) v) (by_chapter entries) pairs.
Proof.
  intros entries Hne Hread. unfold build_epub_for_volume. fold entries.
  destruct entries as [|e0 rest] eqn:Ee; [done|]. clear Hne.
  rewrite group_chapters_spec.
  destruct (add_chapters_spec (fs w) v (chapters_spec (e0 :: rest)) 0
              (mkBuilding [] [] [])
              (chapters_spec_readable _ _ Hread)) as (b & Hb & Hspine & _).
  change (fs (print _ w)) with (fs w). rewrite Hb.
  destruct (add_chapters_items (fs w) v (chapters_spec (e0 :: rest)) 0
              (mkBuilding [] [] []) [] [] b) as (pairs & Hit & Hsp & Hmade);
    [|done|done|constructor|done|].
  { eapply Forall_impl; [apply chapters_spec_labelled|]. by intros ch [_ ?]. }
  simpl in Hmade. fold (by_chapter (e0 :: rest)) in Hmade.
  eexists _, _, pairs. split; [done|]. split.
  { unfold epub_written. simpl. by rewrite lookup_insert_eq. }
  simpl. rewrite Hit. split; [done|]. split; [done|]. split; [|done].
  by rewrite Hspine.
Qed.

Lemma pair_items_length (pairs : list (EpubItem * EpubHtml)) :
  length (concat (pair_items <$> pairs)) = 2 * length pairs.
Proof.
  induction pairs as [|p ps IH]; [done|].
  rewrite fmap_cons. simpl concat. simpl length. rewrite IH. lia.
Qed.

(** The book of a volume whose images can all be read: its items are,
    for each entry in the order of the spine, the image resource with the
    bytes of the file of the entry and then the page that shows it, and
    after them the two navigation items, which are not in the spine. *)
Theorem epub_items_pair_image_and_page os_walk v w :
  let entries := collect_images_for_volume (os_walk (fs w)) v in
  entries ≠ [] →
  Forall (readable (fs w)) entries →
  ∃ book w' pairs,
    build_epub_for_volume os_walk v w = (Ok (), w')
    ∧ epub_written v w' = Some book
    ∧ book_items book = concat (pair_items <$> pairs) ++ [ItemNcx; ItemNav]
    ∧ book_spine book = pairs.*2
    ∧ Forall2 (made_for (fs w) v) (by_chapter entries) pairs
    ∧ length (book_items book) = 2 * length entries + 2.
Proof.
  intros entries Hne Hread.
  destruct (build_epub_pairs os_walk v w Hne Hread)
    as (book & w' & pairs & Hb & Hw & Hit & Hsp & _ & Hmade).
  exists book, w', pairs. split_and!; try done.
  apply Forall2_length in Hmade.
  pose proof (Permutation_length (by_chapter_perm entries)) as Hl.
  fold entries in Hmade. clearbody entries.
  rewrite Hit, length_app, pair_items_length, <- Hmade, Hl. simpl. lia.
Qed.

Lemma epub_items_pair_image_and_page_witness :
  ∃ book w' pairs,
    build_epub_for_volume (λ _, walk_plain) "01" world_plain = (Ok (), w')
    ∧ epub_written "01" w' = Some book
    ∧ book_items book = concat (pair_items <$> pairs) ++ [ItemNcx; ItemNav]
    ∧ book_spine book = pairs.*2
    ∧ Forall2 (made_for (fs world_plain) "01")
        (by_chapter (collect_images_for_volume walk_plain "01")) pairs
    ∧ length (book_items book)
      = 2 * length (collect_images_for_volume walk_plain "01") + 2.
Proof.
  apply (epub_items_pair_image_and_page (λ _, walk_plain) "01" world_plain).
  - cbv beta. rewrite collect_plain. discriminate.
  - cbv beta. rewrite collect_plain.
    repeat constructor; eexists; vm_compute; reflexivity.
Defined.

(** ** The names inside an EPUB *)

Lemma splitext_ext_no_digit p : starts_with_digit (splitext_ext p) = false.
Proof.
  unfold splitext_ext. destruct (Str.span _ _) as [ext_r rest_r].
  destruct rest_r as [|c stem_r]; [done|]. by destruct (Str.all _ stem_r).
Qed.

Lemma img_file_name_inj v ci pi full ci' pi' full' :
  img_file_name_of v ci pi full = img_file_name_of v ci' pi' full' →
  ci = ci' ∧ pi = pi'.
Proof.
  unfold img_file_name_of, img_id_of, index_suffix. rewrite !string_app_assoc.
  intros Heq.
  apply (string_app_inv_head "images/v") in Heq.
  apply string_app_inv_head in Heq.
  apply (string_app_inv_head "/") in Heq.
  apply (string_app_inv_head "img") in Heq.
  apply (string_app_inv_head "_v") in Heq.
  apply string_app_inv_head in Heq.
  apply (string_app_inv_head "_") in Heq.
  apply index_pair_inj in Heq as (? & ? & _); [done|..];
    apply splitext_ext_no_digit.
Qed.

Lemma NoDup_transfer {A B C} (g : A → B) (h : A → C) (l : list A) :
  (∀ x y, x ∈ l → y ∈ l → h x = h y → g x = g y) →
  NoDup (g <$> l) → NoDup (h <$> l).
Proof.
  induction l as [|x l IH]; intros Hgh Hg; [constructor|].
  rewrite fmap_cons in *. apply NoDup_cons in Hg as [Hx Hl].
  apply NoDup_cons. split.
  - intros (y & Heq & Hy)%list_elem_of_fmap. apply Hx.
    apply list_elem_of_fmap. exists y. split; [|done].
    apply Hgh; [left|by right|done].
  - apply IH; [|done]. intros a b Ha Hb. apply Hgh; by right.
Qed.

Lemma image_file_names_pairs (pairs : list (EpubItem * EpubHtml)) tail :
  image_file_names (concat (pair_items <$> pairs) ++ tail)
  = ((λ ip, item_file_name (fst ip)) <$> pairs) ++ image_file_names tail.
Proof.
  unfold image_file_names. induction pairs as [|p ps IH]; [done|].
  rewrite !fmap_cons. simpl concat. simpl app. cbn [omap list_omap].
  by rewrite IH.
Qed.

(** In the book of a volume whose images can all be read no two pages
    have the same file name and no two image resources have the same file
    name, whatever the names of the images on disk. *)
Theorem epub_file_names_distinct os_walk v w :
  let entries := collect_images_for_volume (os_walk (fs w)) v in
  entries ≠ [] →
  Forall (readable (fs w)) entries →
  ∃ book w',
    build_epub_for_volume os_walk v w = (Ok (), w')
    ∧ epub_written v w' = Some book
    ∧ NoDup (html_file_name <$> book_spine book)
    ∧ NoDup (image_file_names (book_items book)).
Proof.
  intros entries Hne Hread.
  destruct (build_epub_pairs os_walk v w Hne Hread)
    as (book & w' & pairs & Hb & Hw & Hit & Hsp & Hspine & Hmade).
  exists book, w'. split; [done|]. split; [done|].
  assert (NoDup (html_file_name <$> book_spine book)) as Hnd.
  { rewrite Hspine. apply (spine_names_NoDup v (chapters_spec entries) 0). }
  split; [done|].
  rewrite Hit, image_file_names_pairs. simpl. rewrite app_nil_r.
  rewrite Hsp, <- list_fmap_compose in Hnd.
  eapply NoDup_transfer; [|exact Hnd].
  intros x y Hx Hy Heq. simpl.
  assert (∀ z, z ∈ pairs → ∃ e, made_for (fs w) v e z) as Hz.
  { intros z (i & Hi)%list_elem_of_lookup_1.
    destruct (Forall2_lookup_r _ _ _ _ _ Hmade Hi) as (e & _ & He). eauto. }
  destruct (Hz x Hx) as (e1 & c1 & p1 & d1 & _ & Hf1 & Hs1).
  destruct (Hz y Hy) as (e2 & c2 & p2 & d2 & _ & Hf2 & Hs2).
  rewrite Hf1, Hf2 in Heq. simpl in Heq.
  apply img_file_name_inj in Heq as [-> ->].
  by rewrite Hs1, Hs2.
Qed.

Lemma epub_file_names_distinct_witness :
  ∃ book w',
    build_epub_for_volume (λ _, walk_plain) "01" world_plain = (Ok (), w')
    ∧ epub_written "01" w' = Some book
    ∧ NoDup (html_file_name <$> book_spine book)
    ∧ NoDup (image_file_names (book_items book)).
Proof.
  apply (epub_file_names_distinct (λ _, walk_plain) "01" world_plain).
  - cbv beta. rewrite collect_plain. discriminate.
  - cbv beta. rewrite collect_plain.
    repeat constructor; eexists; vm_compute; reflexivity.
Defined.

(** ** The requests of a whole run *)

Lemma parsed_url_scheme nd html r :
  r ∈ parse_image_links nd html → http_scheme (url r).
Proof.
  unfold parse_image_links. intros (href & _ & Hr)%list_elem_of_omap.
  unfold link_of_href in Hr.
  destruct (full_url_of href) as [u|] eqn:Eu; [|done].
  assert (http_scheme (normalize_url href)) as Hs by (apply full_url_of_Some; eauto).
  apply full_url_of_normalize in Eu. subst u.
  destruct (re_search (vol_pattern nd) (unquote href)); [|done].
  case_decide; [|done]. by injection Hr as <-.
Qed.

Lemma elem_of_concat_replicate {A} (ks : list nat) : ∀ (l : list A) x,
  x ∈ concat (zip_with replicate ks l) → x ∈ l.
Proof.
  induction ks as [|k ks IH]; intros [|y l] x; simpl; try by intros ?%elem_of_nil.
  intros [Hx|Hx]%elem_of_app.
  - apply elem_of_replicate in Hx as [-> _]. left.
  - right. by apply IH.
Qed.

Lemma fetch_html_requests net u w :
  requests (snd (fetch_html net u w)) = requests w ++ [u]
  ∧ fs (snd (fetch_html net u w)) = fs w.
Proof.
  unfold fetch_html, http_get. simpl.
  destruct (net _ u) as [e|status chunks broken]; [done|].
  destruct (raise_for_status status); [|done]. by destruct broken.
Qed.

Lemma build_pdf_requests os_walk decode convert v w :
  requests (build_pdf_for_volume os_walk decode convert v w) = requests w.
Proof.
  unfold build_pdf_for_volume.
  destruct (collect_images_for_volume _ v) as [|e0 rest]; [done|].
  destruct (path_exists _ _); [done|].
  destruct (open_images_spec decode convert (e0 :: rest) []
              (print (MsgBuildingPdf v (length (e0 :: rest))) w))
    as (w2 & -> & _ & Hr & _).
  simpl in Hr. by destruct (_ ++ _).
Qed.

Lemma build_pdfs_requests os_walk decode convert vs : ∀ w,
  requests (foldl (λ acc v, build_pdf_for_volume os_walk decode convert v acc) w vs)
  = requests w.
Proof.
  induction vs as [|v vs IH]; intros w; simpl; [done|].
  by rewrite IH, build_pdf_requests.
Qed.

Lemma download_images_urls net links max_workers w :
  ∃ ks, requests (snd (download_images net links max_workers w))
        = requests w ++ concat (zip_with replicate ks (url <$> links)).
Proof.
  unfold download_images. destruct links as [|item rest].
  - exists []. simpl. by rewrite app_nil_r.
  - destruct (run_workers_requests net (item :: rest)
                (print (MsgStarting max_workers) w)) as (ks & _ & _ & Hr).
    exists ks. destruct (run_workers _ _ _) as [rs w2]. simpl in Hr.
    by destruct (report_results_state rs w2) as (_ & -> & _).
Qed.

(** A whole run asks for the archive page first and after that only for
    URLs of records found in that page, each of them an http or https
    URL: nothing else is ever requested, by the downloads or by the PDF
    stage, and when the page cannot be fetched nothing is requested after
    it. *)
Theorem main_requests_page_then_record_urls nd os_walk decode convert net w :
  ∃ rs,
    requests (snd (main nd os_walk decode convert net w))
    = requests w ++ ARCHIVE_PAGE_URL :: rs
    ∧ ∀ u, u ∈ rs →
        http_scheme u
        ∧ ∃ html w1 r,
            fetch_html net ARCHIVE_PAGE_URL w = (Ok html, w1)
            ∧ r ∈ parse_image_links nd html
            ∧ url r = u.
Proof.
  unfold main.
  pose proof (fetch_html_requests net ARCHIVE_PAGE_URL w) as [Hf _].
  destruct (fetch_html net ARCHIVE_PAGE_URL w) as [[html|e] w1] eqn:Ef; simpl in Hf.
  2:{ exists []. simpl. split; [by rewrite Hf|]. by intros u ?%elem_of_nil. }
  set (links := sort_by pair_le (λ x, (vol x, inner_path x)) (parse_image_links nd html)).
  destruct (download_images_urls net links 3 w1) as (ks & Hr).
  exists (concat (zip_with replicate ks (url <$> links))). split.
  - destruct (download_images net links 3 w1) as [[[]|e] w2]; simpl in *.
    + rewrite build_pdfs_requests. simpl. by rewrite Hr, Hf, <- app_assoc.
    + by rewrite Hr, Hf, <- app_assoc.
  - intros u Hu%elem_of_concat_replicate.
    apply list_elem_of_fmap in Hu as (r & -> & Hin).
    assert (r ∈ parse_image_links nd html) as Hin'.
    { subst links. by rewrite sort_by_perm in Hin. }
    split; [by eapply parsed_url_scheme|]. by exists html, w1, r.
Qed.

(** ** What a whole run leaves alone *)

Lemma build_pdf_keeps os_walk decode convert v w :
  fs w ⊆ fs (build_pdf_for_volume os_walk decode convert v w).
Proof.
  rewrite build_pdf_fs. cbv zeta.
  destruct (collect_images_for_volume _ v); [done|].
  destruct (path_exists (fs w) (pdf_path_of v)) eqn:Ex; [done|].
  destruct (opened_pages _ _ _ _); [done|].
  apply insert_subseteq. by apply path_exists_false.
Qed.

Lemma build_pdfs_keep os_walk decode convert vs : ∀ w,
  fs w ⊆ fs (foldl (λ acc v, build_pdf_for_volume os_walk decode convert v acc) w vs).
Proof.
  induction vs as [|v vs IH]; intros w; simpl; [done|].
  etrans; [apply (build_pdf_keeps os_walk decode convert v)|apply IH].
Qed.

Lemma download_images_keeps net links max_workers w :
  fs w ⊆ fs (snd (download_images net links max_workers w)).
Proof.
  unfold download_images. destruct links as [|item rest]; [done|].
  pose proof (run_workers_keeps net (item :: rest) (print (MsgStarting max_workers) w)) as H.
  destruct (run_workers _ _ _) as [rs w2]. simpl in H.
  by destruct (report_results_state rs w2) as (-> & _).
Qed.

(** A whole run only adds to the output tree: whatever the page holds,
    whatever the network answers, whichever images open and wherever the
    run stops, every file and directory that was there before it is there
    afterwards with the contents it had. *)
Theorem main_only_adds nd os_walk decode convert net w :
  fs w ⊆ fs (snd (main nd os_walk decode convert net w)).
Proof.
  unfold main.
  pose proof (fetch_html_requests net ARCHIVE_PAGE_URL w) as [_ Hf].
  destruct (fetch_html net ARCHIVE_PAGE_URL w) as [[html|e] w1]; simpl in Hf;
    [|by simpl; rewrite Hf].
  set (links := sort_by pair_le (λ x, (vol x, inner_path x)) (parse_image_links nd html)).
  pose proof (download_images_keeps net links 3 w1) as Hd. rewrite Hf in Hd.
  destruct (download_images net links 3 w1) as [[[]|e] w2]; simpl in *; [|done].
  etrans; [exact Hd|].
  apply (build_pdfs_keep os_walk decode convert (vols_present links)
           (print (MsgFoundVolumes (vols_present links)) w2)).
Qed.

(** ** The chapter label *)



(** ** The extension of a record *)

Lemma startswith_before_slash q : ∀ A B,
  Str.all not_slash q = true →
  Str.startswith (A +:+ String "/" B) q = true → Str.startswith A q = true.
Proof.
  induction q as [|c q IH]; intros A B Hq H.
  - apply startswith_true. by exists A.
  - simpl in Hq. apply andb_true_iff in Hq as [Hc Hq].
    apply startswith_true in H as [r Hr]. rewrite string_app_cons in Hr.
    destruct A as [|a A].
    + rewrite string_app_nil_l in Hr. injection Hr as <- _. by vm_compute in Hc.
    + rewrite string_app_cons in Hr. injection Hr as -> Hr.
      assert (Str.startswith (A +:+ String "/" B) q = true) as H'
        by (apply startswith_true; eauto).
      apply (IH A B Hq), startswith_true in H' as [r' ->].
      apply startswith_true. exists r'. by rewrite string_app_cons.
Qed.

Lemma startswith_long q : ∀ A B,
  String.length q ≤ String.length A →
  Str.startswith (A +:+ B) q = true → Str.startswith A q = true.
Proof.
  induction q as [|c q IH]; intros A B Hlen H.
  - apply startswith_true. by exists A.
  - destruct A as [|a A]; [simpl in Hlen; lia|].
    apply startswith_true in H as [r Hr]. rewrite !string_app_cons in Hr.
    injection Hr as -> Hr.
    assert (Str.startswith (A +:+ B) q = true) as H'
      by (apply startswith_true; eauto).
    apply (IH A B), startswith_true in H' as [r' ->]; [|simpl in Hlen; lia].
    apply startswith_true. exists r'. by rewrite string_app_cons.
Qed.

Lemma rev_length s : String.length (Str.rev s) = String.length s.
Proof.
  induction s as [|c s IH]; [done|].
  rewrite rev_cons, string_app_length, IH. simpl. lia.
Qed.

Lemma endswith_after_slash pre name p :
  Str.all not_slash p = true →
  Str.endswith (pre +:+ "/" +:+ name) p = true → Str.endswith name p = true.
Proof.
  unfold Str.endswith. rewrite !rev_app, string_app_assoc.
  change (Str.rev "/") with "/". intros Hp.
  apply startswith_before_slash. by rewrite all_rev.
Qed.

Lemma endswith_long pre s p :
  String.length p ≤ String.length s →
  Str.endswith (pre +:+ s) p = true → Str.endswith s p = true.
Proof.
  unfold Str.endswith. rewrite rev_app. intros Hlen.
  apply startswith_long. by rewrite !rev_length.
Qed.

(** Percent-decoding leaves the end of a string alone when that end
    starts with a character that is no hexadecimal digit and holds no
    percent sign. *)
Lemma unquote_keeps_tail t0 t' :
  hex_val t0 = None →
  unquote (String t0 t') = String t0 t' →
  ∀ n r, String.length r ≤ n →
    ∃ r', unquote (r +:+ String t0 t') = r' +:+ String t0 t'.
Proof.
  intros Hh Ht. induction n as [|n IH]; intros r Hlen.
  { destruct r; [|simpl in Hlen; lia]. exists "". by rewrite !string_app_nil_l. }
  destruct r as [|c s1].
  { exists "". by rewrite !string_app_nil_l. }
  simpl in Hlen.
  assert (∃ r', String c (unquote (s1 +:+ String t0 t')) = r' +:+ String t0 t')
    as Hlit.
  { destruct (IH s1 ltac:(lia)) as [r' ->]. exists (String c r').
    by rewrite string_app_cons. }
  rewrite string_app_cons. simpl. case_decide; [|done].
  destruct s1 as [|h1 [|h2 s3]].
  - rewrite string_app_nil_l in *. rewrite Hh. by destruct t'.
  - rewrite string_app_cons, string_app_nil_l in *. rewrite Hh.
    by destruct (hex_val h1).
  - rewrite !string_app_cons in *.
    destruct (hex_val h1); [|done]. destruct (hex_val h2); [|done].
    destruct (IH s3 ltac:(simpl in Hlen; lia)) as [r' ->].
    eexists (String _ r'). by rewrite string_app_cons.
Qed.

Lemma lower_char_dot c : Str.lower_char c = "."%char → c = "."%char.
Proof. destruct c as [[] [] [] [] [] [] [] []]; vm_compute; congruence. Qed.

Lemma lower_char_percent : Str.lower_char "%" = "%"%char.
Proof. done. Qed.

(** An extension in any case: it starts with the dot and percent-decoding
    leaves it as it is. *)
Lemma extension_plain e :
  Str.lower e = ".jpg" ∨ Str.lower e = ".jpeg" ∨ Str.lower e = ".png" →
  ∃ t', e = String "." t' ∧ unquote e = e ∧ 4 ≤ String.length e.
Proof.
  intros H.
  assert (4 ≤ String.length e) as Hlen
    by (rewrite <- lower_length; destruct H as [->|[->| ->]]; simpl; lia).
  destruct e as [|c0 e]; [simpl in Hlen; lia|].
  assert (c0 = "."%char) as ->
    by (apply lower_char_dot; destruct H as [H|[H|H]]; by injection H).
  exists e. split; [done|]. split; [|done].
  assert (∀ s x, Str.lower s = x → Str.contains x "%" = false → unquote s = s)
    as Hplain.
  { clear. induction s as [|c s IH]; intros x Hx Hno; [done|].
    simpl in Hx. subst x. simpl in Hno.
    destruct (Str.startswith _ _) eqn:Es in Hno; [done|].
    simpl. rewrite (IH _ eq_refl Hno). case_decide as Hc; [|done].
    subst c. by vm_compute in Es. }
  apply (Hplain _ _ eq_refl). by destruct H as [->|[->| ->]].
Qed.

Lemma has_image_ext_true s :
  has_image_ext s = true ↔
  ∃ a e, s = a +:+ e
    ∧ (Str.lower e = ".jpg" ∨ Str.lower e = ".jpeg" ∨ Str.lower e = ".png").
Proof.
  unfold has_image_ext. rewrite !orb_true_iff, !endswith_true. split.
  - intros [[[r Hr]|[r Hr]]|[r Hr]];
      apply lower_split in Hr as (a & e & -> & _ & He); exists a, e; auto.
  - intros (a & e & -> & [He|[He|He]]); rewrite lower_app, He; eauto.
Qed.

Lemma image_suffix_ext v : image_suffix v = true → has_image_ext v = true.
Proof.
  intros (stem & ext & -> & _ & He)%image_suffix_true.
  apply has_image_ext_true. exists stem, ("." +:+ ext). split; [done|].
  change (Str.lower ("." +:+ ext)) with (String "." (Str.lower ext)).
  destruct He as [->|[->| ->]]; auto.
Qed.

Lemma unquote_image_ext s : has_image_ext s = true → has_image_ext (unquote s) = true.
Proof.
  intros (a & e & -> & He)%has_image_ext_true.
  destruct (extension_plain e He) as (t' & -> & Hplain & _).
  destruct (unquote_keeps_tail "." t' eq_refl Hplain _ a (le_n _)) as [r' ->].
  apply has_image_ext_true. eauto.
Qed.

Lemma has_image_ext_ends s :
  has_image_ext s = true →
  ∃ x, Str.endswith (Str.lower s) x = true ∧ Str.all not_slash x = true
    ∧ String.length x ≤ 5 ∧ (x = ".jpg" ∨ x = ".jpeg" ∨ x = ".png").
Proof.
  unfold has_image_ext. rewrite !orb_true_iff.
  intros [[H|H]|H]; eexists; (split; [exact H|]); simpl; split_and!; auto; lia.
Qed.

Lemma ends_has_image_ext s x :
  Str.endswith (Str.lower s) x = true →
  x = ".jpg" ∨ x = ".jpeg" ∨ x = ".png" → has_image_ext s = true.
Proof.
  unfold has_image_ext. rewrite !orb_true_iff. intros H [->|[->| ->]]; auto.
Qed.

Lemma inner_path_image_ext decoded :
  has_image_ext decoded = true → has_image_ext (inner_path_of decoded) = true.
Proof.
  intros (x & Hend & Hx & Hlen & Hcases)%has_image_ext_ends.
  destruct (inner_path_of_spec decoded)
    as [(pre & Hd & [rest Hr] & _)|[_ [Hall [Hd|[pre Hd]]]]].
  - rewrite Hd, lower_app in Hend. apply endswith_long in Hend.
    + by eapply ends_has_image_ext.
    + rewrite lower_length, Hr, string_app_length. simpl. lia.
  - rewrite <- Hd. by eapply ends_has_image_ext.
  - rewrite Hd, !lower_app in Hend.
    change (Str.lower "/") with "/" in Hend.
    apply endswith_after_slash in Hend; [|done].
    by eapply ends_has_image_ext.
Qed.

(** Every record of the page has an inner path, and so a target file,
    whose name ends in .jpg, .jpeg or .png in any case: percent-decoding
    and cutting the path at the root marker or at the last slash keep the
    extension of the href, so that the collector, which takes files by
    this extension, does not leave a downloaded file out for its name. *)
Theorem records_keep_image_extension nd html r :
  r ∈ parse_image_links nd html →
  has_image_ext (inner_path r) = true
  ∧ has_image_ext (basename (local_path_of r)) = true.
Proof.
  unfold parse_image_links. intros (href & Hin & Hr)%list_elem_of_omap.
  apply raw_hrefs_sound in Hin as (_ & _ & _ & _ & _ & _ & Hsuf).
  rewrite (link_of_href_inner _ _ _ Hr).
  pose proof (inner_path_image_ext _ (unquote_image_ext _ (image_suffix_ext _ Hsuf)))
    as Hinner.
  split; [done|].
  unfold local_path_of. rewrite (link_of_href_inner _ _ _ Hr).
  rewrite local_path_under_root by apply inner_path_of_no_lead.
  apply has_image_ext_ends in Hinner as (x & Hend & Hx & Hlen & Hcases).
  destruct (split_last (inner_path_of (unquote href)))
    as (init & seg & _ & Hseg & [[_ Hs]|[_ [pre Hs]]]); rewrite Hs in *.
  - rewrite basename_after_slash by done. by eapply ends_has_image_ext.
  - replace (OUTPUT_ROOT +:+ "/" +:+ pre +:+ "/" +:+ seg)
      with ((OUTPUT_ROOT +:+ "/" +:+ pre) +:+ "/" +:+ seg)
      by (by rewrite !string_app_assoc).
    rewrite basename_after_slash by done.
    rewrite !lower_app in Hend. change (Str.lower "/") with "/" in Hend.
    apply endswith_after_slash in Hend; [|done].
    by eapply ends_has_image_ext.
Qed.

Lemma records_keep_image_extension_witness :
  has_image_ext (inner_path sample_record) = true
  ∧ has_image_ext (basename (local_path_of sample_record)) = true.
Proof.
  apply (records_keep_image_extension digits_arabic_indic sample_html).
  assert (parse_image_links digits_arabic_indic sample_html = [sample_record]) as ->
    by (by vm_compute).
  apply list_elem_of_here.
Defined.

(** ** The volumes of a run *)

(** The volumes the run builds PDFs for are the volumes of the records,
    each of them once, in ascending order. *)
Theorem vols_present_each_volume_once links_info :
  NoDup (vols_present links_info)
  ∧ StronglySorted (λ a b, Str.le a b = true) (vols_present links_info)
  ∧ ∀ v, v ∈ vols_present links_info ↔ ∃ r, r ∈ links_info ∧ vol r = v.
Proof.
  unfold vols_present.
  pose proof (sort_by_perm Str.le id (remove_dups (vol <$> links_info))) as Hp.
  split_and!.
  - rewrite Hp. apply NoDup_remove_dups.
  - apply (sort_by_sorted Str.le id str_le_total str_le_trans).
  - intros v. rewrite Hp, elem_of_remove_dups, list_elem_of_fmap.
    split; intros (r & ? & ?); exists r; done.
Qed.
